(** * Wayback timeline route: retrieval, retry, deduplication, ordering

    A shallow embedding of [app/api/wayback/route.ts] and the properties of
    its specification.  The route resolves a tile coordinate, asks the
    provider catalog for snapshot descriptors, turns every descriptor into a
    tile URL, downloads the tiles with a pool of cooperatively scheduled
    workers (each download retried up to three times), keeps one item per
    distinct image and answers with the items in chronological order.

    The embedding goes on to the code around the route: the viewer
    components that call it (their [fetchTimeline], the two arrows and the
    detection autoplay), the marker list of the globe and the location guess
    of the chat.  Part V has further properties of the route and the
    properties of this code.

    Conventions of the embedding:
    - JavaScript numbers that carry coordinates are binary64 floats
      ([PrimFloat.float]); release numbers and release timestamps are
      integers ([Z], epoch milliseconds); a timestamp outside the range of
      [Date] makes an invalid date, whose time value is NaN;
    - an [ArrayBuffer] is a list of bytes, a [Set<string>] a [gset string];
    - an [async] function is a tree of suspension points ([Task]); the
      event loop is a list of events, each resuming one suspended worker;
    - whatever the JavaScript runtime supplies and the repository does not
      define ([parseFloat], [Math.log], ...) is a field of [Platform];
    - the request is its query string, already split into parameters; the
      calls of [console.log] are left out;
    - the state of a React component is a record, and what is handed to a
      setter is a function on the part of the state it sets. *)

From Stdlib Require Import ZArith Lia List String Ascii.
From Stdlib Require Import Sorting.Sorted Sorting.Permutation.
From Stdlib.Strings Require Import Byte.
From Stdlib Require Import Floats.PrimFloat Floats.SpecFloat Floats.FloatOps.
From Stdlib Require Import QArith.QArith_base QArith.Qround QArith.Qreduction.
From Stdlib Require Import QArith.Qpower.
From stdpp Require Import gmap strings list.

#[local] Set Warnings "-clear-no-such-hyp".

(* ================================================================== *)
(** * Part I: the program *)
(* ================================================================== *)

(** ** Runtime library: base64 text of a buffer

    [Buffer.from(buf).toString('base64')]: three octets become four
    characters of the standard alphabet, the tail is padded with [=]. *)

Module Base64.

Definition alphabet : string :=
  "ABCDEFGHIJKLMNOPQRSTUVWXYZabcdefghijklmnopqrstuvwxyz0123456789+/".

Definition pad : ascii := "="%char.

Definition sextet (n : N) : ascii :=
  match String.get (N.to_nat n) alphabet with
  | Some c => c
  | None => pad
  end.

(* The four 6-bit groups cut from the 24 bits of three octets a, b, c. *)
Definition group0 (a : N) : N := (a / 4)%N.
Definition group1 (a b : N) : N := (a mod 4 * 16 + b / 16)%N.
Definition group2 (b c : N) : N := (b mod 16 * 4 + c / 64)%N.
Definition group3 (c : N) : N := (c mod 64)%N.

Fixpoint encode (l : list byte) : string :=
  match l with
  | [] => ""
  | [a] =>
      let a := Byte.to_N a in
      String (sextet (group0 a)) (String (sextet (group1 a 0)) "==")
  | [a; b] =>
      let a := Byte.to_N a in
      let b := Byte.to_N b in
      String (sextet (group0 a))
        (String (sextet (group1 a b)) (String (sextet (group2 b 0)) "="))
  | a :: b :: c :: rest =>
      let a := Byte.to_N a in
      let b := Byte.to_N b in
      let c := Byte.to_N c in
      String (sextet (group0 a))
        (String (sextet (group1 a b))
           (String (sextet (group2 b c))
              (String (sextet (group3 c)) (encode rest))))
  end.

Definition sextets : list N := map N.of_nat (seq 0 64).

(* Checked by evaluation: no sextet prints as the padding character and
   two different sextets print differently. *)
Definition sextet_table_ok : bool :=
  forallb (fun i =>
    negb (Ascii.eqb (sextet i) pad) &&
    forallb (fun j => implb (Ascii.eqb (sextet i) (sextet j)) (N.eqb i j)) sextets)
    sextets.

End Base64.

(** ** Runtime library: [String.prototype.replace] with a string pattern

    Only the first occurrence of the pattern is replaced.  The replacement
    text is inserted literally; this is what JavaScript does for a
    replacement without a dollar sign, which is the case of every number
    printed by [toString]. *)

Module JsString.

Fixpoint starts_with (pat s : string) : bool :=
  match pat, s with
  | EmptyString, _ => true
  | String a pat', String b s' => Ascii.eqb a b && starts_with pat' s'
  | String _ _, EmptyString => false
  end.

Fixpoint skip (n : nat) (s : string) : string :=
  match n, s with
  | S n', String _ s' => skip n' s'
  | _, _ => s
  end.

Fixpoint replace (pat rep s : string) : string :=
  if starts_with pat s then rep +:+ skip (String.length pat) s
  else match s with
       | EmptyString => EmptyString
       | String c s' => String c (replace pat rep s')
       end.

(* Number of positions of [s] at which [pat] starts. *)
Fixpoint occurrences (pat s : string) : nat :=
  (if starts_with pat s then 1 else 0) +
  match s with
  | EmptyString => 0
  | String _ s' => occurrences pat s'
  end.

Fixpoint all_chars (P : ascii → bool) (s : string) : bool :=
  match s with
  | EmptyString => true
  | String c s' => P c && all_chars P s'
  end.

Definition is_brace (c : ascii) : bool := Ascii.eqb c "{".

Definition brace_free (s : string) : bool :=
  all_chars (fun c => negb (is_brace c)) s.

(* Text without an opening brace and without the character [c0]. *)
Definition avoids (c0 : ascii) (s : string) : bool :=
  all_chars (fun c => negb (is_brace c) && negb (Ascii.eqb c c0)) s.

(* What [Number.prototype.toString] can print: the text starts with a digit,
   a minus sign, the N of NaN or the I of Infinity, and has neither an
   opening brace nor a dollar sign. *)
Definition leads_number (c : ascii) : bool :=
  existsb (Ascii.eqb c) (list_ascii_of_string "-0123456789NI").

Definition number_text (s : string) : bool :=
  match s with
  | EmptyString => false
  | String c s' =>
      leads_number c &&
      all_chars (fun d => negb (is_brace d) && negb (Ascii.eqb d "$")) s'
  end.

End JsString.

(** ** Runtime library: [Array.prototype.sort]

    The comparator returns a number; [None] stands for NaN, which the sort
    reads as +0 (SortCompare).  ECMAScript requires the sort to be stable;
    for a consistent comparator the result is then determined, and the
    insertion sort below computes it: an element goes before the first later
    element that does not compare smaller.  For a comparator that is not
    consistent ECMAScript leaves the order to the implementation; the
    properties that speak of the order are stated where the comparator is
    consistent. *)

Definition SortCompare {A} (compareFn : A → A → option Z) (a b : A) : Z :=
  match compareFn a b with
  | Some v => v
  | None => 0%Z
  end.

Fixpoint insert {A} (compareFn : A → A → option Z) (a : A) (l : list A)
    : list A :=
  match l with
  | [] => [a]
  | b :: l' =>
      if (SortCompare compareFn a b <=? 0)%Z then a :: b :: l'
      else b :: insert compareFn a l'
  end.

Fixpoint Array_sort {A} (compareFn : A → A → option Z) (l : list A) : list A :=
  match l with
  | [] => []
  | a :: l' => insert compareFn a (Array_sort compareFn l')
  end.

(** ** Runtime library: [Date]

    [new Date(t).getTime()] for a number [t] that is an integer: the time
    value [t] itself when it lies at most 8.64e15 ms from the epoch, and NaN
    ([None]) beyond, where the date is invalid (TimeClip). *)

Definition Date_max : Z := 8640000000000000.

Definition Date_getTime (t : Z) : option Z :=
  if (Z.abs t <=? Date_max)%Z then Some t else None.

(** ** Data *)

Definition bytes := list byte.

(** One entry of the provider catalog, as [@esri/wayback-core] returns it. *)
Module WaybackItem.
Record t := {
  releaseNum : Z;
  releaseDateLabel : string;
  releaseDatetime : Z;
  itemTitle : string;
  itemURL : string;
  layerIdentifier : string
}.
End WaybackItem.

(** The object built by the [map] callback of [GET] (route.ts 113-120): a
    candidate tile, later an item of the timeline. *)
Record Tile := {
  releaseNum : Z;
  releaseDate : string;
  releaseDatetime : Z;
  title : string;
  tileUrl : string;
  provider : string
}.

Record ErrorEntry := { url : string; error : string }.

(** What [fetch] resolves to.  [arrayBuffer] is the result of reading the
    body: [None] when that read rejects. *)
Record Response := { status : Z; arrayBuffer : option bytes }.

Definition ok (resp : Response) : bool :=
  (200 <=? status resp)%Z && (status resp <=? 299)%Z.

Inductive FetchResult :=
| Rejected
| Resolved (resp : Response).

(** ** Asynchronous functions

    The body of an [async] function up to its next [await]: it has returned,
    or it waits for a fetch, for the body of a response or for a timer, and
    continues from there. *)

Inductive Task (R : Type) : Type :=
| Return (r : R)
| AwaitFetch (target : string) (k : FetchResult → Task R)
| AwaitArrayBuffer (resp : Response) (k : option bytes → Task R)
| AwaitTimeout (ms : Z) (k : Task R).
Arguments Return {R} r.
Arguments AwaitFetch {R} target k.
Arguments AwaitArrayBuffer {R} resp k.
Arguments AwaitTimeout {R} ms k.

(** route.ts 19-31.  [n] counts the iterations the [for] loop has left,
    [i] is the loop variable; [caught] is the [catch] block. *)
Fixpoint fetchWithRetry_loop (n : nat) (target : string) (attempts : nat)
    (delayMs : Z) (i : nat) : Task (option bytes) :=
  match n with
  | O => Return None
  | S n' =>
      let caught :=
        if (i =? attempts)%nat then Return None
        else AwaitTimeout (delayMs * Z.of_nat i)
               (fetchWithRetry_loop n' target attempts delayMs (S i)) in
      AwaitFetch target (fun r =>
        match r with
        | Rejected => caught
        | Resolved resp =>
            if ok resp then
              AwaitArrayBuffer resp (fun body =>
                match body with
                | Some buf => Return (Some buf)
                | None => caught
                end)
            else caught
        end)
  end.

Definition fetchWithRetry (target : string) (attempts : nat) (delayMs : Z)
    : Task (option bytes) :=
  fetchWithRetry_loop attempts target attempts delayMs 1.

(** Running a task alone against the results of its successive fetches:
    [replay] is the task that is left, [effects] what it did on the way. *)
Fixpoint replay {R} (t : Task R) (rs : list FetchResult) : Task R :=
  match t with
  | Return r => Return r
  | AwaitFetch _ k =>
      match rs with
      | [] => t
      | r :: rs' => replay (k r) rs'
      end
  | AwaitArrayBuffer resp k => replay (k (arrayBuffer resp)) rs
  | AwaitTimeout _ k => replay k rs
  end.

(* The results that are left over once the task has returned. *)
Fixpoint unused {R} (t : Task R) (rs : list FetchResult) : list FetchResult :=
  match t with
  | Return _ => rs
  | AwaitFetch _ k =>
      match rs with
      | [] => []
      | r :: rs' => unused (k r) rs'
      end
  | AwaitArrayBuffer resp k => unused (k (arrayBuffer resp)) rs
  | AwaitTimeout _ k => unused k rs
  end.

Inductive Effect :=
| DidFetch (target : string)
| DidReadBody
| DidWait (ms : Z).

Fixpoint effects {R} (t : Task R) (rs : list FetchResult) : list Effect :=
  match t with
  | Return _ => []
  | AwaitFetch target k =>
      DidFetch target ::
      match rs with
      | [] => []
      | r :: rs' => effects (k r) rs'
      end
  | AwaitArrayBuffer resp k => DidReadBody :: effects (k (arrayBuffer resp)) rs
  | AwaitTimeout ms k => DidWait ms :: effects k rs
  end.

Definition waits (es : list Effect) : list Z :=
  omap (fun e => match e with DidWait ms => Some ms | _ => None end) es.

(* The bytes one attempt yields: none for a network failure, for a status
   outside 200-299 and for a body that cannot be read. *)
Definition attempt (r : FetchResult) : option bytes :=
  match r with
  | Rejected => None
  | Resolved resp => if ok resp then arrayBuffer resp else None
  end.

(** ** The worker pool of [dedupeTimelineByImage] (route.ts 33-67) *)

(** What the closures of the workers share. *)
Record Shared := {
  index : nat;
  uniqueImageHashes : gset string;
  uniqueItems : list Tile;
  errors : list ErrorEntry
}.

(** A worker is past its loop, or suspended inside [fetchWithRetry] for the
    tile it claimed.  [received] records the fetch results it has been
    given for that tile; the program does not read it. *)
Inductive Worker :=
| Finished
| Suspended (current : Tile) (received : list FetchResult)
    (t : Task (option bytes)).

(** A record of one finished [fetchWithRetry]: the tile, the fetch results
    it met and what it returned. *)
Record Completion := {
  tile : Tile;
  answers : list FetchResult;
  outcome : option bytes
}.

Record Pool := {
  shared : Shared;
  workers : list Worker;
  completed : list Completion
}.

(** route.ts 44-52: the loop body after [await fetchWithRetry].  The
    [catch] block of the worker (route.ts 53-55) has no counterpart:
    [fetchWithRetry] catches whatever its body throws, and encoding a buffer
    throws only beyond the string size limit of the runtime. *)
Definition settle (current : Tile) (buf : option bytes) (s : Shared) : Shared :=
  match buf with
  | None =>
      {| index := index s;
         uniqueImageHashes := uniqueImageHashes s;
         uniqueItems := uniqueItems s;
         errors := errors s ++
           [ {| url := tileUrl current; error := "fetch-failed" |} ] |}
  | Some buf =>
      let b64 := Base64.encode buf in
      if decide (b64 ∈ uniqueImageHashes s) then s
      else
        {| index := index s;
           uniqueImageHashes := uniqueImageHashes s ∪ {[ b64 ]};
           uniqueItems := uniqueItems s ++ [current];
           errors := errors s |}
  end.

(** route.ts 40-43: the loop test, the claim of [timelineRaw[index++]] and
    the call of [fetchWithRetry] with its default arguments (3 attempts,
    250 ms), up to its first suspension, the first [fetch].  A worker starts
    here and comes back here after every tile. *)
Definition worker (timelineRaw : list Tile) (s : Shared) : Shared * Worker :=
  match timelineRaw !! index s with
  | None => (s, Finished)
  | Some current =>
      ({| index := S (index s);
          uniqueImageHashes := uniqueImageHashes s;
          uniqueItems := uniqueItems s;
          errors := errors s |},
       Suspended current [] (fetchWithRetry (tileUrl current) 3 250))
  end.

(** What the event loop delivers to a suspended worker. *)
Inductive Signal :=
| FetchSettled (r : FetchResult)
| BodySettled
| TimerFired.

Definition Event : Type := nat * Signal.

Definition advance (t : Task (option bytes)) (received : list FetchResult)
    (sig : Signal) : option (Task (option bytes) * list FetchResult) :=
  match t, sig with
  | AwaitFetch _ k, FetchSettled r => Some (k r, received ++ [r])
  | AwaitArrayBuffer resp k, BodySettled => Some (k (arrayBuffer resp), received)
  | AwaitTimeout _ k, TimerFired => Some (k, received)
  | _, _ => None
  end.

(** Worker [w] runs on from its suspension point until it suspends again or
    leaves its loop. *)
Definition resume (timelineRaw : list Tile) (p : Pool) (w : nat)
    (current : Tile) (received : list FetchResult) (t : Task (option bytes))
    : Pool :=
  match t with
  | Return buf =>
      let '(s, next) := worker timelineRaw (settle current buf (shared p)) in
      {| shared := s;
         workers := <[w := next]> (workers p);
         completed := completed p ++
           [ {| tile := current; answers := received; outcome := buf |} ] |}
  | _ =>
      {| shared := shared p;
         workers := <[w := Suspended current received t]> (workers p);
         completed := completed p |}
  end.

Definition step (timelineRaw : list Tile) (p : Pool) (e : Event) : option Pool :=
  match workers p !! e.1 with
  | Some (Suspended current received t) =>
      match advance t received e.2 with
      | Some (t', received') =>
          Some (resume timelineRaw p e.1 current received' t')
      | None => None
      end
  | _ => None
  end.

Fixpoint run (timelineRaw : list Tile) (p : Pool) (schedule : list Event)
    : option Pool :=
  match schedule with
  | [] => Some p
  | e :: rest =>
      match step timelineRaw p e with
      | Some p' => run timelineRaw p' rest
      | None => None
      end
  end.

(** route.ts 59: [Array.from({ length: concurrency }, () => worker())]. *)
Fixpoint spawn (timelineRaw : list Tile) (concurrency : nat) (s : Shared)
    : Shared * list Worker :=
  match concurrency with
  | O => (s, [])
  | S n =>
      let '(s1, w) := worker timelineRaw s in
      let '(s2, ws) := spawn timelineRaw n s1 in
      (s2, w :: ws)
  end.

Definition start (timelineRaw : list Tile) (concurrency : nat) : Pool :=
  let '(s, ws) :=
    spawn timelineRaw concurrency
      {| index := 0; uniqueImageHashes := ∅; uniqueItems := []; errors := [] |} in
  {| shared := s; workers := ws; completed := [] |}.

Definition is_finished (w : Worker) : bool :=
  match w with
  | Finished => true
  | Suspended _ _ _ => false
  end.

Definition all_finished (p : Pool) : bool := forallb is_finished (workers p).

(** [await Promise.all(workers)]: the pool once every worker has left its
    loop; [None] while the schedule leaves a worker suspended, or names a
    worker that is not waiting for that signal. *)
Definition runPool (timelineRaw : list Tile) (concurrency : nat)
    (schedule : list Event) : option Pool :=
  match run timelineRaw (start timelineRaw concurrency) schedule with
  | Some p => if all_finished p then Some p else None
  | None => None
  end.

(** route.ts 63-65: the comparator of the final sort.  The difference of
    two time values is NaN when either is; otherwise it is rounded to
    binary64, which keeps its sign and keeps it from zero, and the sort
    reads the sign only. *)
Definition chronological (a b : Tile) : option Z :=
  match Date_getTime (releaseDatetime a), Date_getTime (releaseDatetime b) with
  | Some ta, Some tb => Some (ta - tb)%Z
  | _, _ => None
  end.

Definition dedupeTimelineByImage (timelineRaw : list Tile) (concurrency : nat)
    (schedule : list Event) : option (list Tile * list ErrorEntry) :=
  match runPool timelineRaw concurrency schedule with
  | Some p =>
      Some (Array_sort chronological (uniqueItems (shared p)),
            errors (shared p))
  | None => None
  end.

(** A worker has a tile request in flight while it waits for the response
    or for its body. *)
Definition in_flight (w : Worker) : bool :=
  match w with
  | Suspended _ _ (AwaitFetch _ _) => true
  | Suspended _ _ (AwaitArrayBuffer _ _) => true
  | _ => false
  end.

Definition inFlight (p : Pool) : nat :=
  length (filter (fun w => in_flight w = true) (workers p)).

(** The tiles claimed and not yet settled. *)
Definition holding (ws : list Worker) : list Tile :=
  omap (fun w => match w with
                 | Suspended current _ _ => Some current
                 | Finished => None
                 end) ws.

(** ** Reading the record of completions *)

Definition successes (log : list Completion) : list (Tile * bytes) :=
  omap (fun c => match outcome c with
                 | Some b => Some (tile c, b)
                 | None => None
                 end) log.

Definition failures (log : list Completion) : list Tile :=
  omap (fun c => match outcome c with
                 | Some _ => None
                 | None => Some (tile c)
                 end) log.

Definition fetch_failed (t : Tile) : ErrorEntry :=
  {| url := tileUrl t; error := "fetch-failed" |}.

#[global] Instance byte_eq_dec : EqDecision byte := Byte.byte_eq_dec.

(** The deduplication as the specification words it: going through the
    fetched tiles in completion order, a tile is kept when no tile before
    it had the same bytes. *)
Fixpoint keep_first_from (seen : list bytes) (l : list (Tile * bytes))
    : list (Tile * bytes) :=
  match l with
  | [] => []
  | (t, b) :: l' =>
      if decide (b ∈ seen) then keep_first_from seen l'
      else (t, b) :: keep_first_from (b :: seen) l'
  end.

Definition keep_first (l : list (Tile * bytes)) : list (Tile * bytes) :=
  keep_first_from [] l.

(** ** The route handler *)

(** What the JavaScript runtime supplies.  Numbers are binary64 floats;
    [parseInt] yields an integral float or NaN. *)
Record Platform := {
  parseFloat : string → float;
  parseInt : string → float;
  Math_pow : float → float → float;
  Math_floor : float → float;
  Math_log : float → float;
  Math_tan : float → float;
  Math_cos : float → float;
  Number_toString : float → string
}.

Definition Math_PI : float := 0x1.921fb54442d18p+1%float.

Module TileCoords.
Record t := { x : float; y : float; z : float }.
End TileCoords.

(** route.ts 8-16. *)
Definition latLngToTile (P : Platform) (lat lng zoom : float) : TileCoords.t :=
  let latRad := (lat * Math_PI / 180)%float in
  let n := Math_pow P 2%float zoom in
  let xTile := Math_floor P (n * ((lng + 180) / 360))%float in
  let yTile :=
    Math_floor P
      (n * (1 - Math_log P (Math_tan P latRad + 1 / Math_cos P latRad) / Math_PI)
       / 2)%float in
  {| TileCoords.x := xTile; TileCoords.y := yTile; TileCoords.z := zoom |}.

(** route.ts 108-111: the three chained [replace] calls, on the printed
    coordinates. *)
Definition resolveTemplate (itemURL level row col : string) : string :=
  JsString.replace "{col}" col
    (JsString.replace "{row}" row
       (JsString.replace "{level}" level itemURL)).

Definition placeholders : list string := ["{level}"; "{row}"; "{col}"].

(** route.ts 106-121: the callback of [waybackItems.map]. *)
Definition materialize (P : Platform) (tileCoords : TileCoords.t)
    (item : WaybackItem.t) : Tile :=
  let tileUrl :=
    resolveTemplate (WaybackItem.itemURL item)
      (Number_toString P (TileCoords.z tileCoords))
      (Number_toString P (TileCoords.y tileCoords))
      (Number_toString P (TileCoords.x tileCoords)) in
  {| releaseNum := WaybackItem.releaseNum item;
     releaseDate := WaybackItem.releaseDateLabel item;
     releaseDatetime := WaybackItem.releaseDatetime item;
     title := WaybackItem.itemTitle item;
     tileUrl := tileUrl;
     provider := WaybackItem.layerIdentifier item |}.

(** The JSON body of a 200 answer (route.ts 128-135). *)
Module Body.
Record t := {
  location : float * float;
  zoom : float;
  tileCoords : TileCoords.t;
  count : nat;
  timeline : list Tile;
  errors : list ErrorEntry
}.
End Body.

Inductive Json :=
| TimelineJson (body : Body.t)
| ErrorJson (error : string).

Record HttpResponse := { json : Json; http_status : Z }.

(** The query string of the request, as [URLSearchParams]. *)
Definition Request : Type := list (string * string).

Definition searchParams_get (request : Request) (name : string) : option string :=
  match find (fun kv => String.eqb kv.1 name) request with
  | Some kv => Some kv.2
  | None => None
  end.

(* [v || d] for a string or null [v]. *)
Definition or_else (v : option string) (d : string) : string :=
  match v with
  | None => d
  | Some EmptyString => d
  | Some s => s
  end.

(* [!x] for a number: zero of either sign, or NaN. *)
Definition falsy (x : float) : bool :=
  PrimFloat.eqb x 0%float || negb (PrimFloat.eqb x x).

Inductive CatalogReply :=
| Items (waybackItems : list WaybackItem.t)
| Throws.

(** What lies outside the handler: the two catalog queries of
    [@esri/wayback-core] and the order and results of the tile downloads. *)
Record World := {
  getWaybackItems : CatalogReply;
  getWaybackItemsWithLocalChanges : float → float → float → CatalogReply;
  schedule : list Event
}.

Inductive Call :=
| CallGetWaybackItems
| CallGetWaybackItemsWithLocalChanges (lat lng zoom : float)
| CallFetch (target : string).

(* The tile requests behind a record of completions, tile by tile. *)
Definition fetchCalls (log : list Completion) : list Call :=
  flat_map (fun c => map (fun _ => CallFetch (tileUrl (tile c))) (answers c)) log.

Definition tileCalls (timelineRaw : list Tile) (concurrency : nat)
    (schedule : list Event) : list Call :=
  match runPool timelineRaw concurrency schedule with
  | Some p => fetchCalls (completed p)
  | None => []
  end.

(** route.ts 69-143.  The result is the response together with the network
    calls made for it; [None] while the handler still waits for a tile. *)
Definition GET (P : Platform) (request : Request) (world : World)
    : option (HttpResponse * list Call) :=
  let lat := parseFloat P (or_else (searchParams_get request "lat") "0") in
  let lng := parseFloat P (or_else (searchParams_get request "lng") "0") in
  let zoom := parseInt P (or_else (searchParams_get request "zoom") "15") in
  let mode := or_else (searchParams_get request "mode") "all" in
  if falsy lat || falsy lng then
    Some ({| json := ErrorJson "Missing latitude or longitude";
             http_status := 400 |}, [])
  else
    let '(reply, call) :=
      if String.eqb mode "all" then (getWaybackItems world, CallGetWaybackItems)
      else (getWaybackItemsWithLocalChanges world lat lng zoom,
            CallGetWaybackItemsWithLocalChanges lat lng zoom) in
    match reply with
    | Throws =>
        Some ({| json := ErrorJson "Failed to fetch wayback imagery";
                 http_status := 500 |}, [call])
    | Items waybackItems =>
        let tileCoords := latLngToTile P lat lng zoom in
        let timelineRaw := map (materialize P tileCoords) waybackItems in
        match dedupeTimelineByImage timelineRaw 8 (schedule world) with
        | None => None
        | Some (uniqueItems, errors) =>
            Some ({| json := TimelineJson
                       {| Body.location := (lat, lng);
                          Body.zoom := zoom;
                          Body.tileCoords := tileCoords;
                          Body.count := length uniqueItems;
                          Body.timeline := uniqueItems;
                          Body.errors := errors |};
                     http_status := 200 |},
                  call :: tileCalls timelineRaw 8 (schedule world))
        end
    end.

(** ** The timeline viewer

    [SatelliteImageViewer] (components/satellite-image-viewer.tsx) and the
    older [SatelliteTimeline] panel are the callers of the route.  They load
    the timeline with the same [fetchTimeline] and step through the images
    with the same two handlers; the viewer also sends every image through
    the vehicle detection. *)

(** The boxes found in one image (satellite-image-viewer.tsx 26-33). *)
Module DetectionBox.
Record t := {
  x1 : float;
  y1 : float;
  x2 : float;
  y2 : float;
  cls : option string;
  conf : option float
}.
End DetectionBox.

Module ImageDetections.
Record t := {
  date : string;
  width : float;
  height : float;
  boxes : list DetectionBox.t;
  annotatedImage : option string
}.
End ImageDetections.

(** The state of the viewer: the variables of [useState] and the ref
    [analysisSentRef].  [timeline] is what [setTimeline] was last given,
    [None] standing for [undefined], the value of [data.timeline] on a body
    that has no such member; [detections] is the object keyed by the index
    of the image.  The panel has the first four variables only. *)
Module Viewer.
Record t := {
  timeline : option (list Tile);
  currentIndex : Z;
  loading : bool;
  error : option string;
  detections : gmap nat ImageDetections.t;
  autoplayDone : bool;
  analysisSent : bool
}.
End Viewer.

(** What [await fetch(url)] has come to in the browser: the promise is still
    pending, it rejected with an [Error] of the given message, or it
    resolved with the answer of the server, whose body [response.json()]
    parses. *)
Inductive Reply :=
| Pending
| NetworkError (message : string)
| Answer (response : HttpResponse).

(* [response.ok] *)
Definition response_ok (response : HttpResponse) : bool :=
  (200 <=? http_status response)%Z && (http_status response <=? 299)%Z.

(* [data.timeline] *)
Definition data_timeline (data : Json) : option (list Tile) :=
  match data with
  | TimelineJson body => Some (Body.timeline body)
  | ErrorJson _ => None
  end.

(** The query of the URL
    [`/api/wayback?lat=${latitude}&lng=${longitude}&zoom=18&mode=all`]
    (satellite-image-viewer.tsx 63), as the route gets it.  The text of a
    number comes through the query syntax as it was printed, but for the
    plus sign of an exponent, which [toString] writes from 1e21 on only. *)
Definition waybackQuery (P : Platform) (latitude longitude : float) : Request :=
  [ ("lat", Number_toString P latitude);
    ("lng", Number_toString P longitude);
    ("zoom", "18");
    ("mode", "all") ].

(** satellite-image-viewer.tsx 60-83: the state the function leaves.  While
    the request is pending only [setLoading(true)] has run. *)
Definition fetchTimeline (P : Platform) (fetch : Request → Reply)
    (latitude longitude : float) (st : Viewer.t) : Viewer.t :=
  let url := waybackQuery P latitude longitude in
  match fetch url with
  | Pending =>
      {| Viewer.timeline := Viewer.timeline st;
         Viewer.currentIndex := Viewer.currentIndex st;
         Viewer.loading := true;
         Viewer.error := Viewer.error st;
         Viewer.detections := Viewer.detections st;
         Viewer.autoplayDone := Viewer.autoplayDone st;
         Viewer.analysisSent := Viewer.analysisSent st |}
  | NetworkError message =>
      {| Viewer.timeline := Viewer.timeline st;
         Viewer.currentIndex := Viewer.currentIndex st;
         Viewer.loading := false;
         Viewer.error := Some message;
         Viewer.detections := Viewer.detections st;
         Viewer.autoplayDone := Viewer.autoplayDone st;
         Viewer.analysisSent := Viewer.analysisSent st |}
  | Answer response =>
      if response_ok response then
        {| Viewer.timeline := data_timeline (json response);
           Viewer.currentIndex := 0;
           Viewer.loading := false;
           Viewer.error := Viewer.error st;
           Viewer.detections := Viewer.detections st;
           Viewer.autoplayDone := Viewer.autoplayDone st;
           Viewer.analysisSent := false |}
      else
        {| Viewer.timeline := Viewer.timeline st;
           Viewer.currentIndex := Viewer.currentIndex st;
           Viewer.loading := false;
           Viewer.error := Some "Failed to fetch satellite imagery";
           Viewer.detections := Viewer.detections st;
           Viewer.autoplayDone := Viewer.autoplayDone st;
           Viewer.analysisSent := Viewer.analysisSent st |}
  end.

(** satellite-image-viewer.tsx 88: [timeline[currentIndex]]; [undefined]
    for an index outside the array. *)
Definition currentImage (timeline : list Tile) (currentIndex : Z) : option Tile :=
  if (currentIndex <? 0)%Z then None else timeline !! Z.to_nat currentIndex.

(** satellite-image-viewer.tsx 90-96: the updaters handed to
    [setCurrentIndex]. *)
Definition goToPrevious (timeline : list Tile) (prev : Z) : Z :=
  if (prev >? 0)%Z then (prev - 1)%Z else (Z.of_nat (length timeline) - 1)%Z.

Definition goToNext (timeline : list Tile) (prev : Z) : Z :=
  if (prev <? Z.of_nat (length timeline) - 1)%Z then (prev + 1)%Z else 0%Z.

(** ** The markers of the globe (contexts/globe-context.tsx) *)

Module GlobeMarker.
Record t := {
  id : string;
  lat : float;
  lng : float;
  label : string;
  color : option string;
  size : option float
}.
End GlobeMarker.

(** globe-context.tsx 48-54: the updater handed to [setMarkers]. *)
Definition addMarker (marker : GlobeMarker.t) (prev : list GlobeMarker.t)
    : list GlobeMarker.t :=
  let filtered :=
    filter (fun m => GlobeMarker.id m ≠ GlobeMarker.id marker) prev in
  filtered ++ [marker].

(** globe-context.tsx 56-58. *)
Definition clearMarkers : list GlobeMarker.t := [].

(** ** The location named in a chat message

    [text.match(/\(([^)]+)\)/)]: the leftmost opening parenthesis that is
    followed by at least one character other than a closing parenthesis and
    then by a closing parenthesis; the group is the longest such run, since
    whatever ends it short of a closing parenthesis is itself no closing
    parenthesis. *)

(* The longest prefix without a closing parenthesis, and the rest. *)
Fixpoint span_unclosed (s : string) : string * string :=
  match s with
  | EmptyString => (EmptyString, EmptyString)
  | String c s' =>
      if Ascii.eqb c ")" then (EmptyString, s)
      else let '(run, rest) := span_unclosed s' in (String c run, rest)
  end.

(* The captured group [p[1]] of the match, [None] for [p = null]. *)
Fixpoint match_parenthesized (text : string) : option string :=
  match text with
  | EmptyString => None
  | String c s' =>
      if Ascii.eqb c "(" then
        match span_unclosed s' with
        | (String a run, String _ _) => Some (String a run)
        | _ => match_parenthesized s'
        end
      else match_parenthesized s'
  end.

(** The chat's [extractLocationGuess] (globe-context.tsx 295-301). *)
Definition extractLocationGuess (text : string) : string :=
  match match_parenthesized text with
  | Some (String a run) => String a run
  | _ => text
  end.

(** ** The detection autoplay of the viewer *)

(** The body of an answer of [/api/detect_vehicles], as far as the viewer
    reads it; a member that is absent is [None]. *)
Module DetectionData.
Record t := {
  error : option string;
  width : option float;
  height : option float;
  boxes : option (list DetectionBox.t);
  annotated_image : option string
}.
End DetectionData.

(** What the request for one image comes to.  Either the [catch] block
    takes over, because [fetch] rejects, the status is not ok or the body is
    no JSON; or the body parses, to [null] or to an object.  (A body that
    parses to a number, a string or a boolean is read like [null] when it is
    falsy and like an object without members otherwise.) *)
Inductive Detection :=
| DetectionThrows
| DetectionJson (data : option DetectionData.t).

(* [!!v] for a string or undefined. *)
Definition truthy (v : option string) : bool :=
  match v with
  | Some (String _ _) => true
  | _ => false
  end.

(* [v || d] for a number or undefined. *)
Definition number_or (v : option float) (d : float) : float :=
  match v with
  | Some x => if falsy x then d else x
  | None => d
  end.

(** satellite-image-viewer.tsx 146-156: the entry that is stored for the
    image [t], if one is stored. *)
Definition detected (t : Tile) (reply : Detection)
    : option ImageDetections.t :=
  match reply with
  | DetectionJson (Some data) =>
      if truthy (DetectionData.error data) then None
      else
        Some {| ImageDetections.date := releaseDate t;
                ImageDetections.width :=
                  number_or (DetectionData.width data) 256;
                ImageDetections.height :=
                  number_or (DetectionData.height data) 256;
                ImageDetections.boxes :=
                  default [] (DetectionData.boxes data);
                ImageDetections.annotatedImage :=
                  DetectionData.annotated_image data |}
  | _ => None
  end.

(** satellite-image-viewer.tsx 121-165: the iterations [i], [i+1], ... of
    the loop, one for each image that remains; [replies j] is what the
    request for the image [j] comes to. *)
Fixpoint detectionLoop (i : nat) (remaining : list Tile)
    (replies : nat → Detection) (st : Viewer.t) : Viewer.t :=
  match remaining with
  | [] => st
  | t :: rest =>
      detectionLoop (S i) rest replies
        {| Viewer.timeline := Viewer.timeline st;
           Viewer.currentIndex := Z.of_nat i;
           Viewer.loading := Viewer.loading st;
           Viewer.error := Viewer.error st;
           Viewer.detections :=
             match detected t (replies i) with
             | Some d => <[i := d]> (Viewer.detections st)
             | None => Viewer.detections st
             end;
           Viewer.autoplayDone := Viewer.autoplayDone st;
           Viewer.analysisSent := Viewer.analysisSent st |}
  end.

(** satellite-image-viewer.tsx 116-167, for a run that is not cancelled:
    the timeline stays the same while the run lasts. *)
Definition runDetectionsSequentially (timeline : list Tile)
    (replies : nat → Detection) (st : Viewer.t) : Viewer.t :=
  if (length timeline =? 0) || Viewer.autoplayDone st then st
  else
    let st' :=
      detectionLoop 0 timeline replies
        {| Viewer.timeline := Viewer.timeline st;
           Viewer.currentIndex := Viewer.currentIndex st;
           Viewer.loading := Viewer.loading st;
           Viewer.error := Viewer.error st;
           Viewer.detections := ∅;
           Viewer.autoplayDone := Viewer.autoplayDone st;
           Viewer.analysisSent := false |} in
    {| Viewer.timeline := Viewer.timeline st';
       Viewer.currentIndex := Viewer.currentIndex st';
       Viewer.loading := Viewer.loading st';
       Viewer.error := Viewer.error st';
       Viewer.detections := Viewer.detections st';
       Viewer.autoplayDone := true;
       Viewer.analysisSent := Viewer.analysisSent st' |}.

(** A point of the chart that the analysis is drawn as. *)
Module Point.
Record t := { date : string; count : nat }.
End Point.

(* The comparator [(a, b) => a - b], on array indices. *)
Definition compareNumbers (a b : nat) : option Z :=
  Some (Z.of_nat a - Z.of_nat b)%Z.

(* [Object.keys] of an object whose keys are array indices: the keys in
   ascending order. *)
Definition Object_keys {A} (m : gmap nat A) : list nat :=
  Array_sort compareNumbers (map_to_list m).*1.

(** satellite-image-viewer.tsx 175-185: the effect that hands the analysis
    to [onAnalysisComplete], where [onAnalysisComplete] tells whether the
    viewer was given that callback.  The result is the state and the points
    handed over, if any. *)
Definition sendAnalysis (timeline : list Tile) (onAnalysisComplete : bool)
    (st : Viewer.t) : Viewer.t * option (list Point.t) :=
  if negb (Viewer.autoplayDone st) || negb onAnalysisComplete
     || Viewer.analysisSent st
  then (st, None)
  else
    let totalDone := length (Object_keys (Viewer.detections st)) in
    if negb (totalDone =? length timeline) then (st, None)
    else
      let points :=
        omap (fun i =>
                match Viewer.detections st !! i with
                | Some d =>
                    Some {| Point.date := ImageDetections.date d;
                            Point.count := length (ImageDetections.boxes d) |}
                | None => None
                end)
          (Array_sort compareNumbers (Object_keys (Viewer.detections st))) in
      ({| Viewer.timeline := Viewer.timeline st;
          Viewer.currentIndex := Viewer.currentIndex st;
          Viewer.loading := Viewer.loading st;
          Viewer.error := Viewer.error st;
          Viewer.detections := Viewer.detections st;
          Viewer.autoplayDone := Viewer.autoplayDone st;
          Viewer.analysisSent := true |},
       Some points).

(* ================================================================== *)
(** * Part II: vocabulary of the properties *)
(* ================================================================== *)

(** ** Order and ties in the timeline *)

Definition earlier (a b : Tile) : Prop :=
  (releaseDatetime a ≤ releaseDatetime b)%Z.

Definition released_at (k : Z) (t : Tile) : Prop := releaseDatetime t = k.

(* The release timestamp of the tile is a time value that [Date] can hold:
   its [getTime()] is not NaN. *)
Definition dated (t : Tile) : Prop :=
  is_Some (Date_getTime (releaseDatetime t)).

(* The same of the snapshots of a catalog reply. *)
Definition datedCatalog (reply : CatalogReply) : Prop :=
  match reply with
  | Items waybackItems =>
      Forall (fun item =>
                is_Some (Date_getTime (WaybackItem.releaseDatetime item)))
        waybackItems
  | Throws => True
  end.

#[global] Instance released_at_dec k t : Decision (released_at k t).
Proof. unfold released_at. apply _. Defined.

(** ** The tile URL in one pass *)

(** The substitution as the specification words it: one pass over the
    template that replaces a placeholder the first time it is met and
    copies everything else, later occurrences included.  [level], [row] and
    [col] are the texts still to be placed; [skipping] counts the characters
    of a placeholder just replaced that remain to be dropped. *)
Fixpoint substitute_first (skipping : nat) (level row col : option string)
    (s : string) : string :=
  match s with
  | EmptyString => EmptyString
  | String c s' =>
      match skipping with
      | S k => substitute_first k level row col s'
      | O =>
          let copy := String c (substitute_first 0 level row col s') in
          if JsString.starts_with "{level}" s then
            match level with
            | Some z => z +:+ substitute_first 6 None row col s'
            | None => copy
            end
          else if JsString.starts_with "{row}" s then
            match row with
            | Some y => y +:+ substitute_first 4 level None col s'
            | None => copy
            end
          else if JsString.starts_with "{col}" s then
            match col with
            | Some x => x +:+ substitute_first 4 level row None s'
            | None => copy
            end
          else copy
      end
  end.

(* The chain of [resolveTemplate] with some of the replacements left out. *)
Definition replace_opt (pat : string) (rep : option string) (s : string) : string :=
  match rep with
  | Some r => JsString.replace pat r s
  | None => s
  end.

Definition resolve_opt (level row col : option string) (s : string) : string :=
  replace_opt "{col}" col (replace_opt "{row}" row (replace_opt "{level}" level s)).

Definition printed (rep : option string) : Prop :=
  match rep with
  | Some r => JsString.number_text r = true
  | None => True
  end.

(** ** What a download did *)

(* The URLs requested, in order. *)
Definition fetched (es : list Effect) : list string :=
  omap (fun e => match e with DidFetch u => Some u | _ => None end) es.

(** ** Invariant of the worker pool *)

(* A suspended worker is inside the [fetchWithRetry] of its tile, exactly
   where the fetch results it has received lead. *)
Definition worker_ok (w : Worker) : Prop :=
  match w with
  | Finished => True
  | Suspended current received t =>
      (∀ buf, t ≠ Return buf) ∧
      replay (fetchWithRetry (tileUrl current) 3 250) received = replay t [] ∧
      unused (fetchWithRetry (tileUrl current) 3 250) received = []
  end.

(* A record of completion holds what [fetchWithRetry] returns on the fetch
   results it lists, all of them used. *)
Definition completion_ok (c : Completion) : Prop :=
  replay (fetchWithRetry (tileUrl (tile c)) 3 250) (answers c) =
    Return (outcome c) ∧
  unused (fetchWithRetry (tileUrl (tile c)) 3 250) (answers c) = [].

(* The shared collections are functions of the record of completions; the
   tiles settled or held by a worker are the first [index] candidates. *)
Record invariant (timelineRaw : list Tile) (concurrency : nat) (p : Pool)
    : Prop := {
  inv_workers : length (workers p) = concurrency;
  inv_index : index (shared p) ≤ length timelineRaw;
  inv_claimed :
    Permutation (map tile (completed p) ++ holding (workers p))
      (take (index (shared p)) timelineRaw);
  inv_items :
    uniqueItems (shared p) = (keep_first (successes (completed p))).*1;
  inv_hashes :
    uniqueImageHashes (shared p) =
    list_to_set (Base64.encode <$> (successes (completed p)).*2);
  inv_errors : errors (shared p) = fetch_failed <$> failures (completed p);
  inv_suspended : Forall worker_ok (workers p);
  inv_completed : Forall completion_ok (completed p);
  inv_finished : Finished ∈ workers p → index (shared p) = length timelineRaw
}.

(** ** A bound on the signals still to come *)

(* At most [n] more signals can be delivered to the task. *)
Fixpoint within {R} (n : nat) (t : Task R) : Prop :=
  match t with
  | Return _ => True
  | AwaitFetch _ k =>
      match n with
      | O => False
      | S n' => ∀ r, within n' (k r)
      end
  | AwaitArrayBuffer resp k =>
      match n with
      | O => False
      | S n' => within n' (k (arrayBuffer resp))
      end
  | AwaitTimeout _ k =>
      match n with
      | O => False
      | S n' => within n' k
      end
  end.

Definition cost (w : Worker) (b : nat) : Prop :=
  match w with
  | Finished => b = 0
  | Suspended _ _ t => within b t
  end.

(* Signals the pool can still take: those of the suspended workers and
   eight for every tile not yet claimed. *)
Definition measure (timelineRaw : list Tile) (p : Pool) (m : nat) : Prop :=
  ∃ bs, Forall2 cost (workers p) bs ∧
        m = sum_list bs + 8 * (length timelineRaw - index (shared p)).

(** ** The handler case by case *)

Definition queryLat (P : Platform) (request : Request) : float :=
  parseFloat P (or_else (searchParams_get request "lat") "0").

Definition queryLng (P : Platform) (request : Request) : float :=
  parseFloat P (or_else (searchParams_get request "lng") "0").

Definition queryZoom (P : Platform) (request : Request) : float :=
  parseInt P (or_else (searchParams_get request "zoom") "15").

Definition queryMode (request : Request) : string :=
  or_else (searchParams_get request "mode") "all".

(* The catalog query the mode selects: its reply and the call it takes. *)
Definition catalogQuery (P : Platform) (request : Request) (world : World)
    : CatalogReply * Call :=
  if String.eqb (queryMode request) "all"
  then (getWaybackItems world, CallGetWaybackItems)
  else (getWaybackItemsWithLocalChanges world
          (queryLat P request) (queryLng P request) (queryZoom P request),
        CallGetWaybackItemsWithLocalChanges
          (queryLat P request) (queryLng P request) (queryZoom P request)).

Definition candidates (P : Platform) (request : Request)
    (waybackItems : list WaybackItem.t) : list Tile :=
  map (materialize P
         (latLngToTile P (queryLat P request) (queryLng P request)
            (queryZoom P request)))
    waybackItems.

Definition rejects (P : Platform) (request : Request) : bool :=
  falsy (queryLat P request) || falsy (queryLng P request).

Definition badRequest : HttpResponse :=
  {| json := ErrorJson "Missing latitude or longitude"; http_status := 400 |}.

Definition serverError : HttpResponse :=
  {| json := ErrorJson "Failed to fetch wayback imagery"; http_status := 500 |}.

Definition success (P : Platform) (request : Request) (p : Pool) : HttpResponse :=
  let uniqueItems := Array_sort chronological (uniqueItems (shared p)) in
  {| json := TimelineJson
       {| Body.location := (queryLat P request, queryLng P request);
          Body.zoom := queryZoom P request;
          Body.tileCoords :=
            latLngToTile P (queryLat P request) (queryLng P request)
              (queryZoom P request);
          Body.count := length uniqueItems;
          Body.timeline := uniqueItems;
          Body.errors := errors (shared p) |};
     http_status := 200 |}.

(** ** A sample request

    The runtime restricted to the values that the request
    [?lat=46.5&lng=7.75] (zoom 15) needs, with the doubles JavaScript
    computes for them, and catalogs of a few snapshots with schedules of
    their downloads. *)

Definition sampleRuntime : Platform :=
  {| parseFloat := fun s =>
       if String.eqb s "0" then 0%float
       else if String.eqb s "46.5" then 46.5%float
       else if String.eqb s "7.75" then 7.75%float
       else nan;
     parseInt := fun s => if String.eqb s "15" then 15%float else nan;
     Math_pow := fun b e =>
       if PrimFloat.eqb b 2 && PrimFloat.eqb e 15 then 32768%float else nan;
     Math_floor := fun v =>
       if PrimFloat.leb 17089 v && PrimFloat.ltb v 17090 then 17089%float
       else if PrimFloat.leb 11591 v && PrimFloat.ltb v 11592 then 11591%float
       else nan;
     Math_log := fun v =>
       if PrimFloat.eqb v 0x1.40d5a40472d64p+1 then 0x1.d679705ff57eep-1%float
       else nan;
     Math_tan := fun v =>
       if PrimFloat.eqb v 0x1.9f872a3e00c76p-1 then 0x1.0dc488c741aafp+0%float
       else nan;
     Math_cos := fun v =>
       if PrimFloat.eqb v 0x1.9f872a3e00c76p-1 then 0x1.607002cd5031dp-1%float
       else nan;
     Number_toString := fun v =>
       if PrimFloat.eqb v 15 then "15"
       else if PrimFloat.eqb v 17089 then "17089"
       else if PrimFloat.eqb v 11591 then "11591"
       else "NaN" |}.

Definition sampleRequest : Request := [("lat", "46.5"); ("lng", "7.75")].

Definition sampleCoords : TileCoords.t :=
  {| TileCoords.x := 17089; TileCoords.y := 11591; TileCoords.z := 15 |}.

Definition snapshot (n : Z) (label : string) (t : Z) : WaybackItem.t :=
  {| WaybackItem.releaseNum := n;
     WaybackItem.releaseDateLabel := label;
     WaybackItem.releaseDatetime := t;
     WaybackItem.itemTitle := "World Imagery (Wayback " +:+ label +:+ ")";
     WaybackItem.itemURL :=
       "https://wayback.example/tile/" +:+ label +:+ "/{level}/{row}/{col}";
     WaybackItem.layerIdentifier := "WB_" +:+ label |}.

Definition sampleTile (n : Z) (label : string) (t : Z) : Tile :=
  materialize sampleRuntime sampleCoords (snapshot n label t).

Definition image (b : bytes) : FetchResult :=
  Resolved {| status := 200; arrayBuffer := Some b |}.

Definition unavailable : FetchResult :=
  Resolved {| status := 503; arrayBuffer := None |}.

Definition sampleWorld (items : list WaybackItem.t) (schedule : list Event)
    : World :=
  {| getWaybackItems := Items items;
     getWaybackItemsWithLocalChanges := fun _ _ _ => Items items;
     schedule := schedule |}.

Definition sampleCatalog : list WaybackItem.t :=
  [ snapshot 10 "2016-06-01" 1464739200000;
    snapshot 20 "2014-02-20" 1392854400000;
    snapshot 30 "2015-09-09" 1441756800000 ].

(* The three downloads answer in the order third, first, second; the second
   is retried once. *)
Definition sampleSchedule : list Event :=
  [ (2, FetchSettled (image ["c"%byte]));
    (0, FetchSettled (image ["a"%byte]));
    (1, FetchSettled unavailable);
    (2, BodySettled);
    (1, TimerFired);
    (0, BodySettled);
    (1, FetchSettled (image ["b"%byte]));
    (1, BodySettled) ].

(* Nine snapshots, one more than the pool of the handler has workers. *)
Definition nineCatalog : list WaybackItem.t :=
  (fun n => snapshot (Z.of_nat n) "2014-02-20" (1392854400000 + Z.of_nat n))
    <$> seq 1 9.

(* The image that the download of a snapshot yields here: one byte, the
   release number. *)
Definition numbered (n : nat) : FetchResult :=
  image [default "000"%byte (Byte.of_nat n)].

(* The fourth download completes first and its worker goes on to the ninth
   tile; then the other downloads complete, worker by worker. *)
Definition nineSchedule : list Event :=
  [ (3, FetchSettled (numbered 4)); (3, BodySettled) ] ++
  flat_map (fun w => [ (w, FetchSettled (numbered (S w))); (w, BodySettled) ])
    [0; 1; 2] ++
  [ (3, FetchSettled (numbered 9)); (3, BodySettled) ] ++
  flat_map (fun w => [ (w, FetchSettled (numbered (S w))); (w, BodySettled) ])
    [4; 5; 6; 7].

(* The pool that a schedule leads to. *)
Definition reached (timelineRaw : list Tile) (concurrency : nat)
    (schedule : list Event) : Pool :=
  default (start timelineRaw concurrency)
    (run timelineRaw (start timelineRaw concurrency) schedule).

Definition brokenCatalog : World :=
  {| getWaybackItems := Throws;
     getWaybackItemsWithLocalChanges := fun _ _ _ => Throws;
     schedule := [] |}.

(* The timeline and the errors of a 200 answer. *)
Definition timelineOf (r : option (HttpResponse * list Call))
    : option (list Tile) :=
  match r with
  | Some ({| json := TimelineJson body |}, _) => Some (Body.timeline body)
  | _ => None
  end.

Definition errorsOf (r : option (HttpResponse * list Call))
    : option (list ErrorEntry) :=
  match r with
  | Some ({| json := TimelineJson body |}, _) => Some (Body.errors body)
  | _ => None
  end.

(* Two snapshots released at the same time; the download of the second
   completes first. *)
Definition tiedCatalog : list WaybackItem.t :=
  [ snapshot 10 "2014-02-20" 1392854400000;
    snapshot 20 "2014-02-27" 1392854400000 ].

Definition tiedSchedule : list Event :=
  [ (1, FetchSettled (image ["b"%byte]));
    (1, BodySettled);
    (0, FetchSettled (image ["a"%byte]));
    (0, BodySettled) ].

(* The same two snapshots and an older one, whose download completes
   last. *)
Definition tiedOlderCatalog : list WaybackItem.t :=
  tiedCatalog ++ [ snapshot 30 "2013-11-05" 1383609600000 ].

Definition tiedOlderSchedule : list Event :=
  tiedSchedule ++ [ (2, FetchSettled (image ["c"%byte])); (2, BodySettled) ].

(* The three downloads one after the other. *)
Definition sequentialSchedule : list Event :=
  [ (0, FetchSettled (image ["a"%byte])); (0, BodySettled);
    (0, FetchSettled (image ["b"%byte])); (0, BodySettled);
    (0, FetchSettled (image ["c"%byte])); (0, BodySettled) ].

(* The downloads of the sample catalog complete in the order third, first,
   second; the second has the bytes of the first. *)
Definition repeatedSchedule : list Event :=
  [ (2, FetchSettled (image ["c"%byte]));
    (0, FetchSettled (image ["a"%byte]));
    (1, FetchSettled (image ["a"%byte]));
    (2, BodySettled);
    (0, BodySettled);
    (1, BodySettled) ].

(* The snapshot of 2014-02-20 cannot be fetched; the two later snapshots
   are fetched and are the same image. *)
Definition unchangedCatalog : list WaybackItem.t :=
  [ snapshot 10 "2014-02-20" 1392854400000;
    snapshot 20 "2015-09-09" 1441756800000;
    snapshot 30 "2016-06-01" 1464739200000 ].

Definition unchangedSchedule : list Event :=
  [ (0, FetchSettled unavailable);
    (1, FetchSettled (image ["x"%byte]));
    (2, FetchSettled (image ["x"%byte]));
    (1, BodySettled);
    (0, TimerFired);
    (2, BodySettled);
    (0, FetchSettled unavailable);
    (0, TimerFired);
    (0, FetchSettled Rejected) ].

(* The snapshot of 2015-09-09 is the image of 2014-02-20 again; its download
   succeeds at the third attempt, after the other has completed. *)
Definition retryCatalog : list WaybackItem.t :=
  [ snapshot 10 "2014-02-20" 1392854400000;
    snapshot 20 "2015-09-09" 1441756800000 ].

Definition retrySchedule : list Event :=
  [ (1, FetchSettled unavailable);
    (0, FetchSettled (image ["x"%byte]));
    (0, BodySettled);
    (1, TimerFired);
    (1, FetchSettled Rejected);
    (1, TimerFired);
    (1, FetchSettled (image ["x"%byte]));
    (1, BodySettled) ].

Definition retriedCompletion : Completion :=
  {| tile := sampleTile 20 "2015-09-09" 1441756800000;
     answers := [unavailable; Rejected; image ["x"%byte]];
     outcome := Some ["x"%byte] |}.

(** ** The tile coordinate over the real numbers and at the edges *)

(* The real number that a finite double is. *)
Definition exact (v : float) : option Q :=
  match Prim2SF v with
  | S754_zero _ => Some 0%Q
  | S754_finite s m e =>
      Some (Qred (inject_Z (if s then Z.neg m else Z.pos m) * Qpower 2 e))
  | _ => None
  end.

(* The column as the specification words it: the floor of the real number
   [2^zoom * (lng + 180) / 360]. *)
Definition xTile_real (lng : Q) (zoom : Z) : Z :=
  Qfloor (Qpower 2 zoom * (lng + 180) / 360).

(* A longitude just west of the prime meridian: -2^-60 degrees. *)
Definition justWest : float := (-0x1p-60)%float.

(* The runtime restricted to the values that the north pole on the
   antimeridian at zoom 3 and the longitude [justWest] at zoom 1 need, with
   the doubles JavaScript computes for them. *)
Definition edgeRuntime : Platform :=
  {| parseFloat := parseFloat sampleRuntime;
     parseInt := parseInt sampleRuntime;
     Math_pow := fun b e =>
       if PrimFloat.eqb b 2 && PrimFloat.eqb e 3 then 8%float
       else if PrimFloat.eqb b 2 && PrimFloat.eqb e 1 then 2%float
       else nan;
     Math_floor := fun v =>
       if PrimFloat.eqb v 8 then 8%float
       else if PrimFloat.eqb v 1 then 1%float
       else if PrimFloat.leb (-45) v && PrimFloat.ltb v (-44) then (-45)%float
       else nan;
     Math_log := fun v =>
       if PrimFloat.eqb v 0x1.d02967c31cdb5p+54 then 0x1.303334f80713cp+5%float
       else nan;
     Math_tan := fun v =>
       if PrimFloat.eqb v 0x1.921fb54442d18p+0 then 0x1.d02967c31cdb5p+53%float
       else nan;
     Math_cos := fun v =>
       if PrimFloat.eqb v 0x1.921fb54442d18p+0 then 0x1.1a62633145c07p-54%float
       else nan;
     Number_toString := Number_toString sampleRuntime |}.

(** ** The retries of a download *)

(* The pauses after the failed attempts [i], [i+1], ..., [n] of them. *)
Definition pauses (delayMs : Z) (i n : nat) : list Z :=
  (fun j => (delayMs * Z.of_nat j)%Z) <$> seq i n.

(* An attempt that yields no bytes. *)
Definition failed (r : FetchResult) : Prop := attempt r = None.

(** ** The pool at its start and with a single worker *)

(* A worker that has just claimed the tile [t]: suspended at the first
   request of its download. *)
Definition claim (t : Tile) : Worker :=
  Suspended t [] (fetchWithRetry (tileUrl t) 3 250).

(* The pool of one worker keeps the order of the list. *)
Definition sequential (timelineRaw : list Tile) (p : Pool) : Prop :=
  ∃ w, workers p = [w] ∧
       index (shared p) ≤ length timelineRaw ∧
       map tile (completed p) ++ holding [w] =
         take (index (shared p)) timelineRaw ∧
       (w = Finished → index (shared p) = length timelineRaw).

(** ** Numbers that [!x] takes for absent *)

Definition is_zero (x : float) : Prop := PrimFloat.eqb x 0 = true.

Definition is_NaN (x : float) : Prop := PrimFloat.eqb x x = false.

(* The answer 200 with this body. *)
Definition answered (body : Body.t) : HttpResponse :=
  {| json := TimelineJson body; http_status := 200 |}.

(** ** The viewer served by the route *)

(* The answer the browser gets from the route for a request. *)
Definition route (P : Platform) (world : World) (request : Request) : Reply :=
  match GET P request world with
  | Some (response, _) => Answer response
  | None => Pending
  end.

(* The state after a load that the route did not answer with success. *)
Definition loadFailed (st : Viewer.t) : Viewer.t :=
  {| Viewer.timeline := Viewer.timeline st;
     Viewer.currentIndex := Viewer.currentIndex st;
     Viewer.loading := false;
     Viewer.error := Some "Failed to fetch satellite imagery";
     Viewer.detections := Viewer.detections st;
     Viewer.autoplayDone := Viewer.autoplayDone st;
     Viewer.analysisSent := Viewer.analysisSent st |}.

(* The state of a viewer that has just been mounted: the initial values of
   [useState] and [useRef]. *)
Definition initialViewer : Viewer.t :=
  {| Viewer.timeline := Some [];
     Viewer.currentIndex := 0;
     Viewer.loading := true;
     Viewer.error := None;
     Viewer.detections := ∅;
     Viewer.autoplayDone := false;
     Viewer.analysisSent := false |}.

(** ** Text without a given character *)

Definition lacks (c0 : ascii) (s : string) : bool :=
  JsString.all_chars (fun c => negb (Ascii.eqb c c0)) s.

(** ** A sample viewer

    The sample runtime extended by the values that the request of the
    viewer for the same place, [?lat=46.5&lng=7.75&zoom=18&mode=all],
    needs. *)

Definition viewerRuntime : Platform :=
  {| parseFloat := parseFloat sampleRuntime;
     parseInt := fun s =>
       if String.eqb s "18" then 18%float else parseInt sampleRuntime s;
     Math_pow := fun b e =>
       if PrimFloat.eqb b 2 && PrimFloat.eqb e 18 then 262144%float
       else Math_pow sampleRuntime b e;
     Math_floor := fun v =>
       if PrimFloat.leb 136715 v && PrimFloat.ltb v 136716 then 136715%float
       else if PrimFloat.leb 92734 v && PrimFloat.ltb v 92735 then 92734%float
       else Math_floor sampleRuntime v;
     Math_log := Math_log sampleRuntime;
     Math_tan := Math_tan sampleRuntime;
     Math_cos := Math_cos sampleRuntime;
     Number_toString := fun v =>
       if PrimFloat.eqb v 0 then "0"
       else if PrimFloat.eqb v 46.5 then "46.5"
       else if PrimFloat.eqb v 7.75 then "7.75"
       else if PrimFloat.eqb v 18 then "18"
       else if PrimFloat.eqb v 136715 then "136715"
       else if PrimFloat.eqb v 92734 then "92734"
       else Number_toString sampleRuntime v |}.

Definition viewerCoords : TileCoords.t :=
  {| TileCoords.x := 136715; TileCoords.y := 92734; TileCoords.z := 18 |}.

Definition viewerTile (n : Z) (label : string) (t : Z) : Tile :=
  materialize viewerRuntime viewerCoords (snapshot n label t).

(** ** What the autoplay hands over *)

(* The point of the chart for an image and the answer of its detection. *)
Definition pointOf (t : Tile) (reply : Detection) : option Point.t :=
  match detected t reply with
  | Some d =>
      Some {| Point.date := releaseDate t;
              Point.count := length (ImageDetections.boxes d) |}
  | None => None
  end.

(* The analysis handed to the callback after the autoplay of a viewer that
   has just loaded its timeline. *)
Definition analysisOf (timeline : list Tile) (replies : nat → Detection)
    (st : Viewer.t) : option (list Point.t) :=
  (sendAnalysis timeline true
     (runDetectionsSequentially timeline replies st)).2.

(** ** A sample autoplay *)

Definition noBoxes : Detection :=
  DetectionJson (Some
    {| DetectionData.error := None;
       DetectionData.width := Some 256%float;
       DetectionData.height := Some 256%float;
       DetectionData.boxes := Some [];
       DetectionData.annotated_image := None |}).

Definition oneBox : Detection :=
  DetectionJson (Some
    {| DetectionData.error := None;
       DetectionData.width := None;
       DetectionData.height := None;
       DetectionData.boxes := Some
         [ {| DetectionBox.x1 := 10; DetectionBox.y1 := 20;
              DetectionBox.x2 := 30; DetectionBox.y2 := 40;
              DetectionBox.cls := Some "car"; DetectionBox.conf := None |} ];
       DetectionData.annotated_image := None |}).

(* The timeline of the sample answer. *)
Definition sampleTimeline : list Tile :=
  [ sampleTile 20 "2014-02-20" 1392854400000;
    sampleTile 30 "2015-09-09" 1441756800000;
    sampleTile 10 "2016-06-01" 1464739200000 ].

(* Every detection answers; the second image has one vehicle. *)
Definition sampleDetections (i : nat) : Detection :=
  if (i =? 1)%nat then oneBox else noBoxes.

(* The detection of the second image fails. *)
Definition brokenDetections (i : nat) : Detection :=
  if (i =? 1)%nat then DetectionThrows else noBoxes.

(** ** The life of the marker list *)

(* What the application does to the markers: the two functions that the
   provider hands out are the only callers of [setMarkers]. *)
Inductive MarkerAction :=
| AddMarker (marker : GlobeMarker.t)
| ClearMarkers.

Definition setMarkers (prev : list GlobeMarker.t) (a : MarkerAction)
    : list GlobeMarker.t :=
  match a with
  | AddMarker marker => addMarker marker prev
  | ClearMarkers => clearMarkers
  end.

(* The markers after a sequence of actions, from [useState([])]. *)
Definition markersAfter (actions : list MarkerAction) : list GlobeMarker.t :=
  fold_left setMarkers actions [].

Definition has_id (k : string) (m : GlobeMarker.t) : Prop :=
  GlobeMarker.id m = k.

#[global] Instance has_id_dec k m : Decision (has_id k m).
Proof. unfold has_id. apply _. Defined.

(* ================================================================== *)
(** * Part III: lemmas *)
(* ================================================================== *)

(** ** Base64 text determines the bytes *)

Section base64_facts.
Import Base64.

Lemma sextets_complete i : (i < 64)%N → In i sextets.
Proof.
  intros Hi. unfold sextets. apply in_map_iff.
  exists (N.to_nat i). split; [lia|]. apply in_seq. lia.
Qed.

Lemma sextet_table : sextet_table_ok = true.
Proof. vm_compute. reflexivity. Qed.

Lemma sextet_not_pad i : (i < 64)%N → sextet i ≠ pad.
Proof.
  intros Hi Heq. pose proof sextet_table as Ht. unfold sextet_table_ok in Ht.
  rewrite forallb_forall in Ht. specialize (Ht i (sextets_complete i Hi)).
  apply andb_prop in Ht as [Ht _]. rewrite Heq in Ht.
  rewrite Ascii.eqb_refl in Ht. discriminate.
Qed.

Lemma sextet_inj i j : (i < 64)%N → (j < 64)%N → sextet i = sextet j → i = j.
Proof.
  intros Hi Hj Heq. pose proof sextet_table as Ht. unfold sextet_table_ok in Ht.
  rewrite forallb_forall in Ht. specialize (Ht i (sextets_complete i Hi)).
  apply andb_prop in Ht as [_ Ht]. rewrite forallb_forall in Ht.
  specialize (Ht j (sextets_complete j Hj)). rewrite Heq, Ascii.eqb_refl in Ht.
  simpl in Ht. by apply N.eqb_eq.
Qed.

Ltac divmod_lia := zify; Z.to_euclidean_division_equations; lia.

Lemma group0_lt a : (a ≤ 255 → group0 a < 64)%N.
Proof. unfold group0. intros. divmod_lia. Qed.

Lemma group1_lt a b : (b ≤ 255 → group1 a b < 64)%N.
Proof. unfold group1. intros. divmod_lia. Qed.

Lemma group2_lt b c : (c ≤ 255 → group2 b c < 64)%N.
Proof. unfold group2. intros. divmod_lia. Qed.

Lemma group3_lt c : (group3 c < 64)%N.
Proof. unfold group3. intros. divmod_lia. Qed.

(* Each octet is recovered from the groups it was spread over. *)
Lemma octet0_of_groups a b :
  (b ≤ 255 → a = 4 * group0 a + group1 a b / 16)%N.
Proof. unfold group0, group1. intros. divmod_lia. Qed.

Lemma octet1_of_groups a b c :
  (b ≤ 255 → c ≤ 255 → b = group1 a b mod 16 * 16 + group2 b c / 4)%N.
Proof. unfold group1, group2. intros. divmod_lia. Qed.

Lemma octet2_of_groups b c :
  (c ≤ 255 → c = group2 b c mod 4 * 64 + group3 c)%N.
Proof. unfold group2, group3. intros. divmod_lia. Qed.

Lemma groups_inj a b c a' b' c' :
  (b ≤ 255 → b' ≤ 255 → c ≤ 255 → c' ≤ 255 →
   group0 a = group0 a' → group1 a b = group1 a' b' →
   group2 b c = group2 b' c' → group3 c = group3 c' →
   a = a' ∧ b = b' ∧ c = c')%N.
Proof.
  intros Hb Hb' Hc Hc' H0 H1 H2 H3.
  rewrite (octet0_of_groups a b Hb), (octet0_of_groups a' b' Hb').
  rewrite (octet1_of_groups a b c Hb Hc) at 2.
  rewrite (octet1_of_groups a' b' c' Hb' Hc') at 2.
  rewrite (octet2_of_groups b c Hc) at 2.
  rewrite (octet2_of_groups b' c' Hc') at 2.
  by rewrite H0, H1, H2, H3.
Qed.

Lemma to_N_inj (a b : byte) : Byte.to_N a = Byte.to_N b → a = b.
Proof.
  intros H. pose proof (Byte.of_to_N a) as Ha. rewrite H, Byte.of_to_N in Ha.
  congruence.
Qed.

Create HintDb b64 discriminated.
#[local] Hint Resolve group0_lt group1_lt group2_lt group3_lt
  Byte.to_N_bounded : b64.
#[local] Hint Extern 1 (0 ≤ 255)%N => done : b64.

Ltac chars_of H :=
  repeat match type of H with
  | String _ _ = String _ _ =>
      let Hc := fresh "Hc" in injection H as Hc H
  end.

Ltac pad_clash :=
  match goal with
  | H : sextet ?i = "="%char |- _ =>
      exfalso; apply (sextet_not_pad i); [auto with b64 | exact H]
  | H : "="%char = sextet ?i |- _ =>
      exfalso; apply (sextet_not_pad i); [auto with b64 | symmetry; exact H]
  end.

Ltac sextet_indices :=
  repeat match goal with
  | H : sextet ?i = sextet ?j |- _ =>
      apply sextet_inj in H; [ | auto with b64 | auto with b64 ]
  end.

Lemma encode_inj l1 : ∀ l2, encode l1 = encode l2 → l1 = l2.
Proof.
  induction l1 as [l1 IH] using (induction_ltof1 _ (@length byte)).
  unfold ltof in IH. intros l2 Heq.
  destruct l1 as [|a1 [|b1 [|c1 r1]]], l2 as [|a2 [|b2 [|c2 r2]]];
    cbn [encode] in Heq; try discriminate; try reflexivity;
    chars_of Heq; try discriminate; try pad_clash; sextet_indices.
  - destruct (groups_inj (to_N a1) 0 0 (to_N a2) 0 0) as (Ha & _);
      auto with b64.
    apply to_N_inj in Ha. by subst.
  - destruct (groups_inj (to_N a1) (to_N b1) 0 (to_N a2) (to_N b2) 0)
      as (Ha & Hb & _); auto with b64.
    apply to_N_inj in Ha, Hb. by subst.
  - destruct (groups_inj (to_N a1) (to_N b1) (to_N c1)
                (to_N a2) (to_N b2) (to_N c2)) as (Ha & Hb & Hc');
      auto with b64.
    apply to_N_inj in Ha, Hb, Hc'. subst.
    do 3 f_equal. apply IH; [simpl; lia | done].
Qed.

End base64_facts.

(** ** Replacing the first occurrence of a placeholder *)

Section replace_facts.
Import JsString.
#[local] Arguments Ascii.eqb : simpl never.

Lemma app_cons c s t : String c s +:+ t = String c (s +:+ t).
Proof. reflexivity. Qed.

Lemma app_empty t : EmptyString +:+ t = t.
Proof. reflexivity. Qed.

Lemma string_app_assoc (a b c : string) : (a +:+ b) +:+ c = a +:+ (b +:+ c).
Proof. induction a as [|x a IH]; [done|]. rewrite !app_cons. by f_equal. Qed.

Lemma string_length_app s t :
  String.length (s +:+ t) = String.length s + String.length t.
Proof.
  induction s as [|c s IH]; [done|]. rewrite app_cons. simpl. by rewrite IH.
Qed.

Lemma replace_unfold pat rep s :
  replace pat rep s =
  if starts_with pat s then rep +:+ skip (String.length pat) s
  else match s with
       | EmptyString => EmptyString
       | String c s' => String c (replace pat rep s')
       end.
Proof. by destruct s. Qed.

Lemma occurrences_unfold pat s :
  occurrences pat s =
  (if starts_with pat s then 1 else 0) +
  match s with
  | EmptyString => 0
  | String _ s' => occurrences pat s'
  end.
Proof. by destruct s. Qed.

Lemma starts_with_split pat s :
  starts_with pat s = true → s = pat +:+ skip (String.length pat) s.
Proof.
  revert s. induction pat as [|a pat IH]; intros [|b s]; simpl; try done.
  intros [Hab Hp]%andb_prop. apply Ascii.eqb_eq in Hab as ->.
  rewrite app_cons. f_equal. by apply IH.
Qed.

Lemma starts_with_self pat t : starts_with pat (pat +:+ t) = true.
Proof.
  induction pat as [|a pat IH]; [done|].
  rewrite app_cons. simpl. by rewrite Ascii.eqb_refl.
Qed.

Lemma starts_with_app pat s t :
  String.length pat ≤ String.length s →
  starts_with pat (s +:+ t) = starts_with pat s.
Proof.
  revert s. induction pat as [|a pat IH]; intros [|b s]; simpl;
    try done; try lia.
  intros H. rewrite IH by lia. done.
Qed.

Lemma skip_app n s t :
  n ≤ String.length s → skip n (s +:+ t) = skip n s +:+ t.
Proof.
  revert s. induction n as [|n IH]; intros [|b s]; simpl; try done; try lia.
  intros H. apply IH. lia.
Qed.

Lemma avoids_brace_free c0 s : avoids c0 s = true → brace_free s = true.
Proof.
  induction s as [|c s IH]; simpl; [done|].
  intros [[H1 _]%andb_prop H2]%andb_prop. unfold brace_free. simpl.
  rewrite H1. by apply IH.
Qed.

Lemma occurrences_skip_plain u t s :
  brace_free s = true →
  occurrences (String "{" u) (s +:+ t) = occurrences (String "{" u) t.
Proof.
  induction s as [|e s IH]; [done|].
  intros Hs. unfold brace_free in Hs. simpl in Hs.
  apply andb_prop in Hs as [He Hs].
  rewrite app_cons, occurrences_unfold.
  apply negb_true_iff in He. unfold is_brace in He.
  cbn [starts_with]. rewrite Ascii.eqb_sym, He. by apply IH.
Qed.

Lemma occurrence_length pat s :
  1 ≤ occurrences pat s → String.length pat ≤ String.length s.
Proof.
  induction s as [|e s IH]; rewrite occurrences_unfold.
  - destruct pat; simpl; lia.
  - destruct (starts_with pat (String e s)) eqn:Hp.
    + intros _. apply starts_with_split in Hp. rewrite Hp.
      rewrite string_length_app. lia.
    + simpl. intros H. apply IH in H. lia.
Qed.

(* Text after the first occurrence is copied unchanged. *)
Lemma replace_app pat rep s t :
  1 ≤ occurrences pat s → replace pat rep (s +:+ t) = replace pat rep s +:+ t.
Proof.
  induction s as [|e s IH]; intros Hocc.
  - apply occurrence_length in Hocc. destruct pat; simpl in Hocc; [|lia].
    rewrite app_empty, !replace_unfold. cbn [starts_with String.length skip].
    by rewrite string_app_assoc.
  - pose proof (occurrence_length _ _ Hocc) as Hlen.
    rewrite (replace_unfold pat rep (String e s +:+ t)), starts_with_app by done.
    rewrite (replace_unfold pat rep (String e s)).
    destruct (starts_with pat (String e s)) eqn:Hp.
    + rewrite skip_app by done. by rewrite string_app_assoc.
    + rewrite !app_cons. f_equal. apply IH.
      rewrite occurrences_unfold, Hp in Hocc. simpl in Hocc. done.
Qed.

Section one_replacement.
(* The pattern is an opening brace followed by [w]; the replacement starts
   with [c0] and goes on with [r'], neither with an opening brace. *)
Variables (w : string) (c0 : ascii) (r' : string).
Hypothesis c0_plain : is_brace c0 = false.
Hypothesis r'_plain : brace_free r' = true.

#[local] Abbreviation pat := (String "{" w).
#[local] Abbreviation rep := (String c0 r').

Lemma starts_with_replace v s :
  avoids c0 v = true →
  starts_with v (replace pat rep s) = starts_with v s.
Proof using c0_plain.
  revert v. induction s as [|e s IH]; intros v Hv.
  - rewrite replace_unfold. by destruct v.
  - rewrite replace_unfold.
    destruct (starts_with pat (String e s)) eqn:Hp.
    + destruct v as [|d v]; [done|].
      simpl in Hv. apply andb_prop in Hv as [[Hd1 Hd2]%andb_prop _].
      simpl in Hp. apply andb_prop in Hp as [He _].
      apply Ascii.eqb_eq in He as <-.
      rewrite app_cons. simpl.
      apply negb_true_iff in Hd1, Hd2. unfold is_brace in Hd1.
      by rewrite Hd1, Hd2.
    + destruct v as [|d v]; [done|]. simpl.
      simpl in Hv. apply andb_prop in Hv as [_ Hv].
      by rewrite IH.
Qed.

Lemma rep_plain : brace_free rep = true.
Proof using c0_plain r'_plain.
  unfold brace_free. simpl. rewrite c0_plain. exact r'_plain.
Qed.

(* Occurrences of another placeholder are left alone. *)
Lemma occurrences_replace_other u s :
  avoids c0 u = true →
  brace_free w = true →
  (∀ t, starts_with (String "{" u) (pat +:+ t) = false) →
  occurrences (String "{" u) (replace pat rep s) = occurrences (String "{" u) s.
Proof using c0_plain r'_plain.
  intros Hu Hw Hclash. induction s as [|e s IH].
  - rewrite replace_unfold. by destruct w.
  - rewrite replace_unfold.
    destruct (starts_with pat (String e s)) eqn:Hp.
    + apply starts_with_split in Hp. rewrite Hp at 2.
      rewrite occurrences_skip_plain by apply rep_plain.
      rewrite (occurrences_unfold _ (pat +:+ _)), Hclash.
      rewrite app_cons, occurrences_skip_plain by done.
      done.
    + rewrite (occurrences_unfold _ (String e (replace _ _ _))).
      rewrite (occurrences_unfold _ (String e s)). rewrite IH.
      f_equal. simpl. by rewrite starts_with_replace.
Qed.

(* Exactly one occurrence of the pattern itself disappears. *)
Lemma occurrences_replace_same s :
  avoids c0 w = true →
  occurrences pat (replace pat rep s) = pred (occurrences pat s).
Proof using c0_plain r'_plain.
  intros Hw. induction s as [|e s IH].
  - rewrite replace_unfold. by destruct w.
  - rewrite replace_unfold.
    destruct (starts_with pat (String e s)) eqn:Hp.
    + pose proof Hp as Hp'. apply starts_with_split in Hp'. rewrite Hp' at 2.
      rewrite occurrences_skip_plain by apply rep_plain.
      rewrite (occurrences_unfold _ (pat +:+ _)), starts_with_self.
      rewrite app_cons, occurrences_skip_plain; [done|].
      by eapply avoids_brace_free.
    + rewrite (occurrences_unfold _ (String e (replace _ _ _))).
      rewrite (occurrences_unfold _ (String e s)), Hp, IH.
      cbn [starts_with] in Hp |- *.
      rewrite starts_with_replace by done.
      by rewrite Hp.
Qed.
End one_replacement.

End replace_facts.

(** ** The resolved tile URL *)

Section template_facts.
Import JsString.

(* A printed number starts with a character that no placeholder contains. *)
Lemma number_text_shape r :
  number_text r = true →
  ∃ c0 r', r = String c0 r' ∧ is_brace c0 = false ∧ brace_free r' = true ∧
    avoids c0 "level}" = true ∧ avoids c0 "row}" = true ∧
    avoids c0 "col}" = true.
Proof.
  destruct r as [|c0 r']; [done|]. simpl.
  intros [Hc Hr]%andb_prop. exists c0, r'. split; [done|].
  assert (brace_free r' = true) as Hbf.
  { clear Hc. induction r' as [|d r' IH]; [done|]. simpl in Hr.
    apply andb_prop in Hr as [[Hd _]%andb_prop Hr].
    unfold brace_free. simpl. rewrite Hd. by apply IH. }
  unfold leads_number in Hc. apply existsb_exists in Hc as (d & Hd & Heq).
  apply Ascii.eqb_eq in Heq as ->.
  simpl in Hd. repeat (destruct Hd as [<- | Hd]; [by repeat split|]). done.
Qed.

Lemma occurrences_resolveTemplate itemURL level row col p :
  number_text level = true → number_text row = true →
  number_text col = true → p ∈ placeholders →
  occurrences p (resolveTemplate itemURL level row col) =
  pred (occurrences p itemURL).
Proof.
  intros (cz & rz & -> & Hz & Hrz & Hz1 & Hz2 & Hz3)%number_text_shape.
  intros (cy & ry & -> & Hy & Hry & Hy1 & Hy2 & Hy3)%number_text_shape.
  intros (cx & rx & -> & Hx & Hrx & Hx1 & Hx2 & Hx3)%number_text_shape.
  unfold placeholders, resolveTemplate. intros Hp.
  repeat (apply elem_of_cons in Hp as [-> | Hp]); [ | | | by inversion Hp].
  - rewrite (occurrences_replace_other "col}" cx rx) by done.
    rewrite (occurrences_replace_other "row}" cy ry) by done.
    by rewrite (occurrences_replace_same "level}" cz rz).
  - rewrite (occurrences_replace_other "col}" cx rx) by done.
    rewrite (occurrences_replace_same "row}" cy ry) by done.
    by rewrite (occurrences_replace_other "level}" cz rz).
  - rewrite (occurrences_replace_same "col}" cx rx) by done.
    rewrite (occurrences_replace_other "row}" cy ry) by done.
    by rewrite (occurrences_replace_other "level}" cz rz).
Qed.

Lemma resolveTemplate_app itemURL rest level row col :
  number_text level = true → number_text row = true →
  number_text col = true →
  (∀ p, p ∈ placeholders → 1 ≤ occurrences p itemURL) →
  resolveTemplate (itemURL +:+ rest) level row col =
  resolveTemplate itemURL level row col +:+ rest.
Proof.
  intros (cz & rz & -> & Hz & Hrz & Hz1 & Hz2 & Hz3)%number_text_shape.
  intros (cy & ry & -> & Hy & Hry & Hy1 & Hy2 & Hy3)%number_text_shape.
  intros (cx & rx & -> & Hx & Hrx & Hx1 & Hx2 & Hx3)%number_text_shape.
  intros Hocc. unfold resolveTemplate.
  assert (1 ≤ occurrences "{level}" itemURL) as Hl
    by (apply Hocc; unfold placeholders; set_solver).
  assert (1 ≤ occurrences "{row}" itemURL) as Hr
    by (apply Hocc; unfold placeholders; set_solver).
  assert (1 ≤ occurrences "{col}" itemURL) as Hc
    by (apply Hocc; unfold placeholders; set_solver).
  rewrite (replace_app "{level}") by done.
  rewrite (replace_app "{row}").
  2:{ by rewrite (occurrences_replace_other "level}" cz rz). }
  rewrite (replace_app "{col}"); [done|].
  rewrite (occurrences_replace_other "row}" cy ry) by done.
  by rewrite (occurrences_replace_other "level}" cz rz).
Qed.

End template_facts.

(** ** The three replacements amount to one pass *)

Section substitution_facts.
Import JsString.
#[local] Arguments Ascii.eqb : simpl never.

Lemma replace_past_plain u r y t :
  brace_free y = true →
  replace (String "{" u) r (y +:+ t) = y +:+ replace (String "{" u) r t.
Proof.
  induction y as [|e y IH]; [done|].
  intros Hy. unfold brace_free in Hy. simpl in Hy.
  apply andb_prop in Hy as [He Hy].
  apply negb_true_iff in He. unfold is_brace in He.
  rewrite !app_cons, replace_unfold. cbn [starts_with].
  rewrite Ascii.eqb_sym, He. simpl. f_equal. by apply IH.
Qed.

Lemma replace_past_placeholder u w r t :
  brace_free w = true →
  starts_with (String "{" u) (String "{" w +:+ t) = false →
  replace (String "{" u) r (String "{" w +:+ t) =
  String "{" w +:+ replace (String "{" u) r t.
Proof.
  intros Hw Hclash. rewrite replace_unfold, Hclash, !app_cons.
  f_equal. by apply replace_past_plain.
Qed.

Lemma number_text_brace_free r : number_text r = true → brace_free r = true.
Proof.
  intros (c0 & r' & -> & Hc & Hr & _)%number_text_shape.
  unfold brace_free. simpl. by rewrite Hc.
Qed.

Lemma replace_opt_past_plain u r y t :
  brace_free y = true →
  replace_opt (String "{" u) r (y +:+ t) = y +:+ replace_opt (String "{" u) r t.
Proof. destruct r; [apply replace_past_plain | done]. Qed.

Lemma replace_opt_past_placeholder u w r t :
  brace_free w = true →
  (∀ t, starts_with (String "{" u) (String "{" w +:+ t) = false) →
  replace_opt (String "{" u) r (String "{" w +:+ t) =
  String "{" w +:+ replace_opt (String "{" u) r t.
Proof. intros Hw Hc. destruct r; [by apply replace_past_placeholder | done]. Qed.

Lemma replace_hit pat r t : replace pat r (pat +:+ t) = r +:+ t.
Proof.
  rewrite replace_unfold, starts_with_self. f_equal.
  induction pat as [|a pat IH]; [done|]. by rewrite app_cons.
Qed.

(* Replacing one placeholder does not change where the others start. *)
Lemma starts_with_replace_opt w r v c s :
  printed r →
  v = "level}" ∨ v = "row}" ∨ v = "col}" →
  starts_with (String "{" v) (String c (replace_opt (String "{" w) r s)) =
  starts_with (String "{" v) (String c s).
Proof.
  destruct r as [r|]; [|done]. simpl.
  intros (c0 & r' & -> & Hc & Hr & Hl & Hw & Hcl)%number_text_shape Hv.
  f_equal. apply starts_with_replace; [done|].
  by destruct Hv as [-> | [-> | ->]].
Qed.

Lemma replace_opt_copy w r c s :
  (r ≠ None → starts_with (String "{" w) (String c s) = false) →
  replace_opt (String "{" w) r (String c s) =
  String c (replace_opt (String "{" w) r s).
Proof.
  destruct r as [r|]; [|done]. intros H. cbn [replace_opt].
  by rewrite replace_unfold, H.
Qed.

Lemma resolve_opt_copy level row col c s :
  printed level → printed row → printed col →
  (level ≠ None → starts_with "{level}" (String c s) = false) →
  (row ≠ None → starts_with "{row}" (String c s) = false) →
  (col ≠ None → starts_with "{col}" (String c s) = false) →
  resolve_opt level row col (String c s) =
  String c (resolve_opt level row col s).
Proof.
  intros Pl Pr Pc Hl Hr Hc. unfold resolve_opt.
  rewrite (replace_opt_copy "level}") by done.
  rewrite (replace_opt_copy "row}").
  2:{ intros Hrow. rewrite starts_with_replace_opt by auto. auto. }
  rewrite (replace_opt_copy "col}"); [done|].
  intros Hcol. rewrite !starts_with_replace_opt by auto. auto.
Qed.

Lemma resolve_opt_level z row col t :
  printed (Some z) → printed row → printed col →
  resolve_opt (Some z) row col ("{level}" +:+ t) =
  z +:+ resolve_opt None row col t.
Proof.
  intros Pz%number_text_brace_free Pr Pc. unfold resolve_opt.
  cbn [replace_opt]. rewrite replace_hit.
  by rewrite !replace_opt_past_plain.
Qed.

Lemma resolve_opt_row level y col t :
  printed level → printed (Some y) → printed col →
  resolve_opt level (Some y) col ("{row}" +:+ t) =
  y +:+ resolve_opt level None col t.
Proof.
  intros Pl Py%number_text_brace_free Pc. unfold resolve_opt.
  rewrite (replace_opt_past_placeholder "level}" "row}") by done.
  cbn [replace_opt]. rewrite replace_hit.
  by rewrite replace_opt_past_plain.
Qed.

Lemma resolve_opt_col level row x t :
  printed level → printed row → printed (Some x) →
  resolve_opt level row (Some x) ("{col}" +:+ t) =
  x +:+ resolve_opt level row None t.
Proof.
  intros Pl Pr Px. unfold resolve_opt.
  rewrite (replace_opt_past_placeholder "level}" "col}") by done.
  rewrite (replace_opt_past_placeholder "row}" "col}") by done.
  cbn [replace_opt]. by rewrite replace_hit.
Qed.

Lemma substitute_first_skip w level row col t :
  substitute_first (String.length w) level row col (w +:+ t) =
  substitute_first 0 level row col t.
Proof. induction w as [|e w IH]; [done|]. by rewrite app_cons. Qed.

Lemma resolve_opt_substitute_first n : ∀ s level row col,
  String.length s ≤ n →
  printed level → printed row → printed col →
  resolve_opt level row col s = substitute_first 0 level row col s.
Proof.
  induction n as [|n IH]; intros s level row col Hlen Pl Pr Pc.
  { destruct s; [|simpl in Hlen; lia]. by destruct level, row, col. }
  destruct s as [|c s]; [by destruct level, row, col|].
  simpl in Hlen.
  assert (∀ p t, String c s = p +:+ t → 1 ≤ String.length p →
            String.length t ≤ n) as Hshorter.
  { intros p t Heq Hp. apply (f_equal String.length) in Heq.
    rewrite string_length_app in Heq. simpl in Heq. lia. }
  cbn [substitute_first].
  destruct (starts_with "{level}" (String c s)) eqn:Hl.
  { destruct level as [z|].
    - apply starts_with_split in Hl.
      set (t := skip (String.length "{level}") (String c s)) in *.
      assert (s = "level}" +:+ t) as Hs by (by inversion Hl).
      rewrite Hl. rewrite (resolve_opt_level z row col t Pl Pr Pc).
      rewrite Hs, (substitute_first_skip "level}").
      f_equal. apply IH; try done.
      apply (Hshorter "{level}" t Hl). simpl. lia.
    - rewrite resolve_opt_copy; try done.
      + f_equal. apply IH; try done; lia.
      + intros _. apply starts_with_split in Hl. rewrite Hl. reflexivity.
      + intros _. apply starts_with_split in Hl. rewrite Hl. reflexivity. }
  destruct (starts_with "{row}" (String c s)) eqn:Hr.
  { destruct row as [y|].
    - apply starts_with_split in Hr.
      set (t := skip (String.length "{row}") (String c s)) in *.
      assert (s = "row}" +:+ t) as Hs by (by inversion Hr).
      rewrite Hr. rewrite (resolve_opt_row level y col t Pl Pr Pc).
      rewrite Hs, (substitute_first_skip "row}").
      f_equal. apply IH; try done.
      apply (Hshorter "{row}" t Hr). simpl. lia.
    - rewrite resolve_opt_copy; try done.
      + f_equal. apply IH; try done; lia.
      + intros _. apply starts_with_split in Hr. rewrite Hr. reflexivity. }
  destruct (starts_with "{col}" (String c s)) eqn:Hc.
  { destruct col as [x|].
    - apply starts_with_split in Hc.
      set (t := skip (String.length "{col}") (String c s)) in *.
      assert (s = "col}" +:+ t) as Hs by (by inversion Hc).
      rewrite Hc. rewrite (resolve_opt_col level row x t Pl Pr Pc).
      rewrite Hs, (substitute_first_skip "col}").
      f_equal. apply IH; try done.
      apply (Hshorter "{col}" t Hc). simpl. lia.
    - rewrite resolve_opt_copy; try done.
      f_equal. apply IH; try done; lia. }
  rewrite resolve_opt_copy; try done.
  f_equal. apply IH; try done; lia.
Qed.

Lemma resolveTemplate_substitute_first itemURL level row col :
  number_text level = true → number_text row = true →
  number_text col = true →
  resolveTemplate itemURL level row col =
  substitute_first 0 (Some level) (Some row) (Some col) itemURL.
Proof.
  intros Hl Hr Hc.
  by apply (resolve_opt_substitute_first (String.length itemURL) itemURL
              (Some level) (Some row) (Some col)).
Qed.
End substitution_facts.

(** ** The chronological sort *)

Lemma insert_Permutation {A} (f : A → A → option Z) a l :
  Permutation (insert f a l) (a :: l).
Proof.
  induction l as [|b l IH]; simpl; [done|].
  destruct (SortCompare f a b <=? 0)%Z; [done|].
  rewrite IH. apply perm_swap.
Qed.

Lemma Array_sort_Permutation {A} (f : A → A → option Z) l :
  Permutation (Array_sort f l) l.
Proof.
  induction l as [|a l IH]; simpl; [done|].
  rewrite insert_Permutation. by constructor.
Qed.

Lemma Date_getTime_Some t u : Date_getTime t = Some u → u = t.
Proof. unfold Date_getTime. by case_match; intros [= <-]. Qed.

Lemma Date_getTime_range t :
  is_Some (Date_getTime t) ↔ (- Date_max ≤ t ≤ Date_max)%Z.
Proof.
  unfold Date_getTime.
  destruct (Z.leb_spec (Z.abs t) Date_max) as [H|H]; split.
  - lia.
  - by eexists.
  - by intros [? ?].
  - lia.
Qed.

(* On release dates that [Date] can hold the comparator is the difference of
   the timestamps. *)
Lemma chronological_dated a b :
  dated a → dated b →
  SortCompare chronological a b = (releaseDatetime a - releaseDatetime b)%Z.
Proof.
  unfold dated, SortCompare, chronological. intros [ta Ha] [tb Hb].
  rewrite Ha, Hb.
  by rewrite (Date_getTime_Some _ _ Ha), (Date_getTime_Some _ _ Hb).
Qed.

(* When the comparator puts [a] behind [b], both have a date and that of [b]
   is the earlier one. *)
Lemma chronological_after a b :
  (SortCompare chronological a b <=? 0)%Z = false →
  (releaseDatetime b < releaseDatetime a)%Z.
Proof.
  unfold SortCompare, chronological. intros H.
  destruct (Date_getTime (releaseDatetime a)) as [ta|] eqn:Ha; [|done].
  destruct (Date_getTime (releaseDatetime b)) as [tb|] eqn:Hb; [|done].
  apply Date_getTime_Some in Ha, Hb. lia.
Qed.

Lemma insert_chronological_HdRel a b l :
  earlier b a → HdRel earlier b l → HdRel earlier b (insert chronological a l).
Proof.
  intros Hba Hl. destruct l as [|c l]; simpl.
  - by constructor.
  - inversion Hl; subst.
    destruct (SortCompare chronological a c <=? 0)%Z; by constructor.
Qed.

Lemma insert_chronological_Sorted a l :
  dated a → Forall dated l →
  Sorted earlier l → Sorted earlier (insert chronological a l).
Proof.
  intros Ha. induction l as [|b l IH]; intros Hd Hl; simpl.
  - by repeat constructor.
  - inversion Hl as [|? ? Hs Hh]; subst.
    apply Forall_cons in Hd as [Hb Hd].
    destruct (SortCompare chronological a b <=? 0)%Z eqn:Hab.
    + constructor; [done|]. constructor.
      rewrite chronological_dated in Hab by done. unfold earlier. lia.
    + constructor; [by apply IH|].
      apply insert_chronological_HdRel; [|done].
      apply chronological_after in Hab. unfold earlier. lia.
Qed.

(* With release dates that [Date] can hold the sort yields ascending
   timestamps. *)
Lemma Array_sort_chronological_Sorted l :
  Forall dated l → Sorted earlier (Array_sort chronological l).
Proof.
  induction l as [|a l IH]; intros Hd; simpl; [constructor|].
  apply Forall_cons in Hd as [Ha Hd].
  apply insert_chronological_Sorted; [done| |by apply IH].
  by rewrite Array_sort_Permutation.
Qed.

(* The sort is stable: items released at the same time keep their order. *)
Lemma insert_chronological_stable k a l :
  filter (released_at k) (insert chronological a l) =
  filter (released_at k) (a :: l).
Proof.
  induction l as [|b l IH]; simpl; [done|].
  destruct (SortCompare chronological a b <=? 0)%Z eqn:Hab; [done|].
  rewrite filter_cons, IH, !filter_cons.
  apply chronological_after in Hab.
  repeat case_decide; try done.
  unfold released_at in *. lia.
Qed.

Lemma Array_sort_chronological_stable k l :
  filter (released_at k) (Array_sort chronological l) =
  filter (released_at k) l.
Proof.
  induction l as [|a l IH]; simpl; [done|].
  by rewrite insert_chronological_stable, !filter_cons, IH.
Qed.

(** ** [fetchWithRetry] on its own *)

Lemma replay_app {R} (t : Task R) rs1 rs2 :
  replay t (rs1 ++ rs2) = replay (replay t rs1) rs2.
Proof.
  revert rs1. induction t as [r|u k IH|resp k IH|ms k IH]; intros rs1; simpl.
  - done.
  - destruct rs1 as [|r rs1]; simpl; [done|]. apply IH.
  - apply IH.
  - apply IH.
Qed.

(* The default retry: the first attempt that yields bytes decides. *)
Lemma fetchWithRetry_result target r1 r2 r3 rs :
  replay (fetchWithRetry target 3 250) (r1 :: r2 :: r3 :: rs) =
  Return (match attempt r1 with
          | Some b => Some b
          | None =>
              match attempt r2 with
              | Some b => Some b
              | None => attempt r3
              end
          end).
Proof.
  unfold fetchWithRetry, attempt.
  destruct r1 as [|[s1 [b1|]]], r2 as [|[s2 [b2|]]], r3 as [|[s3 [b3|]]];
    simpl; repeat first [done | case_match; simpl].
Qed.

(* Whatever the network answers: at most three requests, and the pauses
   between them are 250 ms, then 500 ms. *)
Lemma fetchWithRetry_effects target rs :
  let es := effects (fetchWithRetry target 3 250) rs in
  fetched es `prefix_of` [target; target; target] ∧
  waits es `prefix_of` [250; 500]%Z ∧
  length (waits es) = pred (length (fetched es)).
Proof.
  unfold fetchWithRetry.
  destruct rs as [|[|[s1 [b1|]]] [|[|[s2 [b2|]]] [|[|[s3 [b3|]]] rs]]];
    simpl; repeat first
      [ by (split_and!; [eexists; reflexivity | eexists; reflexivity | done])
      | case_match; simpl ].
Qed.

(** ** Keeping the first tile of every content *)

Lemma keep_first_from_snoc seen l t b :
  keep_first_from seen (l ++ [(t, b)]) =
  keep_first_from seen l ++
  (if decide (b ∈ seen ++ l.*2) then [] else [(t, b)]).
Proof.
  revert seen. induction l as [|[t0 b0] l IH]; intros seen; simpl.
  - rewrite app_nil_r. by destruct (decide (b ∈ seen)).
  - destruct (decide (b0 ∈ seen)) as [Hin|Hout]; rewrite IH.
    + f_equal. apply decide_ext.
      repeat (rewrite elem_of_app || rewrite elem_of_cons).
      split; [tauto|]. intros [?|[->|?]]; tauto.
    + simpl. do 2 f_equal. apply decide_ext.
      repeat (rewrite elem_of_app || rewrite elem_of_cons). tauto.
Qed.

Lemma keep_first_snoc l t b :
  keep_first (l ++ [(t, b)]) =
  keep_first l ++ (if decide (b ∈ l.*2) then [] else [(t, b)]).
Proof. apply keep_first_from_snoc. Qed.

(* Every kept entry is new with respect to [seen] and to the entries kept
   before it. *)
Lemma keep_first_from_fresh seen l t b :
  (t, b) ∈ keep_first_from seen l → b ∉ seen.
Proof.
  revert seen. induction l as [|[t0 b0] l IH]; intros seen; simpl.
  - by intros ?%elem_of_nil.
  - destruct (decide (b0 ∈ seen)) as [Hin|Hout].
    + apply IH.
    + intros [Heq | Hin]%elem_of_cons.
      * by inversion Heq; subst.
      * apply IH in Hin. set_solver.
Qed.

Lemma keep_first_from_NoDup seen l : NoDup (keep_first_from seen l).*2.
Proof.
  revert seen. induction l as [|[t0 b0] l IH]; intros seen; simpl.
  - constructor.
  - destruct (decide (b0 ∈ seen)); [apply IH|].
    simpl. constructor; [|apply IH].
    intros ((t & b) & -> & Hin)%list_elem_of_fmap. simpl in Hin.
    apply keep_first_from_fresh in Hin. set_solver.
Qed.

Lemma keep_first_from_contents seen l b :
  b ∈ l.*2 → b ∈ seen ∨ b ∈ (keep_first_from seen l).*2.
Proof.
  revert seen. induction l as [|[t0 b0] l IH]; intros seen; simpl.
  - by intros ?%elem_of_nil.
  - intros [-> | Hin]%elem_of_cons.
    + destruct (decide (b0 ∈ seen)); [by left|]. right. simpl. set_solver.
    + destruct (decide (b0 ∈ seen)); [by apply IH|].
      destruct (IH (b0 :: seen) Hin) as [Hs|Hk]; simpl; set_solver.
Qed.

Lemma keep_first_from_sublist seen l : keep_first_from seen l `sublist_of` l.
Proof.
  revert seen. induction l as [|[t0 b0] l IH]; intros seen; simpl; [done|].
  destruct (decide (b0 ∈ seen)).
  - by apply sublist_cons.
  - by apply sublist_skip.
Qed.

(** ** Invariants of the worker pool *)

Lemma worker_spec timelineRaw s :
  index s ≤ length timelineRaw →
  let '(s', w) := worker timelineRaw s in
  uniqueImageHashes s' = uniqueImageHashes s ∧
  uniqueItems s' = uniqueItems s ∧
  errors s' = errors s ∧
  index s' ≤ length timelineRaw ∧
  take (index s') timelineRaw = take (index s) timelineRaw ++ holding [w] ∧
  worker_ok w ∧
  (w = Finished → index s' = length timelineRaw) ∧
  index s ≤ index s'.
Proof.
  intros Hle. unfold worker.
  destruct (timelineRaw !! index s) as [current|] eqn:Hcur; simpl.
  - apply lookup_lt_Some in Hcur as Hlt.
    split_and!; try done; try lia.
    by rewrite (take_S_r _ _ _ Hcur).
  - apply lookup_ge_None in Hcur.
    split_and!; try done; [by rewrite app_nil_r | lia].
Qed.

Lemma spawn_spec timelineRaw concurrency s :
  index s ≤ length timelineRaw →
  let '(s', ws) := spawn timelineRaw concurrency s in
  uniqueImageHashes s' = uniqueImageHashes s ∧
  uniqueItems s' = uniqueItems s ∧
  errors s' = errors s ∧
  index s' ≤ length timelineRaw ∧
  take (index s') timelineRaw = take (index s) timelineRaw ++ holding ws ∧
  Forall worker_ok ws ∧
  length ws = concurrency ∧
  (Finished ∈ ws → index s' = length timelineRaw) ∧
  index s ≤ index s'.
Proof.
  revert s. induction concurrency as [|n IH]; intros s Hle; simpl.
  - split_and!; try done; [by rewrite app_nil_r | by intros ?%elem_of_nil].
  - pose proof (worker_spec timelineRaw s Hle) as Hw.
    destruct (worker timelineRaw s) as [s1 w].
    destruct Hw as (Hh1 & Hu1 & He1 & Hi1 & Ht1 & Hok1 & Hf1 & Hm1).
    specialize (IH s1 Hi1).
    destruct (spawn timelineRaw n s1) as [s2 ws].
    destruct IH as (Hh2 & Hu2 & He2 & Hi2 & Ht2 & Hok2 & Hl2 & Hf2 & Hm2).
    split_and!; try congruence; try lia.
    + rewrite Ht2, Ht1, <- app_assoc. f_equal.
      unfold holding. by rewrite <- omap_app.
    + by constructor.
    + simpl. by rewrite Hl2.
    + intros [<- | Hin]%elem_of_cons; [|by apply Hf2].
      specialize (Hf1 eq_refl). lia.
Qed.

Lemma invariant_start timelineRaw concurrency :
  invariant timelineRaw concurrency (start timelineRaw concurrency).
Proof.
  unfold start.
  pose proof (spawn_spec timelineRaw concurrency
    {| index := 0; uniqueImageHashes := ∅; uniqueItems := []; errors := [] |})
    as Hs.
  destruct (spawn _ _ _) as [s ws]. simpl in Hs.
  destruct Hs as (Hh & Hu & He & Hi & Ht & Hok & Hl & Hf & _); [lia|].
  split; simpl; try done.
  by rewrite Ht.
Qed.

Lemma successes_snoc log c :
  successes (log ++ [c]) =
  successes log ++
  match outcome c with Some b => [(tile c, b)] | None => [] end.
Proof. unfold successes. rewrite omap_app. simpl. by destruct (outcome c). Qed.

Lemma failures_snoc log c :
  failures (log ++ [c]) =
  failures log ++ match outcome c with Some _ => [] | None => [tile c] end.
Proof. unfold failures. rewrite omap_app. simpl. by destruct (outcome c). Qed.

Lemma settle_spec s log current received buf :
  uniqueItems s = (keep_first (successes log)).*1 →
  uniqueImageHashes s = list_to_set (Base64.encode <$> (successes log).*2) →
  errors s = fetch_failed <$> failures log →
  let s' := settle current buf s in
  let log' :=
    log ++ [ {| tile := current; answers := received; outcome := buf |} ] in
  index s' = index s ∧
  uniqueItems s' = (keep_first (successes log')).*1 ∧
  uniqueImageHashes s' =
    list_to_set (Base64.encode <$> (successes log').*2) ∧
  errors s' = fetch_failed <$> failures log'.
Proof.
  intros Hitems Hhashes Herrors. simpl.
  rewrite successes_snoc, failures_snoc. simpl.
  destruct buf as [b|]; simpl.
  - rewrite app_nil_r, keep_first_snoc, !fmap_app, list_to_set_app_L. simpl.
    destruct (decide (Base64.encode b ∈ uniqueImageHashes s)) as [Hin|Hout].
    + assert (b ∈ (successes log).*2) as Hb.
      { rewrite Hhashes, elem_of_list_to_set in Hin.
        apply list_elem_of_fmap in Hin as (b' & Heq & Hb').
        by apply encode_inj in Heq as ->. }
      rewrite decide_True by done. simpl. rewrite app_nil_r.
      split_and!; try done. rewrite <- Hhashes. set_solver.
    + assert (b ∉ (successes log).*2) as Hb.
      { intros Hb. apply Hout. rewrite Hhashes, elem_of_list_to_set.
        apply list_elem_of_fmap. by exists b. }
      rewrite decide_False by done. simpl.
      split_and!; try done; [by rewrite Hitems | rewrite <- Hhashes; set_solver].
  - rewrite !app_nil_r, fmap_app. simpl. split_and!; try done.
    by rewrite Herrors.
Qed.

Lemma unused_nil {R} (t : Task R) : unused t [] = [].
Proof. induction t; simpl; done. Qed.

Lemma unused_app_fetch {R} (t : Task R) rs1 rs2 u k :
  replay t rs1 = AwaitFetch u k →
  unused t (rs1 ++ rs2) = unused (AwaitFetch u k) rs2.
Proof.
  revert rs1. induction t as [r|u' k' IH|resp k' IH|ms k' IH]; intros rs1;
    simpl.
  - done.
  - destruct rs1 as [|r rs1]; simpl.
    + by intros [= -> ->].
    + apply IH.
  - apply IH.
  - apply IH.
Qed.

Lemma advance_replay t0 t received sig t' received' :
  advance t received sig = Some (t', received') →
  replay t0 received = replay t [] →
  unused t0 received = [] →
  replay t0 received' = replay t' [] ∧ unused t0 received' = [].
Proof.
  intros Hadv Hrep Hun.
  destruct t as [b|u k|resp k|ms k], sig as [r| |]; simpl in Hadv;
    try done; inversion Hadv; subst; clear Hadv.
  - split; [by rewrite replay_app, Hrep|].
    simpl in Hrep. rewrite (unused_app_fetch _ _ _ _ _ Hrep). simpl.
    apply unused_nil.
  - by rewrite Hrep.
  - by rewrite Hrep.
Qed.

Lemma holding_app ws1 ws2 : holding (ws1 ++ ws2) = holding ws1 ++ holding ws2.
Proof. apply omap_app. Qed.

Lemma elem_of_list_insert {A} (l : list A) i x y :
  x ∈ <[i:=y]> l → x = y ∨ x ∈ l.
Proof.
  destruct (decide (i < length l)) as [Hlt|Hge].
  - rewrite insert_take_drop by done.
    rewrite elem_of_app, elem_of_cons.
    intros [Hin | [-> | Hin]]; [right | by left | right].
    + eapply elem_of_sublist; [done | apply sublist_take].
    + eapply elem_of_sublist; [done | apply sublist_drop].
  - rewrite list_insert_ge by lia. by right.
Qed.

Lemma invariant_step timelineRaw concurrency p e p' :
  invariant timelineRaw concurrency p →
  step timelineRaw p e = Some p' →
  invariant timelineRaw concurrency p'.
Proof.
  intros [Hlen Hidx Hclaimed Hitems Hhashes Herrors Hws Hlog Hfin] Hstep.
  unfold step in Hstep.
  destruct (workers p !! e.1) as [[|current received t]|] eqn:Hw; try done.
  destruct (advance t received e.2) as [[t' received']|] eqn:Hadv; try done.
  inversion Hstep; subst p'; clear Hstep.
  pose proof (Forall_lookup_1 _ _ _ _ Hws Hw) as (Hnr & Hrep & Hun).
  pose proof (advance_replay _ _ _ _ _ _ Hadv Hrep Hun) as [Hrep' Hun'].
  pose proof (lookup_lt_Some _ _ _ Hw) as Hlt.
  pose proof (take_drop_middle _ _ _ Hw) as Hsplit.
  assert (holding (workers p) =
          holding (take e.1 (workers p)) ++ current ::
          holding (drop (S e.1) (workers p))) as Hhold.
  { rewrite <- Hsplit at 1. by rewrite holding_app. }
  assert (∀ t1, (∀ buf, t1 ≠ Return buf) →
    replay (fetchWithRetry (tileUrl current) 3 250) received' = replay t1 [] →
    invariant timelineRaw concurrency
      {| shared := shared p;
         workers := <[e.1 := Suspended current received' t1]> (workers p);
         completed := completed p |}) as Hkeep.
  { intros t1 Hn1 Hr1. split; simpl; try done.
    - by rewrite length_insert.
    - rewrite insert_take_drop, holding_app by done. simpl.
      by rewrite <- Hhold.
    - apply Forall_insert; [done|]. by split_and!.
    - intros [Heq | Hin]%elem_of_list_insert; [done | by apply Hfin]. }
  destruct t' as [buf|u k|resp k|ms k]; simpl;
    [ | by apply Hkeep .. ].
  pose proof (settle_spec (shared p) (completed p) current received' buf
                Hitems Hhashes Herrors) as (Hi1 & Hu1 & Hh1 & He1).
  pose proof (worker_spec timelineRaw (settle current buf (shared p))) as Hwk.
  destruct (worker timelineRaw (settle current buf (shared p))) as [s2 next].
  destruct Hwk as (Hh2 & Hu2 & He2 & Hi2 & Ht2 & Hok2 & Hf2 & Hm2);
    [by rewrite Hi1|].
  split; simpl.
  - by rewrite length_insert.
  - done.
  - rewrite Ht2, Hi1, <- Hclaimed, Hhold.
    rewrite insert_take_drop, map_app by done.
    change (?x :: ?l) with ([x] ++ l). rewrite !holding_app. simpl.
    solve_Permutation.
  - by rewrite Hu2.
  - by rewrite Hh2.
  - by rewrite He2.
  - by apply Forall_insert.
  - apply Forall_app. split; [done|]. by repeat constructor.
  - intros [Heq | Hin]%elem_of_list_insert; [by apply Hf2|].
    specialize (Hfin Hin). rewrite Hi1 in Hm2. lia.
Qed.

Lemma invariant_run timelineRaw concurrency schedule : ∀ p p',
  invariant timelineRaw concurrency p →
  run timelineRaw p schedule = Some p' →
  invariant timelineRaw concurrency p'.
Proof.
  induction schedule as [|e schedule IH]; intros p p' Hinv Hrun; simpl in Hrun.
  - by inversion Hrun; subst.
  - destruct (step timelineRaw p e) as [p1|] eqn:Hstep; [|done].
    eapply IH; [|done]. by eapply invariant_step.
Qed.

(** ** Every schedule ends *)

Lemma within_fetchWithRetry target : within 8 (fetchWithRetry target 3 250).
Proof.
  unfold fetchWithRetry. simpl.
  intros [|r1]; simpl; [|destruct (ok r1); simpl; [destruct (arrayBuffer r1); simpl|]];
    try done;
    (intros [|r2]; simpl; [|destruct (ok r2); simpl; [destruct (arrayBuffer r2); simpl|]];
     try done;
     (intros [|r3]; simpl; [|destruct (ok r3); simpl; [destruct (arrayBuffer r3); simpl|]];
      done)).
Qed.

Lemma within_advance t received sig t' received' n :
  within n t →
  advance t received sig = Some (t', received') →
  ∃ n', n = S n' ∧ within n' t'.
Proof.
  intros Hn Hadv.
  destruct t as [b|u k|resp k|ms k], sig as [r| |]; simpl in Hadv;
    try done; inversion Hadv; subst; clear Hadv;
    destruct n as [|n']; simpl in Hn; try done; by exists n'.
Qed.

Lemma sum_list_append (l1 l2 : list nat) :
  sum_list (l1 ++ l2) = sum_list l1 + sum_list l2.
Proof. induction l1 as [|x l1 IH]; simpl; lia. Qed.

Lemma sum_list_insert (bs : list nat) i b b' :
  bs !! i = Some b → sum_list (<[i:=b']> bs) + b = sum_list bs + b'.
Proof.
  intros Hb. pose proof (lookup_lt_Some _ _ _ Hb) as Hlt.
  rewrite insert_take_drop by done.
  pose proof (take_drop_middle _ _ _ Hb) as Hsplit.
  apply (f_equal sum_list) in Hsplit.
  rewrite sum_list_append in Hsplit |- *. simpl in *. lia.
Qed.

Lemma measure_step timelineRaw concurrency p e p' m :
  invariant timelineRaw concurrency p →
  measure timelineRaw p m →
  step timelineRaw p e = Some p' →
  ∃ m', measure timelineRaw p' m' ∧ m' < m.
Proof.
  intros Hinv (bs & Hcost & ->) Hstep. unfold step in Hstep.
  destruct (workers p !! e.1) as [[|current received t]|] eqn:Hw; try done.
  destruct (advance t received e.2) as [[t' received']|] eqn:Hadv; try done.
  inversion Hstep; subst p'; clear Hstep.
  destruct (Forall2_lookup_l _ _ _ _ _ Hcost Hw) as (b & Hb & Hwithin).
  simpl in Hwithin.
  destruct (within_advance _ _ _ _ _ _ Hwithin Hadv) as (n' & -> & Hn').
  assert (∀ t1, within n' t1 →
    ∃ m', measure timelineRaw
      {| shared := shared p;
         workers := <[e.1 := Suspended current received' t1]> (workers p);
         completed := completed p |} m' ∧
      m' < sum_list bs + 8 * (length timelineRaw - index (shared p))) as Hkeep.
  { intros t1 H1. eexists. split.
    - exists (<[e.1 := n']> bs). split; [|reflexivity].
      by apply Forall2_insert.
    - simpl. pose proof (sum_list_insert bs e.1 (S n') n' Hb). lia. }
  destruct t' as [buf|u k|resp k|ms k]; simpl; [ | by apply Hkeep .. ].
  unfold worker.
  assert (index (settle current buf (shared p)) = index (shared p)) as Hidx.
  { unfold settle. destruct buf; [|done]. by case_decide. }
  destruct (timelineRaw !! index (settle current buf (shared p)))
    as [next|] eqn:Hnext.
  - apply lookup_lt_Some in Hnext. rewrite Hidx in Hnext.
    eexists. split.
    + exists (<[e.1 := 8]> bs). split; [|reflexivity]. simpl.
      apply Forall2_insert; [done|]. apply within_fetchWithRetry.
    + simpl. rewrite Hidx.
      pose proof (sum_list_insert bs e.1 (S n') 8 Hb). lia.
  - eexists. split.
    + exists (<[e.1 := 0]> bs). split; [|reflexivity]. simpl.
      by apply Forall2_insert.
    + simpl. rewrite Hidx.
      pose proof (sum_list_insert bs e.1 (S n') 0 Hb). lia.
Qed.

Lemma measure_spawn timelineRaw concurrency s :
  index s ≤ length timelineRaw →
  let '(s', ws) := spawn timelineRaw concurrency s in
  ∃ bs, Forall2 cost ws bs ∧
        sum_list bs + 8 * (length timelineRaw - index s') =
        8 * (length timelineRaw - index s).
Proof.
  revert s. induction concurrency as [|n IH]; intros s Hle; simpl.
  - exists []. split; [constructor | simpl; lia].
  - unfold worker.
    destruct (timelineRaw !! index s) as [current|] eqn:Hcur.
    + apply lookup_lt_Some in Hcur.
      match goal with |- context [spawn _ _ ?s1] => specialize (IH s1) end.
      simpl in IH. destruct (spawn _ _ _) as [s2 ws].
      destruct IH as (bs & Hbs & Hsum); [lia|].
      exists (8 :: bs). split.
      * constructor; [apply within_fetchWithRetry | done].
      * simpl. lia.
    + specialize (IH s Hle). destruct (spawn _ _ _) as [s2 ws].
      destruct IH as (bs & Hbs & Hsum).
      exists (0 :: bs). split; [by constructor | simpl; lia].
Qed.

Lemma measure_start timelineRaw concurrency :
  measure timelineRaw (start timelineRaw concurrency) (8 * length timelineRaw).
Proof.
  unfold start, measure.
  pose proof (measure_spawn timelineRaw concurrency
    {| index := 0; uniqueImageHashes := ∅; uniqueItems := []; errors := [] |})
    as Hs.
  destruct (spawn _ _ _) as [s ws]. simpl in *.
  destruct Hs as (bs & Hbs & Hsum); [lia|].
  exists bs. split; [done | lia].
Qed.

Lemma run_app timelineRaw p sched1 sched2 :
  run timelineRaw p (sched1 ++ sched2) =
  match run timelineRaw p sched1 with
  | Some p1 => run timelineRaw p1 sched2
  | None => None
  end.
Proof.
  revert p. induction sched1 as [|e sched1 IH]; intros p; simpl; [done|].
  destruct (step timelineRaw p e); [apply IH | done].
Qed.

(* A schedule is never longer than the measure allows. *)
Lemma run_length timelineRaw concurrency schedule : ∀ p p' m,
  invariant timelineRaw concurrency p →
  measure timelineRaw p m →
  run timelineRaw p schedule = Some p' →
  length schedule ≤ m.
Proof.
  induction schedule as [|e schedule IH]; intros p p' m Hinv Hm Hrun;
    simpl in *; [lia|].
  destruct (step timelineRaw p e) as [p1|] eqn:Hstep; [|done].
  destruct (measure_step _ _ _ _ _ _ Hinv Hm Hstep) as (m' & Hm' & Hlt).
  pose proof (invariant_step _ _ _ _ _ Hinv Hstep) as Hinv'.
  specialize (IH _ _ _ Hinv' Hm' Hrun). lia.
Qed.

(* While a worker is suspended, the event loop has a signal to deliver. *)
Lemma step_progress timelineRaw concurrency p :
  invariant timelineRaw concurrency p →
  all_finished p = false →
  ∃ e p', step timelineRaw p e = Some p'.
Proof.
  intros Hinv Hall. unfold all_finished in Hall.
  assert (∃ i current received t,
    workers p !! i = Some (Suspended current received t))
    as (i & current & received & t & Hw).
  { induction (workers p) as [|w ws IH]; simpl in Hall; [done|].
    destruct w as [|current received t]; simpl in Hall.
    - destruct (IH Hall) as (i & ? & ? & ? & Hi). by exists (S i); eauto.
    - exists 0. eauto. }
  pose proof (Forall_lookup_1 _ _ _ _ (inv_suspended _ _ _ Hinv) Hw)
    as (Hnr & _).
  unfold step.
  destruct t as [buf|u k|resp k|ms k].
  - by destruct (Hnr buf).
  - exists (i, FetchSettled Rejected). simpl. rewrite Hw. simpl. eauto.
  - exists (i, BodySettled). simpl. rewrite Hw. simpl. eauto.
  - exists (i, TimerFired). simpl. rewrite Hw. simpl. eauto.
Qed.

Lemma run_completes timelineRaw concurrency m : ∀ p,
  invariant timelineRaw concurrency p →
  measure timelineRaw p m →
  ∃ schedule p',
    run timelineRaw p schedule = Some p' ∧ all_finished p' = true.
Proof.
  induction m as [m IH] using lt_wf_ind. intros p Hinv Hm.
  destruct (all_finished p) eqn:Hall.
  - exists [], p. by split.
  - destruct (step_progress _ _ _ Hinv Hall) as (e & p1 & Hstep).
    destruct (measure_step _ _ _ _ _ _ Hinv Hm Hstep) as (m' & Hm' & Hlt).
    pose proof (invariant_step _ _ _ _ _ Hinv Hstep) as Hinv'.
    destruct (IH m' Hlt p1 Hinv' Hm') as (schedule & p' & Hrun & Hfin).
    exists (e :: schedule), p'. simpl. rewrite Hstep. by split.
Qed.

(* Whatever has happened so far, the pending downloads can be brought to
   an end, and then [Promise.all] resolves. *)
Lemma runPool_completes timelineRaw concurrency schedule p :
  run timelineRaw (start timelineRaw concurrency) schedule = Some p →
  ∃ rest p', runPool timelineRaw concurrency (schedule ++ rest) = Some p'.
Proof.
  intros Hrun.
  pose proof (invariant_run _ _ _ _ _ (invariant_start _ _) Hrun) as Hinv.
  assert (∃ m, measure timelineRaw p m) as (m & Hm).
  { clear Hinv. revert Hrun.
    generalize (measure_start timelineRaw concurrency).
    generalize (invariant_start timelineRaw concurrency).
    generalize (8 * length timelineRaw).
    generalize (start timelineRaw concurrency).
    induction schedule as [|e schedule IH]; intros p0 m0 Hinv0 Hm0 Hrun;
      simpl in Hrun.
    - inversion Hrun; subst. eauto.
    - destruct (step timelineRaw p0 e) as [p1|] eqn:Hstep; [|done].
      destruct (measure_step _ _ _ _ _ _ Hinv0 Hm0 Hstep) as (m' & Hm' & _).
      eapply IH; [|done|done]. by eapply invariant_step. }
  destruct (run_completes _ _ _ _ Hinv Hm) as (rest & p' & Hrest & Hfin).
  exists rest, p'. unfold runPool. by rewrite run_app, Hrun, Hrest, Hfin.
Qed.

(** ** What a finished download has seen *)

(* A finished [fetchWithRetry] has made one, two or three requests: every
   one but the last failed, and the last one decides the result. *)
Lemma fetchWithRetry_run target rs out :
  replay (fetchWithRetry target 3 250) rs = Return out →
  unused (fetchWithRetry target 3 250) rs = [] →
  (∃ r1 b, rs = [r1] ∧ attempt r1 = Some b ∧ out = Some b) ∨
  (∃ r1 r2 b, rs = [r1; r2] ∧ attempt r1 = None ∧ attempt r2 = Some b ∧
     out = Some b) ∨
  (∃ r1 r2 r3, rs = [r1; r2; r3] ∧ attempt r1 = None ∧ attempt r2 = None ∧
     out = attempt r3).
Proof.
  unfold fetchWithRetry, attempt.
  destruct rs as [|r1 [|r2 [|r3 [|r4 rs]]]]; simpl.
  - done.
  - destruct r1 as [|[s1 [b1|]]]; simpl; try done;
      destruct (ok _) eqn:H1; simpl; try done.
    intros [= <-] _. left. exists (Resolved {| status := s1; arrayBuffer := Some b1 |}), b1.
    simpl. by rewrite H1.
  - destruct r1 as [|[s1 [b1|]]]; simpl; try done;
      try (destruct (ok {| status := s1; arrayBuffer := _ |}) eqn:H1; simpl; try done);
      destruct r2 as [|[s2 [b2|]]]; simpl; try done;
      try (destruct (ok {| status := s2; arrayBuffer := _ |}) eqn:H2; simpl; try done);
      intros [= <-] _; right; left; eexists _, _, _;
      (split; [reflexivity|]); simpl; rewrite ?H1, ?H2; done.
  - destruct r1 as [|[s1 [b1|]]]; simpl; try done;
      try (destruct (ok {| status := s1; arrayBuffer := _ |}) eqn:H1; simpl; try done);
      destruct r2 as [|[s2 [b2|]]]; simpl; try done;
      try (destruct (ok {| status := s2; arrayBuffer := _ |}) eqn:H2; simpl; try done);
      destruct r3 as [|[s3 [b3|]]]; simpl; try done;
      try (destruct (ok {| status := s3; arrayBuffer := _ |}) eqn:H3; simpl; try done);
      intros [= <-] _; right; right; eexists _, _, _;
      (split; [reflexivity|]); simpl; rewrite ?H1, ?H2, ?H3; done.
  - destruct r1 as [|[s1 [b1|]]]; simpl; try done;
      try (destruct (ok {| status := s1; arrayBuffer := _ |}) eqn:H1; simpl; try done);
      destruct r2 as [|[s2 [b2|]]]; simpl; try done;
      try (destruct (ok {| status := s2; arrayBuffer := _ |}) eqn:H2; simpl; try done);
      destruct r3 as [|[s3 [b3|]]]; simpl; try done;
      try (destruct (ok {| status := s3; arrayBuffer := _ |}) eqn:H3; simpl; try done).
Qed.

(** ** Runs of the pool that reach [Promise.all] *)

Lemma runPool_invariant timelineRaw concurrency schedule p :
  runPool timelineRaw concurrency schedule = Some p →
  invariant timelineRaw concurrency p ∧ all_finished p = true ∧
  run timelineRaw (start timelineRaw concurrency) schedule = Some p.
Proof.
  unfold runPool. intros Hrun.
  destruct (run _ _ _) as [p0|] eqn:Hp0; [|done].
  destruct (all_finished p0) eqn:Hall; [|done].
  inversion Hrun; subst. split_and!; try done.
  eapply invariant_run; [apply invariant_start | done].
Qed.

Lemma all_finished_holding p : all_finished p = true → holding (workers p) = [].
Proof.
  unfold all_finished. induction (workers p) as [|w ws IH]; simpl; [done|].
  intros [Hw Hws]%andb_prop. destruct w; [|done]. simpl. by apply IH.
Qed.

Lemma all_finished_elem p :
  all_finished p = true → 0 < length (workers p) → Finished ∈ workers p.
Proof.
  unfold all_finished. destruct (workers p) as [|w ws]; simpl; [lia|].
  intros [Hw _]%andb_prop _. destruct w; [|done]. by left.
Qed.

(* With at least one worker, every candidate tile has been claimed and
   settled when the pool is done. *)
Lemma runPool_all_settled timelineRaw concurrency schedule p :
  0 < concurrency →
  runPool timelineRaw concurrency schedule = Some p →
  Permutation (map tile (completed p)) timelineRaw.
Proof.
  intros Hn (Hinv & Hall & _)%runPool_invariant.
  pose proof (inv_claimed _ _ _ Hinv) as Hclaimed.
  rewrite (all_finished_holding _ Hall), app_nil_r in Hclaimed.
  rewrite Hclaimed, (inv_finished _ _ _ Hinv), firstn_all; [done|].
  apply all_finished_elem; [done|]. by rewrite (inv_workers _ _ _ Hinv).
Qed.

(** ** Successes and failures share out the completions *)

Lemma successes_sublist log : (successes log).*1 `sublist_of` map tile log.
Proof.
  induction log as [|c log IH]; [done|]. unfold successes. cbn.
  destruct (outcome c); cbn; by constructor.
Qed.

Lemma failures_sublist log : failures log `sublist_of` map tile log.
Proof.
  induction log as [|c log IH]; [done|]. unfold failures. cbn.
  destruct (outcome c); cbn; by constructor.
Qed.

Lemma successes_failures log :
  (successes log).*1 ++ failures log ≡ₚ map tile log.
Proof.
  induction log as [|c log IH]; [done|]. unfold successes, failures. cbn.
  destruct (outcome c); cbn.
  - by constructor.
  - rewrite <- Permutation_middle. by constructor.
Qed.

Lemma filter_sublist {A} (P : A → Prop) `{∀ x, Decision (P x)} (l1 l2 : list A) :
  l1 `sublist_of` l2 → filter P l1 `sublist_of` filter P l2.
Proof.
  induction 1 as [|x l1 l2 _ IH|x l1 l2 _ IH]; [done| |].
  - rewrite !filter_cons. case_decide; [by constructor | done].
  - rewrite filter_cons. case_decide; [by constructor | done].
Qed.

Lemma keep_first_sublist log :
  (keep_first (successes log)).*1 `sublist_of` map tile log.
Proof.
  etrans; [|apply successes_sublist].
  apply fmap_sublist, keep_first_from_sublist.
Qed.

(* What the pool has kept are candidates, and a catalog of snapshots with
   valid release dates gives such candidates. *)
Lemma uniqueItems_candidates timelineRaw concurrency p :
  invariant timelineRaw concurrency p → uniqueItems (shared p) ⊆ timelineRaw.
Proof.
  intros Hinv t Ht. rewrite (inv_items _ _ _ Hinv) in Ht.
  eapply elem_of_sublist in Ht; [|apply keep_first_sublist].
  eapply (subseteq_take (index (shared p))).
  rewrite <- (inv_claimed _ _ _ Hinv). apply elem_of_app. by left.
Qed.

Lemma candidates_dated P request waybackItems :
  datedCatalog (Items waybackItems) →
  Forall dated (candidates P request waybackItems).
Proof.
  unfold candidates. cbn [datedCatalog]. intros H.
  apply Forall_map. eapply Forall_impl; [exact H|]. by intros item.
Qed.

(* The release dates of a catalog are checked by evaluation. *)
Lemma datedCatalog_Items waybackItems :
  forallb (fun item =>
             (Z.abs (WaybackItem.releaseDatetime item) <=? Date_max)%Z)
    waybackItems = true →
  datedCatalog (Items waybackItems).
Proof.
  cbn [datedCatalog]. rewrite forallb_forall, List.Forall_forall.
  intros H item Hitem. unfold Date_getTime. rewrite (H item Hitem). by eexists.
Qed.

Lemma uniqueItems_dated timelineRaw concurrency p :
  invariant timelineRaw concurrency p →
  Forall dated timelineRaw → Forall dated (uniqueItems (shared p)).
Proof.
  intros Hinv Hd. rewrite Forall_forall in Hd. apply Forall_forall.
  intros t Ht. by eapply Hd, uniqueItems_candidates.
Qed.

(** ** The cases of the handler *)

Lemma GET_rejects P request world :
  rejects P request = true → GET P request world = Some (badRequest, []).
Proof.
  unfold rejects, queryLat, queryLng, GET. by intros ->.
Qed.

Lemma GET_catalog_throws P request world :
  rejects P request = false →
  (catalogQuery P request world).1 = Throws →
  GET P request world =
  Some (serverError, [(catalogQuery P request world).2]).
Proof.
  unfold rejects, catalogQuery, queryMode, queryLat, queryLng, queryZoom, GET.
  intros ->. by destruct (String.eqb _ "all"); simpl; intros ->.
Qed.

Lemma GET_catalog_items P request world waybackItems :
  rejects P request = false →
  (catalogQuery P request world).1 = Items waybackItems →
  GET P request world =
  match runPool (candidates P request waybackItems) 8 (schedule world) with
  | Some p =>
      Some (success P request p,
            (catalogQuery P request world).2 :: fetchCalls (completed p))
  | None => None
  end.
Proof.
  unfold rejects, catalogQuery, candidates, queryMode, queryLat, queryLng,
    queryZoom, GET, dedupeTimelineByImage, tileCalls, success.
  intros ->.
  by destruct (String.eqb _ "all"); simpl; intros ->;
    destruct (runPool _ _ _).
Qed.

(* A response is one of the three. *)
Lemma GET_cases P request world resp calls :
  GET P request world = Some (resp, calls) →
  (rejects P request = true ∧ resp = badRequest ∧ calls = []) ∨
  (rejects P request = false ∧ (catalogQuery P request world).1 = Throws ∧
   resp = serverError ∧ calls = [(catalogQuery P request world).2]) ∨
  (∃ waybackItems p,
     rejects P request = false ∧
     (catalogQuery P request world).1 = Items waybackItems ∧
     runPool (candidates P request waybackItems) 8 (schedule world) = Some p ∧
     resp = success P request p ∧
     calls = (catalogQuery P request world).2 :: fetchCalls (completed p)).
Proof.
  intros HGET. destruct (rejects P request) eqn:Hrej.
  - rewrite GET_rejects in HGET by done. inversion HGET. by left.
  - destruct (catalogQuery P request world).1 as [waybackItems|] eqn:Hcat.
    + rewrite (GET_catalog_items _ _ _ _ Hrej Hcat) in HGET.
      destruct (runPool _ _ _) as [p|] eqn:Hp; [|done].
      inversion HGET. right. right. by exists waybackItems, p.
    + rewrite GET_catalog_throws in HGET by done. inversion HGET.
      right. by left.
Qed.

(** ** The sample request evaluates as intended *)

Example sample_latLngToTile :
  latLngToTile sampleRuntime 46.5 7.75 15 = sampleCoords.
Proof. vm_compute. reflexivity. Qed.

Example sample_tileUrl :
  tileUrl (sampleTile 1 "2014-02-20" 1392854400000) =
  "https://wayback.example/tile/2014-02-20/15/11591/17089".
Proof. vm_compute. reflexivity. Qed.

(* The range of [Date] ends at 8.64e15 ms; beyond it the time value is NaN,
   the comparator returns NaN, and the sort leaves two such items as they
   stand. *)
Example sample_Date_getTime :
  Date_getTime 1392854400000 = Some 1392854400000%Z ∧
  Date_getTime 8640000000000000 = Some 8640000000000000%Z ∧
  Date_getTime 8640000000000001 = None ∧
  Date_getTime (-8640000000000001) = None ∧
  chronological (sampleTile 1 "" 9000000000000000) (sampleTile 2 "" 1) = None ∧
  Array_sort chronological
    [ sampleTile 1 "" 9000000000000000; sampleTile 2 "" 1 ] =
    [ sampleTile 1 "" 9000000000000000; sampleTile 2 "" 1 ].
Proof. split_and!; vm_compute; reflexivity. Qed.

(* ================================================================== *)
(** * Part IV: the claims *)
(* ================================================================== *)

Lemma Sorted_adjacent (l : list Tile) i a b :
  Sorted earlier l → l !! i = Some a → l !! S i = Some b → earlier a b.
Proof.
  intros Hs. revert i. induction Hs as [|x l Hs IH Hhd]; intros i; [done|].
  destruct i as [|i]; simpl.
  - intros [= ->] Hb. destruct l as [|y l]; [done|].
    simpl in Hb. inversion Hb; subst. by inversion Hhd.
  - apply IH.
Qed.

(** C2: in every response with status 200 the timeline is in ascending
    order of [releaseDatetime]: each item is released no later than the
    item that follows it.  The release timestamps of the catalog are epoch
    milliseconds that [Date] can hold, so that the comparator of the sort
    never meets an invalid date. *)
Theorem GET_timeline_ascending P request world resp calls :
  datedCatalog (catalogQuery P request world).1 →
  GET P request world = Some (resp, calls) →
  http_status resp = 200%Z →
  ∃ body, json resp = TimelineJson body ∧
    ∀ i a b,
      Body.timeline body !! i = Some a →
      Body.timeline body !! S i = Some b →
      (releaseDatetime a ≤ releaseDatetime b)%Z.
Proof.
  intros Hdated HGET Hstatus.
  apply GET_cases in HGET as
    [(_ & -> & _) | [(_ & _ & -> & _) |
     (items & p & _ & Hcat & Hrun & -> & _)]];
    try done.
  rewrite Hcat in Hdated.
  pose proof Hrun as (Hinv & _ & _)%runPool_invariant.
  eexists. split; [reflexivity|]. simpl. intros i a b Ha Hb.
  eapply Sorted_adjacent; [|done..].
  apply Array_sort_chronological_Sorted.
  eapply uniqueItems_dated; [done|]. by apply candidates_dated.
Qed.

Lemma GET_timeline_ascending_witness :
  datedCatalog
    (catalogQuery sampleRuntime sampleRequest
       (sampleWorld sampleCatalog sampleSchedule)).1 ∧
  timelineOf
    (GET sampleRuntime sampleRequest (sampleWorld sampleCatalog sampleSchedule)) =
    Some [ sampleTile 20 "2014-02-20" 1392854400000;
           sampleTile 30 "2015-09-09" 1441756800000;
           sampleTile 10 "2016-06-01" 1464739200000 ] ∧
  ∃ resp calls,
    GET sampleRuntime sampleRequest (sampleWorld sampleCatalog sampleSchedule) =
      Some (resp, calls) ∧
    http_status resp = 200%Z ∧
    ∃ body, json resp = TimelineJson body ∧
      ∀ i a b,
        Body.timeline body !! i = Some a →
        Body.timeline body !! S i = Some b →
        (releaseDatetime a ≤ releaseDatetime b)%Z.
Proof.
  assert (datedCatalog
            (catalogQuery sampleRuntime sampleRequest
               (sampleWorld sampleCatalog sampleSchedule)).1) as Hdated.
  { by apply (datedCatalog_Items sampleCatalog). }
  split; [exact Hdated|]. split; [vm_compute; reflexivity|].
  eexists _, _. split; [vm_compute; reflexivity|]. split; [reflexivity|].
  eapply (GET_timeline_ascending sampleRuntime sampleRequest
            (sampleWorld sampleCatalog sampleSchedule));
    [exact Hdated | vm_compute; reflexivity | reflexivity].
Defined.

(** C6: when [lat] or [lng] is absent from the query, or parses to zero,
    the handler answers 400 with the error "Missing latitude or longitude"
    and makes no network call at all. *)
Theorem GET_missing_coordinate P request world :
  PrimFloat.eqb (parseFloat P "0") 0 = true →
  searchParams_get request "lat" = None ∨
  PrimFloat.eqb (queryLat P request) 0 = true ∨
  searchParams_get request "lng" = None ∨
  PrimFloat.eqb (queryLng P request) 0 = true →
  GET P request world =
  Some ({| json := ErrorJson "Missing latitude or longitude";
           http_status := 400 |}, []).
Proof.
  intros Hzero Hmissing. apply GET_rejects. unfold rejects, falsy.
  destruct Hmissing as [Hlat | [Hlat | [Hlng | Hlng]]].
  - unfold queryLat. rewrite Hlat. simpl. by rewrite Hzero.
  - by rewrite Hlat.
  - unfold queryLng at 1 2. rewrite Hlng. simpl. rewrite Hzero.
    by rewrite orb_true_r.
  - rewrite Hlng. by rewrite orb_true_r.
Qed.

Lemma GET_missing_coordinate_witness :
  PrimFloat.eqb (parseFloat sampleRuntime "0") 0 = true ∧
  searchParams_get [("lng", "7.75")] "lat" = None ∧
  GET sampleRuntime [("lng", "7.75")] (sampleWorld sampleCatalog sampleSchedule) =
  Some ({| json := ErrorJson "Missing latitude or longitude";
           http_status := 400 |}, []).
Proof.
  split; [reflexivity|]. split; [reflexivity|].
  apply (GET_missing_coordinate sampleRuntime [("lng", "7.75")]);
    [reflexivity | left; reflexivity].
Defined.

(** C7, as the code has it: when the catalog query throws, the handler
    answers 500 with the error "Failed to fetch wayback imagery", having
    made the catalog call only; the body holds no timeline.  No answer with
    status 500 has another body, and none arises without the catalog
    throwing. *)
Theorem GET_catalog_exception P request world :
  rejects P request = false →
  (catalogQuery P request world).1 = Throws →
  GET P request world =
    Some ({| json := ErrorJson "Failed to fetch wayback imagery";
             http_status := 500 |},
          [(catalogQuery P request world).2]) ∧
  ∀ world' resp calls,
    GET P request world' = Some (resp, calls) →
    http_status resp = 500%Z →
    json resp = ErrorJson "Failed to fetch wayback imagery" ∧
    (catalogQuery P request world').1 = Throws.
Proof.
  intros Hrej Hcat. split; [by apply GET_catalog_throws|].
  intros world' resp calls HGET Hstatus.
  apply GET_cases in HGET as
    [(_ & -> & _) | [(_ & Hthrows & -> & _) | (items & p & _ & _ & _ & -> & _)]];
    done.
Qed.

Lemma GET_catalog_exception_witness :
  rejects sampleRuntime sampleRequest = false ∧
  (catalogQuery sampleRuntime sampleRequest brokenCatalog).1 = Throws ∧
  GET sampleRuntime sampleRequest brokenCatalog =
  Some ({| json := ErrorJson "Failed to fetch wayback imagery";
           http_status := 500 |},
        [CallGetWaybackItems]).
Proof.
  split; [reflexivity|]. split; [reflexivity|].
  apply (GET_catalog_exception sampleRuntime sampleRequest brokenCatalog);
    reflexivity.
Defined.

(** C7, as the specification has it, fails: with a catalog that throws, the
    body of the 500 answer is not the error "Failed to fetch imagery". *)
Lemma GET_catalog_exception_other_message :
  getWaybackItems brokenCatalog = Throws ∧
  ∀ calls,
    GET sampleRuntime sampleRequest brokenCatalog ≠
    Some ({| json := ErrorJson "Failed to fetch imagery"; http_status := 500 |},
          calls).
Proof. split; [reflexivity|]. intros calls. vm_compute. discriminate. Qed.

(** C10: of each of the placeholders [{level}], [{row}] and [{col}] the
    materializer replaces the first occurrence only.  The tile URL is the
    template read once from left to right, a placeholder being replaced the
    first time it is met and copied as it is every later time; so every
    placeholder occurs once less in the tile URL than in the template, and
    whatever follows a part of the template that has all three is copied
    unchanged. *)
Theorem materialize_first_occurrence_only P tileCoords item :
  JsString.number_text (Number_toString P (TileCoords.z tileCoords)) = true →
  JsString.number_text (Number_toString P (TileCoords.y tileCoords)) = true →
  JsString.number_text (Number_toString P (TileCoords.x tileCoords)) = true →
  tileUrl (materialize P tileCoords item) =
    substitute_first 0
      (Some (Number_toString P (TileCoords.z tileCoords)))
      (Some (Number_toString P (TileCoords.y tileCoords)))
      (Some (Number_toString P (TileCoords.x tileCoords)))
      (WaybackItem.itemURL item) ∧
  (∀ p, p ∈ placeholders →
     JsString.occurrences p (tileUrl (materialize P tileCoords item)) =
     pred (JsString.occurrences p (WaybackItem.itemURL item))) ∧
  (∀ longer rest,
     WaybackItem.itemURL longer = WaybackItem.itemURL item +:+ rest →
     (∀ p, p ∈ placeholders →
        1 ≤ JsString.occurrences p (WaybackItem.itemURL item)) →
     tileUrl (materialize P tileCoords longer) =
     tileUrl (materialize P tileCoords item) +:+ rest).
Proof.
  intros Hz Hy Hx. split_and!.
  - simpl. by apply resolveTemplate_substitute_first.
  - intros p Hp. simpl. by apply occurrences_resolveTemplate.
  - intros longer rest Hlonger Hocc. simpl. rewrite Hlonger.
    by apply resolveTemplate_app.
Qed.

Lemma materialize_first_occurrence_only_witness :
  JsString.number_text
    (Number_toString sampleRuntime (TileCoords.z sampleCoords)) = true ∧
  JsString.number_text
    (Number_toString sampleRuntime (TileCoords.y sampleCoords)) = true ∧
  JsString.number_text
    (Number_toString sampleRuntime (TileCoords.x sampleCoords)) = true ∧
  tileUrl (materialize sampleRuntime sampleCoords
    {| WaybackItem.releaseNum := 1;
       WaybackItem.releaseDateLabel := "";
       WaybackItem.releaseDatetime := 0;
       WaybackItem.itemTitle := "";
       WaybackItem.itemURL := "t/{level}/{row}/{col}?again={level}/{row}/{col}";
       WaybackItem.layerIdentifier := "" |}) =
  "t/15/11591/17089?again={level}/{row}/{col}".
Proof.
  split; [reflexivity|]. split; [reflexivity|]. split; [reflexivity|].
  destruct (materialize_first_occurrence_only sampleRuntime sampleCoords
    {| WaybackItem.releaseNum := 1;
       WaybackItem.releaseDateLabel := "";
       WaybackItem.releaseDatetime := 0;
       WaybackItem.itemTitle := "";
       WaybackItem.itemURL := "t/{level}/{row}/{col}";
       WaybackItem.layerIdentifier := "" |}) as (_ & _ & Hrest);
    [reflexivity..|].
  rewrite (Hrest _ "?again={level}/{row}/{col}"); [reflexivity | reflexivity |].
  intros p Hp. unfold placeholders in Hp.
  repeat (apply elem_of_cons in Hp as [-> | Hp]); [vm_compute; lia..|].
  by apply elem_of_nil in Hp.
Defined.

(** C9: however the downloads interleave, no more tile requests are in
    flight than the pool has workers (8 in [GET]).  The cursor counts the
    tiles claimed so far, which are the first [index] candidates, each
    claimed once.  Every step of the pool is the step of one suspended
    worker: while its download has not returned the worker stays with its
    tile and nothing else changes; when the download returns the worker
    records it, claims [timelineRaw[index]] and moves the cursor by one, or
    leaves its loop when the cursor has reached the end of the list.  A
    suspended worker can always be resumed, a worker leaves its loop only
    when no tile is left, and once all workers have left their loop every
    candidate has been claimed and settled once. *)
Theorem pool_bounded_concurrency timelineRaw concurrency schedule p :
  run timelineRaw (start timelineRaw concurrency) schedule = Some p →
  inFlight p ≤ concurrency ∧
  index (shared p) ≤ length timelineRaw ∧
  length (completed p) + length (holding (workers p)) = index (shared p) ∧
  Permutation (map tile (completed p) ++ holding (workers p))
    (take (index (shared p)) timelineRaw) ∧
  (∀ e p', step timelineRaw p e = Some p' →
     ∃ current received t t' received',
       workers p !! e.1 = Some (Suspended current received t) ∧
       advance t received e.2 = Some (t', received') ∧
       match t' with
       | Return buf =>
           completed p' = completed p ++
             [ {| tile := current; answers := received'; outcome := buf |} ] ∧
           match timelineRaw !! index (shared p) with
           | Some next =>
               index (shared p') = S (index (shared p)) ∧
               workers p' = <[e.1 := claim next]> (workers p)
           | None =>
               index (shared p') = index (shared p) ∧
               workers p' = <[e.1 := Finished]> (workers p)
           end
       | _ =>
           shared p' = shared p ∧ completed p' = completed p ∧
           workers p' = <[e.1 := Suspended current received' t']> (workers p)
       end) ∧
  (∀ w current received t,
     workers p !! w = Some (Suspended current received t) →
     ∃ sig p', step timelineRaw p (w, sig) = Some p') ∧
  (Finished ∈ workers p → index (shared p) = length timelineRaw) ∧
  (all_finished p = true → 0 < concurrency →
     index (shared p) = length timelineRaw ∧
     Permutation (map tile (completed p)) timelineRaw).
Proof.
  intros Hrun.
  pose proof (invariant_run _ _ _ _ _ (invariant_start _ _) Hrun) as Hinv.
  split_and!.
  - unfold inFlight. rewrite <- (inv_workers _ _ _ Hinv). apply length_filter.
  - apply Hinv.
  - pose proof (Permutation_length (inv_claimed _ _ _ Hinv)) as Hlen.
    pose proof (inv_index _ _ _ Hinv).
    rewrite length_app, length_map, length_take in Hlen. lia.
  - apply Hinv.
  - intros e p' Hstep. unfold step in Hstep.
    destruct (workers p !! e.1) as [[|current received t]|] eqn:Hw; try done.
    destruct (advance t received e.2) as [[t' received']|] eqn:Hadv; try done.
    inversion Hstep; subst p'; clear Hstep.
    exists current, received, t, t', received'.
    split; [done|]. split; [done|].
    destruct t' as [buf|u k|resp k|ms k]; cbn [resume]; try done.
    assert (index (settle current buf (shared p)) = index (shared p)) as Hidx.
    { unfold settle. destruct buf as [b|]; [|done]. by case_decide. }
    unfold worker. rewrite Hidx.
    by destruct (timelineRaw !! index (shared p)) as [next|].
  - intros w current received t Hw.
    pose proof (Forall_lookup_1 _ _ _ _ (inv_suspended _ _ _ Hinv) Hw)
      as (Hnr & _).
    unfold step. cbn [fst snd]. rewrite Hw.
    destruct t as [buf|u k|resp k|ms k].
    + by destruct (Hnr buf).
    + exists (FetchSettled Rejected). cbn [advance]. eauto.
    + exists BodySettled. cbn [advance]. eauto.
    + exists TimerFired. cbn [advance]. eauto.
  - apply Hinv.
  - intros Hall Hn.
    assert (index (shared p) = length timelineRaw) as Hidx.
    { apply (inv_finished _ _ _ Hinv), all_finished_elem; [done|].
      by rewrite (inv_workers _ _ _ Hinv). }
    split; [done|].
    pose proof (inv_claimed _ _ _ Hinv) as Hclaimed.
    by rewrite (all_finished_holding _ Hall), app_nil_r, Hidx, firstn_all
      in Hclaimed.
Qed.

Lemma pool_bounded_concurrency_witness :
  run (candidates sampleRuntime sampleRequest nineCatalog)
    (start (candidates sampleRuntime sampleRequest nineCatalog) 8)
    (take 2 nineSchedule) =
    Some (reached (candidates sampleRuntime sampleRequest nineCatalog) 8
            (take 2 nineSchedule)) ∧
  map tile
    (completed
       (reached (candidates sampleRuntime sampleRequest nineCatalog) 8
          (take 2 nineSchedule))) =
    [ sampleTile 4 "2014-02-20" 1392854400004 ] ∧
  index
    (shared
       (reached (candidates sampleRuntime sampleRequest nineCatalog) 8
          (take 2 nineSchedule))) = 9 ∧
  workers
    (reached (candidates sampleRuntime sampleRequest nineCatalog) 8
       (take 2 nineSchedule)) !! 3 =
    Some (claim (sampleTile 9 "2014-02-20" 1392854400009)) ∧
  inFlight
    (reached (candidates sampleRuntime sampleRequest nineCatalog) 8
       (take 2 nineSchedule)) = 8 ∧
  timelineOf
    (GET sampleRuntime sampleRequest (sampleWorld nineCatalog nineSchedule)) =
    Some (candidates sampleRuntime sampleRequest nineCatalog) ∧
  inFlight
    (reached (candidates sampleRuntime sampleRequest nineCatalog) 8
       (take 2 nineSchedule)) ≤ 8.
Proof.
  assert (run (candidates sampleRuntime sampleRequest nineCatalog)
            (start (candidates sampleRuntime sampleRequest nineCatalog) 8)
            (take 2 nineSchedule) =
          Some (reached (candidates sampleRuntime sampleRequest nineCatalog) 8
                  (take 2 nineSchedule))) as Hrun.
  { vm_compute. reflexivity. }
  split; [exact Hrun|].
  split; [vm_compute; reflexivity|]. split; [vm_compute; reflexivity|].
  split; [vm_compute; reflexivity|]. split; [vm_compute; reflexivity|].
  split; [vm_compute; reflexivity|].
  destruct (pool_bounded_concurrency
              (candidates sampleRuntime sampleRequest nineCatalog) 8
              (take 2 nineSchedule) _ Hrun) as (Hbound & _).
  exact Hbound.
Defined.

Lemma keep_first_from_first seen l1 t b l2 t' :
  b ∉ seen → b ∉ l1.*2 →
  (t', b) ∈ keep_first_from seen (l1 ++ (t, b) :: l2) ↔ t' = t.
Proof.
  revert seen. induction l1 as [|[t0 b0] l1 IH]; intros seen Hseen Hl1; simpl.
  - rewrite decide_False by done. rewrite elem_of_cons. split.
    + intros [[= ->] | Hin]; [done|].
      apply keep_first_from_fresh in Hin. by destruct Hin; left.
    + intros ->. by left.
  - simpl in Hl1. apply not_elem_of_cons in Hl1 as [Hne Hl1].
    destruct (decide (b0 ∈ seen)); [by apply IH|].
    rewrite elem_of_cons, IH; [|by apply not_elem_of_cons|done].
    split; [|by right]. intros [[= _ ->] | ->]; done.
Qed.

Lemma keep_first_contents l b : b ∈ l.*2 ↔ b ∈ (keep_first l).*2.
Proof.
  split.
  - intros Hin. destruct (keep_first_from_contents [] l b Hin) as [H|H]; [|done].
    by apply elem_of_nil in H.
  - intros (tb & -> & Hin)%list_elem_of_fmap.
    apply list_elem_of_fmap. exists tb. split; [done|].
    eapply elem_of_sublist; [exact Hin | apply keep_first_from_sublist].
Qed.

(** C1: the deduplicator keeps one item for every distinct content of the
    fetched tiles.  When the pool is done every candidate tile has been
    downloaded once, and a tile counts as fetched with the bytes that
    [fetchWithRetry] returned for it on the responses it met.  The key in
    the set is the base64 text of the bytes, and two buffers have the same
    text only if they are the same bytes; going through the fetched tiles in
    the order in which their downloads completed, the first tile of a
    content is kept and every later tile of that content is dropped,
    whatever its release date.  The items returned are the kept tiles. *)
Theorem dedupe_one_item_per_content timelineRaw concurrency schedule p :
  runPool timelineRaw concurrency schedule = Some p →
  let fetched := successes (completed p) in
  let kept := keep_first fetched in
  (0 < concurrency → Permutation (map tile (completed p)) timelineRaw) ∧
  (∀ c, c ∈ completed p →
     replay (fetchWithRetry (tileUrl (tile c)) 3 250) (answers c) =
       Return (outcome c) ∧
     unused (fetchWithRetry (tileUrl (tile c)) 3 250) (answers c) = []) ∧
  (∀ t b, (t, b) ∈ fetched ↔
          ∃ c, c ∈ completed p ∧ tile c = t ∧ outcome c = Some b) ∧
  uniqueImageHashes (shared p) =
    list_to_set (Base64.encode <$> fetched.*2) ∧
  (∀ b1 b2 : bytes, Base64.encode b1 = Base64.encode b2 ↔ b1 = b2) ∧
  uniqueItems (shared p) = kept.*1 ∧
  (∃ items,
     dedupeTimelineByImage timelineRaw concurrency schedule =
       Some (items, errors (shared p)) ∧
     Permutation items kept.*1) ∧
  kept `sublist_of` fetched ∧
  NoDup kept.*2 ∧
  (∀ b, b ∈ fetched.*2 ↔ b ∈ kept.*2) ∧
  (∀ l1 t b l2,
     fetched = l1 ++ (t, b) :: l2 → b ∉ l1.*2 →
     ∀ t', (t', b) ∈ kept ↔ t' = t).
Proof.
  intros Hrun. pose proof Hrun as (Hinv & _ & _)%runPool_invariant.
  simpl. split_and!.
  - intros Hn. by eapply runPool_all_settled.
  - intros c Hc. pose proof (inv_completed _ _ _ Hinv) as Hlog.
    rewrite Forall_forall in Hlog. by apply Hlog.
  - intros t b. unfold successes. rewrite list_elem_of_omap. split.
    + intros (c & Hc & Hout). exists c.
      destruct (outcome c) as [b'|]; [|done]. by injection Hout as <- <-.
    + intros (c & Hc & <- & Hout). exists c. by rewrite Hout.
  - apply Hinv.
  - intros b1 b2. split; [apply encode_inj | by intros ->].
  - apply Hinv.
  - eexists. split.
    + unfold dedupeTimelineByImage. by rewrite Hrun.
    + by rewrite Array_sort_Permutation, (inv_items _ _ _ Hinv).
  - apply keep_first_from_sublist.
  - apply keep_first_from_NoDup.
  - apply keep_first_contents.
  - intros l1 t b l2 -> Hb t'. unfold keep_first.
    apply keep_first_from_first; [by intros ?%elem_of_nil | done].
Qed.

Lemma dedupe_one_item_per_content_witness :
  ∃ p,
    runPool (candidates sampleRuntime sampleRequest sampleCatalog) 8
      repeatedSchedule = Some p ∧
    successes (completed p) =
      [ (sampleTile 30 "2015-09-09" 1441756800000, ["c"%byte]);
        (sampleTile 10 "2016-06-01" 1464739200000, ["a"%byte]);
        (sampleTile 20 "2014-02-20" 1392854400000, ["a"%byte]) ] ∧
    uniqueItems (shared p) =
      [ sampleTile 30 "2015-09-09" 1441756800000;
        sampleTile 10 "2016-06-01" 1464739200000 ] ∧
    Permutation (map tile (completed p))
      (candidates sampleRuntime sampleRequest sampleCatalog) ∧
    uniqueItems (shared p) = (keep_first (successes (completed p))).*1 ∧
    ∀ t', (t', ["a"%byte]) ∈ keep_first (successes (completed p)) ↔
          t' = sampleTile 10 "2016-06-01" 1464739200000.
Proof.
  eexists. split; [vm_compute; reflexivity|].
  split; [vm_compute; reflexivity|]. split; [vm_compute; reflexivity|].
  destruct (dedupe_one_item_per_content
              (candidates sampleRuntime sampleRequest sampleCatalog) 8
              repeatedSchedule _ ltac:(vm_compute; reflexivity))
    as (Hall & _ & _ & _ & _ & Hitems & _ & _ & _ & _ & Hfirst).
  split; [apply Hall; lia|]. split; [exact Hitems|].
  apply (Hfirst [ (sampleTile 30 "2015-09-09" 1441756800000, ["c"%byte]) ]
           (sampleTile 10 "2016-06-01" 1464739200000) ["a"%byte]
           [ (sampleTile 20 "2014-02-20" 1392854400000, ["a"%byte]) ]).
  - vm_compute. reflexivity.
  - intros [H|H]%elem_of_cons; [done | by apply elem_of_nil in H].
Defined.

(** C3, as the code has it: the timeline is in ascending order of release,
    and the sort is stable with respect to the order in which the items
    were retained, which is the order in which their downloads completed.
    Among the items of the timeline released at the same time, the order is
    that of completion.  The release timestamps of the catalog are epoch
    milliseconds that [Date] can hold; the comparator is then consistent,
    and the order of the ties is the one that a stable sort must give. *)
Theorem GET_ties_in_completion_order P request world body calls :
  datedCatalog (catalogQuery P request world).1 →
  GET P request world =
    Some ({| json := TimelineJson body; http_status := 200 |}, calls) →
  ∃ waybackItems p,
    (catalogQuery P request world).1 = Items waybackItems ∧
    runPool (candidates P request waybackItems) 8 (schedule world) = Some p ∧
    Sorted earlier (Body.timeline body) ∧
    ∀ k,
      filter (released_at k) (Body.timeline body) =
      filter (released_at k) (keep_first (successes (completed p))).*1.
Proof.
  intros Hdated HGET.
  apply GET_cases in HGET as
    [(_ & Hresp & _) | [(_ & _ & Hresp & _) |
     (items & p & _ & Hcat & Hrun & Hresp & _)]]; try done.
  exists items, p. split_and!; try done.
  - inversion Hresp; subst. simpl. rewrite Hcat in Hdated.
    pose proof Hrun as (Hinv & _ & _)%runPool_invariant.
    apply Array_sort_chronological_Sorted.
    eapply uniqueItems_dated; [done|]. by apply candidates_dated.
  - intros k. inversion Hresp; subst. simpl.
    pose proof Hrun as (Hinv & _ & _)%runPool_invariant.
    rewrite Array_sort_chronological_stable.
    by rewrite (inv_items _ _ _ Hinv).
Qed.

Lemma GET_ties_in_completion_order_witness :
  datedCatalog
    (catalogQuery sampleRuntime sampleRequest
       (sampleWorld tiedOlderCatalog tiedOlderSchedule)).1 ∧
  candidates sampleRuntime sampleRequest tiedOlderCatalog =
    [ sampleTile 10 "2014-02-20" 1392854400000;
      sampleTile 20 "2014-02-27" 1392854400000;
      sampleTile 30 "2013-11-05" 1383609600000 ] ∧
  ∃ body calls,
    GET sampleRuntime sampleRequest
      (sampleWorld tiedOlderCatalog tiedOlderSchedule) =
      Some ({| json := TimelineJson body; http_status := 200 |}, calls) ∧
    Body.timeline body =
      [ sampleTile 30 "2013-11-05" 1383609600000;
        sampleTile 20 "2014-02-27" 1392854400000;
        sampleTile 10 "2014-02-20" 1392854400000 ] ∧
    ∃ waybackItems p,
      (catalogQuery sampleRuntime sampleRequest
         (sampleWorld tiedOlderCatalog tiedOlderSchedule)).1 =
        Items waybackItems ∧
      runPool (candidates sampleRuntime sampleRequest waybackItems) 8
        tiedOlderSchedule = Some p ∧
      Sorted earlier (Body.timeline body) ∧
      ∀ k,
        filter (released_at k) (Body.timeline body) =
        filter (released_at k) (keep_first (successes (completed p))).*1.
Proof.
  assert (datedCatalog
            (catalogQuery sampleRuntime sampleRequest
               (sampleWorld tiedOlderCatalog tiedOlderSchedule)).1) as Hdated.
  { by apply (datedCatalog_Items tiedOlderCatalog). }
  split; [exact Hdated|]. split; [vm_compute; reflexivity|].
  eexists _, _. split; [vm_compute; reflexivity|].
  split; [vm_compute; reflexivity|].
  eapply (GET_ties_in_completion_order sampleRuntime sampleRequest
            (sampleWorld tiedOlderCatalog tiedOlderSchedule)); [exact Hdated|].
  vm_compute. reflexivity.
Defined.

(** C3, as the specification has it, fails: the catalog returns the
    snapshot of 2014-02-20 before that of 2014-02-27, both released at the
    same time and both retained, and the timeline has them the other way
    round. *)
Lemma GET_ties_not_in_catalog_order :
  candidates sampleRuntime sampleRequest tiedCatalog =
    [ sampleTile 10 "2014-02-20" 1392854400000;
      sampleTile 20 "2014-02-27" 1392854400000 ] ∧
  releaseDatetime (sampleTile 10 "2014-02-20" 1392854400000) =
    releaseDatetime (sampleTile 20 "2014-02-27" 1392854400000) ∧
  timelineOf
    (GET sampleRuntime sampleRequest (sampleWorld tiedCatalog tiedSchedule)) =
    Some [ sampleTile 20 "2014-02-27" 1392854400000;
           sampleTile 10 "2014-02-20" 1392854400000 ] ∧
  sampleTile 10 "2014-02-20" 1392854400000 ≠
    sampleTile 20 "2014-02-27" 1392854400000.
Proof.
  split_and!; [vm_compute; reflexivity .. | vm_compute; discriminate].
Qed.

Lemma elem_of_successes log c b :
  c ∈ log → outcome c = Some b → (tile c, b) ∈ successes log.
Proof.
  intros Hc Hb. unfold successes. apply list_elem_of_omap.
  exists c. by rewrite Hb.
Qed.

(* A download ends in failure exactly when it made three requests and all
   three failed. *)
Lemma completion_failed c :
  completion_ok c →
  outcome c = None ↔
  ∃ r1 r2 r3, answers c = [r1; r2; r3] ∧
    attempt r1 = None ∧ attempt r2 = None ∧ attempt r3 = None.
Proof.
  intros [Hrep Hun].
  destruct (fetchWithRetry_run _ _ _ Hrep Hun) as
    [(r1 & b & Hrs & H1 & Hout) | [(r1 & r2 & b & Hrs & H1 & H2 & Hout) |
     (r1 & r2 & r3 & Hrs & H1 & H2 & Hout)]]; rewrite Hrs, Hout.
  - split; [done|]. by intros (? & ? & ? & ? & _).
  - split; [done|]. by intros (? & ? & ? & ? & _).
  - split.
    + intros H3. by exists r1, r2, r3.
    + by intros (? & ? & ? & [= <- <- <-] & _ & _ & ?).
Qed.

Lemma completion_attempts c :
  completion_ok c → 1 ≤ length (answers c) ≤ 3.
Proof.
  intros [Hrep Hun].
  destruct (fetchWithRetry_run _ _ _ Hrep Hun) as
    [(r1 & b & -> & _) | [(r1 & r2 & b & -> & _) |
     (r1 & r2 & r3 & -> & _)]]; simpl; lia.
Qed.

(** C4, as the code has it: when the downloads have all settled, tiles that
    failed for good included, the handler answers 200.  [count] is the
    length of [timeline]; [errors] has one entry, with the URL of the tile,
    for every tile whose three attempts all failed; every candidate tile was
    settled; and [timeline] holds the fetched tiles except those whose bytes
    an earlier-completed tile already had: one item for every distinct
    content, the first tile that produced it.  Moreover, whatever has been
    delivered so far, the downloads can be brought to an end. *)
Theorem GET_isolates_tile_failures P request world waybackItems p :
  rejects P request = false →
  (catalogQuery P request world).1 = Items waybackItems →
  runPool (candidates P request waybackItems) 8 (schedule world) = Some p →
  ∃ body calls,
    GET P request world =
      Some ({| json := TimelineJson body; http_status := 200 |}, calls) ∧
    Body.count body = length (Body.timeline body) ∧
    Permutation (map tile (completed p)) (candidates P request waybackItems) ∧
    (∀ c, c ∈ completed p →
       outcome c = None ↔
       ∃ r1 r2 r3, answers c = [r1; r2; r3] ∧
         attempt r1 = None ∧ attempt r2 = None ∧ attempt r3 = None) ∧
    Body.errors body = fetch_failed <$> failures (completed p) ∧
    Permutation (Body.timeline body)
      (keep_first (successes (completed p))).*1 ∧
    (∀ l1 t b l2,
       successes (completed p) = l1 ++ (t, b) :: l2 → b ∉ l1.*2 →
       t ∈ Body.timeline body) ∧
    (∀ schedule0 p0,
       run (candidates P request waybackItems)
         (start (candidates P request waybackItems) 8) schedule0 = Some p0 →
       ∃ rest p',
         runPool (candidates P request waybackItems) 8 (schedule0 ++ rest) =
         Some p').
Proof.
  intros Hrej Hcat Hrun.
  pose proof Hrun as (Hinv & _ & _)%runPool_invariant.
  eexists _, _. split.
  { rewrite (GET_catalog_items _ _ _ _ Hrej Hcat), Hrun. reflexivity. }
  simpl. split_and!.
  - done.
  - by eapply runPool_all_settled; [|done]; lia.
  - intros c Hc. apply completion_failed.
    by eapply Forall_forall; [apply (inv_completed _ _ _ Hinv)|].
  - apply Hinv.
  - rewrite Array_sort_Permutation. by rewrite (inv_items _ _ _ Hinv).
  - intros l1 t b l2 Hsplit Hb.
    rewrite Array_sort_Permutation, (inv_items _ _ _ Hinv).
    apply list_elem_of_fmap. exists (t, b). split; [done|].
    unfold keep_first. rewrite Hsplit.
    apply keep_first_from_first; [by intros ?%elem_of_nil | done..].
  - intros schedule0 p0. apply runPool_completes.
Qed.

Lemma GET_isolates_tile_failures_witness :
  ∃ p,
    rejects sampleRuntime sampleRequest = false ∧
    (catalogQuery sampleRuntime sampleRequest
       (sampleWorld unchangedCatalog unchangedSchedule)).1 =
      Items unchangedCatalog ∧
    runPool (candidates sampleRuntime sampleRequest unchangedCatalog) 8
      unchangedSchedule = Some p ∧
    ∃ body calls,
      GET sampleRuntime sampleRequest
        (sampleWorld unchangedCatalog unchangedSchedule) =
        Some ({| json := TimelineJson body; http_status := 200 |}, calls) ∧
      Body.count body = length (Body.timeline body).
Proof.
  eexists. split; [reflexivity|]. split; [reflexivity|].
  split; [vm_compute; reflexivity|].
  destruct (GET_isolates_tile_failures sampleRuntime sampleRequest
              (sampleWorld unchangedCatalog unchangedSchedule)
              unchangedCatalog _ eq_refl eq_refl
              ltac:(vm_compute; reflexivity))
    as (body & calls & HGET & Hcount & _).
  by exists body, calls.
Defined.

(** C4, as the specification has it, fails: the tiles of 2015-09-09 and
    2016-06-01 are both fetched, the tile of 2014-02-20 fails, and the
    timeline holds the tile of 2015-09-09 only. *)
Lemma GET_drops_a_fetched_tile :
  option_map (fun p => successes (completed p))
    (runPool (candidates sampleRuntime sampleRequest unchangedCatalog) 8
       unchangedSchedule) =
    Some [ (sampleTile 20 "2015-09-09" 1441756800000, ["x"%byte]);
           (sampleTile 30 "2016-06-01" 1464739200000, ["x"%byte]) ] ∧
  timelineOf
    (GET sampleRuntime sampleRequest
       (sampleWorld unchangedCatalog unchangedSchedule)) =
    Some [ sampleTile 20 "2015-09-09" 1441756800000 ] ∧
  errorsOf
    (GET sampleRuntime sampleRequest
       (sampleWorld unchangedCatalog unchangedSchedule)) =
    Some [ fetch_failed (sampleTile 10 "2014-02-20" 1392854400000) ] ∧
  sampleTile 30 "2016-06-01" 1464739200000 ≠
    sampleTile 20 "2015-09-09" 1441756800000.
Proof.
  split_and!; [vm_compute; reflexivity .. | vm_compute; discriminate].
Qed.

Lemma fetchWithRetry_two_pauses target r1 r2 rs :
  attempt r1 = None → attempt r2 = None →
  waits (effects (fetchWithRetry target 3 250) (r1 :: r2 :: rs)) =
  [250; 500]%Z.
Proof.
  unfold fetchWithRetry, attempt.
  destruct r1 as [|[s1 [b1|]]], r2 as [|[s2 [b2|]]]; simpl;
    repeat first
      [ done
      | destruct (ok {| status := s1; arrayBuffer := _ |}); simpl
      | destruct (ok {| status := s2; arrayBuffer := _ |}); simpl
      | destruct rs as [|[|[s3 [b3|]]] rs]; simpl
      | destruct (ok {| status := s3; arrayBuffer := _ |}); simpl ].
Qed.

(** C5, as the code has it: [fetchWithRetry] makes at most three requests,
    counts a network failure and a status outside 200-299 as a failed
    attempt, and pauses 250 ms after the first and 500 ms after the second
    failure.  A tile whose download fails twice and succeeds at the third
    attempt yields its bytes and adds nothing to [errors]; its content is in
    the timeline, and the tile itself is in the timeline unless a tile that
    completed earlier had the same bytes. *)
Theorem retried_tile_is_fetched timelineRaw concurrency schedule p c
    r1 r2 r3 b :
  runPool timelineRaw concurrency schedule = Some p →
  c ∈ completed p →
  answers c = [r1; r2; r3] →
  attempt r1 = None → attempt r2 = None → attempt r3 = Some b →
  let download := fetchWithRetry (tileUrl (tile c)) 3 250 in
  let timeline := Array_sort chronological (uniqueItems (shared p)) in
  (∀ rs,
     fetched (effects download rs) `prefix_of`
       [tileUrl (tile c); tileUrl (tile c); tileUrl (tile c)] ∧
     waits (effects download rs) `prefix_of` [250; 500]%Z) ∧
  (∀ r, r = Rejected ∨ (∃ resp, r = Resolved resp ∧ ok resp = false) →
     attempt r = None) ∧
  (∀ c', c' ∈ completed p → 1 ≤ length (answers c') ≤ 3) ∧
  waits (effects download (answers c)) = [250; 500]%Z ∧
  replay download (answers c) = Return (Some b) ∧
  outcome c = Some b ∧
  errors (shared p) = fetch_failed <$> failures (completed p) ∧
  failures [c] = [] ∧
  (∃ t, (t, b) ∈ keep_first (successes (completed p)) ∧ t ∈ timeline) ∧
  (∀ l1 l2,
     successes (completed p) = l1 ++ (tile c, b) :: l2 → b ∉ l1.*2 →
     tile c ∈ timeline).
Proof.
  intros Hrun Hc Hanswers H1 H2 H3.
  pose proof Hrun as (Hinv & _ & _)%runPool_invariant.
  pose proof (inv_completed _ _ _ Hinv) as Hlog.
  rewrite Forall_forall in Hlog.
  pose proof (Hlog c Hc) as [Hrep Hun].
  assert (outcome c = Some b) as Hout.
  { rewrite Hanswers, fetchWithRetry_result, H1, H2, H3 in Hrep.
    by inversion Hrep. }
  cbv zeta. split_and!.
  - intros rs.
    destruct (fetchWithRetry_effects (tileUrl (tile c)) rs) as (Hf & Hw & _).
    by split.
  - intros r [-> | (resp & -> & Hok)]; [done|]. simpl. by rewrite Hok.
  - intros c' Hc'. by apply completion_attempts, Hlog.
  - rewrite Hanswers. by apply fetchWithRetry_two_pauses.
  - by rewrite Hrep, Hout.
  - done.
  - apply Hinv.
  - unfold failures. simpl. by rewrite Hout.
  - pose proof (elem_of_successes _ _ _ Hc Hout) as Hin.
    assert (b ∈ (keep_first (successes (completed p))).*2) as Hkept.
    { apply (proj1 (keep_first_contents _ _)), list_elem_of_fmap.
      exists (tile c, b). by split. }
    apply list_elem_of_fmap in Hkept as ([t b'] & -> & Hkept).
    exists t. split; [done|].
    rewrite Array_sort_Permutation, (inv_items _ _ _ Hinv).
    apply list_elem_of_fmap. by exists (t, b').
  - intros l1 l2 Hsplit Hb.
    rewrite Array_sort_Permutation, (inv_items _ _ _ Hinv).
    apply list_elem_of_fmap. exists (tile c, b). split; [done|].
    unfold keep_first. rewrite Hsplit.
    apply keep_first_from_first; [by intros ?%elem_of_nil | done..].
Qed.

Lemma retried_tile_is_fetched_witness :
  ∃ p,
    runPool (candidates sampleRuntime sampleRequest retryCatalog) 8
      retrySchedule = Some p ∧
    retriedCompletion ∈ completed p ∧
    attempt unavailable = None ∧ attempt Rejected = None ∧
    attempt (image ["x"%byte]) = Some ["x"%byte] ∧
    errors (shared p) = fetch_failed <$> failures (completed p).
Proof.
  eexists. split; [vm_compute; reflexivity|].
  assert (retriedCompletion ∈
          [ {| tile := sampleTile 10 "2014-02-20" 1392854400000;
               answers := [image ["x"%byte]];
               outcome := Some ["x"%byte] |};
            retriedCompletion ]) as Hin.
  { apply elem_of_cons. right. apply elem_of_cons. by left. }
  split; [exact Hin|]. do 3 (split; [reflexivity|]).
  eapply (retried_tile_is_fetched
            (candidates sampleRuntime sampleRequest retryCatalog) 8
            retrySchedule _ retriedCompletion
            unavailable Rejected (image ["x"%byte]) ["x"%byte]);
    [vm_compute; reflexivity | exact Hin | reflexivity..].
Defined.

(** C5, as the specification has it, fails: the download of the tile of
    2015-09-09 fails twice and succeeds at the third attempt, and the tile
    is neither in [errors] nor in the timeline, which holds the tile of
    2014-02-20 with the same bytes. *)
Lemma GET_drops_a_retried_tile :
  option_map completed
    (runPool (candidates sampleRuntime sampleRequest retryCatalog) 8
       retrySchedule) =
    Some [ {| tile := sampleTile 10 "2014-02-20" 1392854400000;
              answers := [image ["x"%byte]];
              outcome := Some ["x"%byte] |};
           retriedCompletion ] ∧
  attempt unavailable = None ∧ attempt Rejected = None ∧
  attempt (image ["x"%byte]) = Some ["x"%byte] ∧
  timelineOf
    (GET sampleRuntime sampleRequest (sampleWorld retryCatalog retrySchedule)) =
    Some [ sampleTile 10 "2014-02-20" 1392854400000 ] ∧
  errorsOf
    (GET sampleRuntime sampleRequest (sampleWorld retryCatalog retrySchedule)) =
    Some [] ∧
  tile retriedCompletion ≠ sampleTile 10 "2014-02-20" 1392854400000.
Proof.
  split_and!; [vm_compute; reflexivity .. | vm_compute; discriminate].
Qed.

(** C8, as the code has it: for every input the result has [z = zoom], and
    [x] and [y] are what the two formulas give when every operation is
    carried out in binary64, in the order of the code, with [Math.PI] for
    pi and with the power, the floor, the logarithm, the tangent and the
    cosine of the runtime.  Nothing is checked and nothing is clamped: at
    longitude 180 and zoom 3 the column is 8, one past the last column, on
    every runtime that has the power and the floor exact there, and the
    north pole on the antimeridian at zoom 3 gets the column 8 and the
    row -45. *)
Theorem latLngToTile_binary64 P lat lng zoom :
  let latRad := (lat * Math_PI / 180)%float in
  let n := Math_pow P 2 zoom in
  latLngToTile P lat lng zoom =
    {| TileCoords.x := Math_floor P (n * ((lng + 180) / 360))%float;
       TileCoords.y :=
         Math_floor P
           (n * (1 - Math_log P (Math_tan P latRad + 1 / Math_cos P latRad)
                     / Math_PI) / 2)%float;
       TileCoords.z := zoom |} ∧
  (Math_pow P 2 3 = 8%float → Math_floor P 8 = 8%float →
   TileCoords.x (latLngToTile P lat 180 3) = 8%float) ∧
  latLngToTile edgeRuntime 90 180 3 =
    {| TileCoords.x := 8; TileCoords.y := (-45); TileCoords.z := 3 |}.
Proof.
  cbv zeta. split_and!.
  - reflexivity.
  - intros Hpow Hfloor. cbn [latLngToTile TileCoords.x]. rewrite Hpow.
    change (8 * ((180 + 180) / 360))%float with 8%float. exact Hfloor.
  - vm_compute. reflexivity.
Qed.

Lemma latLngToTile_binary64_witness :
  Math_pow edgeRuntime 2 3 = 8%float ∧
  Math_floor edgeRuntime 8 = 8%float ∧
  TileCoords.x (latLngToTile edgeRuntime 46.5 180 3) = 8%float.
Proof.
  split; [reflexivity|]. split; [reflexivity|].
  apply (latLngToTile_binary64 edgeRuntime 46.5 0 3); reflexivity.
Defined.

(** C8, as the specification has it, fails: for the longitude -2^-60, just
    west of the prime meridian, and zoom 1 the floor of the real number
    [2^zoom * (lng + 180) / 360] is the column 0, and the code gives the
    column 1 on every runtime that has the power and the floor exact there:
    the sum [lng + 180] is rounded to 180.  So the column that the code
    returns is not the floor of the real number. *)
Lemma latLngToTile_not_the_real_floor :
  exact justWest = Some (-1 # 1152921504606846976)%Q ∧
  xTile_real (-1 # 1152921504606846976) 1 = 0%Z ∧
  (∀ P lat,
     Math_pow P 2 1 = 2%float → Math_floor P 1 = 1%float →
     TileCoords.x (latLngToTile P lat justWest 1) = 1%float) ∧
  TileCoords.x (latLngToTile edgeRuntime 46.5 justWest 1) = 1%float ∧
  exact (TileCoords.x (latLngToTile edgeRuntime 46.5 justWest 1)) ≠
    option_map (fun lng => inject_Z (xTile_real lng 1)) (exact justWest).
Proof.
  split_and!; try (vm_compute; reflexivity).
  - intros P lat Hpow Hfloor. cbn [latLngToTile TileCoords.x]. rewrite Hpow.
    change (2 * ((justWest + 180) / 360))%float with 1%float. exact Hfloor.
  - vm_compute. discriminate.
Qed.

(* ================================================================== *)
(** * Part V: further properties of the code *)
(* ================================================================== *)

(** ** [fetchWithRetry] with any number of attempts *)

Section retry_facts.
Variables (target : string) (attempts : nat) (delayMs : Z).

#[local] Abbreviation loop n i := (fetchWithRetry_loop n target attempts delayMs i).

(* One failed attempt that is not the last: the loop pauses and goes on. *)
Lemma loop_failed_attempt n i r rs :
  failed r → i ≠ attempts →
  replay (loop (S n) i) (r :: rs) = replay (loop n (S i)) rs ∧
  unused (loop (S n) i) (r :: rs) = unused (loop n (S i)) rs ∧
  fetched (effects (loop (S n) i) (r :: rs)) =
    target :: fetched (effects (loop n (S i)) rs) ∧
  waits (effects (loop (S n) i) (r :: rs)) =
    (delayMs * Z.of_nat i)%Z :: waits (effects (loop n (S i)) rs).
Proof.
  intros Hr Hi. apply Nat.eqb_neq in Hi.
  unfold failed, attempt in Hr.
  cbn [fetchWithRetry_loop replay unused effects]. rewrite Hi.
  destruct r as [|resp]; [done|].
  destruct (ok resp); [|done].
  cbn [replay unused effects]. rewrite Hr. done.
Qed.

(* The last attempt fails: the loop returns null at once. *)
Lemma loop_last_attempt n r rs :
  failed r →
  replay (loop (S n) attempts) (r :: rs) = Return None ∧
  unused (loop (S n) attempts) (r :: rs) = rs ∧
  fetched (effects (loop (S n) attempts) (r :: rs)) = [target] ∧
  waits (effects (loop (S n) attempts) (r :: rs)) = [].
Proof.
  intros Hr. unfold failed, attempt in Hr.
  cbn [fetchWithRetry_loop replay unused effects]. rewrite Nat.eqb_refl.
  destruct r as [|resp]; [done|].
  destruct (ok resp); [|done].
  cbn [replay unused effects]. rewrite Hr. done.
Qed.

(* An attempt succeeds: the loop returns its bytes. *)
Lemma loop_successful_attempt n i r b rs :
  attempt r = Some b →
  replay (loop (S n) i) (r :: rs) = Return (Some b) ∧
  unused (loop (S n) i) (r :: rs) = rs ∧
  fetched (effects (loop (S n) i) (r :: rs)) = [target] ∧
  waits (effects (loop (S n) i) (r :: rs)) = [].
Proof.
  intros Hr. unfold attempt in Hr.
  cbn [fetchWithRetry_loop replay unused effects].
  destruct r as [|resp]; [done|].
  destruct (ok resp); [|done].
  cbn [replay unused effects]. rewrite Hr. done.
Qed.

Lemma loop_failures fails : ∀ n i rs,
  Forall failed fails →
  i + length fails ≤ attempts →
  let t := loop (length fails + n) i in
  let t' := loop n (i + length fails) in
  replay t (fails ++ rs) = replay t' rs ∧
  unused t (fails ++ rs) = unused t' rs ∧
  fetched (effects t (fails ++ rs)) =
    replicate (length fails) target ++ fetched (effects t' rs) ∧
  waits (effects t (fails ++ rs)) =
    pauses delayMs i (length fails) ++ waits (effects t' rs).
Proof.
  induction fails as [|r fails IH]; intros n i rs Hfails Hle; cbn zeta.
  - cbn [length app replicate]. rewrite Nat.add_0_r. done.
  - apply Forall_cons in Hfails as [Hr Hfails].
    cbn [length] in *.
    destruct (loop_failed_attempt (length fails + n) i r (fails ++ rs) Hr)
      as (H1 & H2 & H3 & H4); [lia|].
    destruct (IH n (S i) rs Hfails) as (I1 & I2 & I3 & I4); [lia|].
    cbn zeta in *.
    replace (i + S (length fails)) with (S i + length fails) by lia.
    change (S (length fails) + n) with (S (length fails + n)).
    change ((r :: fails) ++ rs) with (r :: (fails ++ rs)).
    rewrite H1, H2, H3, H4, I1, I2, I3, I4. done.
Qed.

End retry_facts.

(** X1: whatever the number of attempts and the delay, when every attempt
    fails [fetchWithRetry] returns null after exactly [attempts] requests to
    the URL, having paused [delayMs * i] after the failed attempt [i] for
    every attempt but the last; results beyond these are not asked for. *)
Theorem fetchWithRetry_gives_up target attempts delayMs fails rest :
  Forall failed fails →
  length fails = attempts →
  let download := fetchWithRetry target attempts delayMs in
  replay download (fails ++ rest) = Return None ∧
  unused download (fails ++ rest) = rest ∧
  fetched (effects download (fails ++ rest)) = replicate attempts target ∧
  waits (effects download (fails ++ rest)) = pauses delayMs 1 (attempts - 1).
Proof.
  intros Hfails Hlen. cbn zeta. unfold fetchWithRetry.
  destruct (decide (fails = [])) as [->|Hne].
  - cbn in Hlen. subst attempts. done.
  - destruct (exists_last Hne) as (init & r & ->).
    apply Forall_app in Hfails as [Hinit Hr].
    apply Forall_inv in Hr.
    rewrite length_app in Hlen. cbn [length] in Hlen.
    rewrite <- app_assoc. cbn [app].
    assert (attempts = length init + 1) as -> by lia.
    destruct (loop_failures target (length init + 1) delayMs init 1 1
                (r :: rest) Hinit) as (H1 & H2 & H3 & H4); [lia|].
    cbn zeta in *. rewrite (Nat.add_comm 1 (length init)) in H1, H2, H3, H4.
    destruct (loop_last_attempt target (length init + 1) delayMs 0 r rest Hr)
      as (L1 & L2 & L3 & L4).
    rewrite H1, H2, H3, H4, L1, L2, L3, L4.
    replace (length init + 1 - 1) with (length init) by lia.
    split_and!; [done | done | | by rewrite app_nil_r].
    by rewrite replicate_add.
Qed.

Lemma fetchWithRetry_gives_up_witness :
  Forall failed [unavailable; Rejected; unavailable; Rejected; unavailable] ∧
  replay (fetchWithRetry "u" 5 100)
    [unavailable; Rejected; unavailable; Rejected; unavailable] = Return None ∧
  waits (effects (fetchWithRetry "u" 5 100)
    [unavailable; Rejected; unavailable; Rejected; unavailable]) =
  [100; 200; 300; 400]%Z.
Proof.
  assert (Forall failed
            [unavailable; Rejected; unavailable; Rejected; unavailable]) as H.
  { repeat constructor. }
  split; [exact H|].
  pose proof (fetchWithRetry_gives_up "u" 5 100
    [unavailable; Rejected; unavailable; Rejected; unavailable] [] H eq_refl)
    as (H1 & _ & _ & H4).
  rewrite app_nil_r in H1, H4. split; [exact H1 | exact H4].
Defined.

(** X2: whatever the number of attempts and the delay, when the attempts
    fail up to one that succeeds within the limit, [fetchWithRetry] returns
    the bytes of that response, has made one request per attempt so far, has
    paused [delayMs * i] after each failed attempt [i], and makes no further
    request. *)
Theorem fetchWithRetry_first_success target attempts delayMs fails r b rest :
  Forall failed fails →
  length fails < attempts →
  attempt r = Some b →
  let download := fetchWithRetry target attempts delayMs in
  replay download (fails ++ r :: rest) = Return (Some b) ∧
  unused download (fails ++ r :: rest) = rest ∧
  fetched (effects download (fails ++ r :: rest)) =
    replicate (S (length fails)) target ∧
  waits (effects download (fails ++ r :: rest)) =
    pauses delayMs 1 (length fails).
Proof.
  intros Hfails Hlen Hr. cbn zeta. unfold fetchWithRetry.
  destruct (loop_failures target attempts delayMs fails
              (attempts - length fails) 1 (r :: rest) Hfails)
    as (H1 & H2 & H3 & H4); [lia|].
  cbn zeta in *.
  replace (length fails + (attempts - length fails)) with attempts in * by lia.
  destruct (attempts - length fails) as [|n] eqn:Hn; [lia|].
  destruct (loop_successful_attempt target attempts delayMs n
              (1 + length fails) r b rest Hr) as (L1 & L2 & L3 & L4).
  rewrite H1, H2, H3, H4, L1, L2, L3, L4.
  split_and!; [done | done | | by rewrite app_nil_r].
  replace (S (length fails)) with (length fails + 1) by lia.
  by rewrite replicate_add.
Qed.

Lemma fetchWithRetry_first_success_witness :
  Forall failed [unavailable; Rejected; unavailable] ∧
  3 < 5 ∧
  attempt (image ["x"%byte]) = Some ["x"%byte] ∧
  replay (fetchWithRetry "u" 5 100)
    [unavailable; Rejected; unavailable; image ["x"%byte]; Rejected] =
    Return (Some ["x"%byte]) ∧
  waits (effects (fetchWithRetry "u" 5 100)
    [unavailable; Rejected; unavailable; image ["x"%byte]; Rejected]) =
  [100; 200; 300]%Z.
Proof.
  assert (Forall failed [unavailable; Rejected; unavailable]) as H.
  { repeat constructor. }
  split; [exact H|]. split; [lia|]. split; [reflexivity|].
  pose proof (fetchWithRetry_first_success "u" 5 100
    [unavailable; Rejected; unavailable] (image ["x"%byte]) ["x"%byte]
    [Rejected] H ltac:(cbn; lia) eq_refl) as (H1 & _ & _ & H4).
  split; [exact H1 | exact H4].
Defined.

(** ** How many signals a run takes *)

Lemma run_measure timelineRaw concurrency schedule : ∀ p p' m,
  invariant timelineRaw concurrency p →
  measure timelineRaw p m →
  run timelineRaw p schedule = Some p' →
  ∃ m', measure timelineRaw p' m' ∧ m' + length schedule ≤ m.
Proof.
  induction schedule as [|e schedule IH]; intros p p' m Hinv Hm Hrun;
    simpl in *.
  - inversion Hrun; subst. exists m. split; [done | lia].
  - destruct (step timelineRaw p e) as [p1|] eqn:Hstep; [|done].
    destruct (measure_step _ _ _ _ _ _ Hinv Hm Hstep) as (m1 & Hm1 & Hlt).
    pose proof (invariant_step _ _ _ _ _ Hinv Hstep) as Hinv1.
    destruct (IH _ _ _ Hinv1 Hm1 Hrun) as (m' & Hm' & Hle).
    exists m'. split; [done | lia].
Qed.

(** X3: the downloads take a bounded number of signals: after any sequence
    of settled requests, read bodies and fired timers, at most eight have
    been delivered for every tile claimed so far, hence at most eight times
    the number of candidate tiles in all. *)
Theorem pool_schedule_bound timelineRaw concurrency schedule p :
  run timelineRaw (start timelineRaw concurrency) schedule = Some p →
  length schedule ≤ 8 * index (shared p) ∧
  index (shared p) ≤ length timelineRaw.
Proof.
  intros Hrun.
  pose proof (invariant_run _ _ _ _ _ (invariant_start _ _) Hrun) as Hinv.
  destruct (run_measure _ _ _ _ _ _ (invariant_start _ _)
              (measure_start timelineRaw concurrency) Hrun)
    as (m' & (bs & _ & ->) & Hle).
  pose proof (inv_index _ _ _ Hinv). lia.
Qed.

Lemma pool_schedule_bound_witness :
  ∃ p,
    run (candidates sampleRuntime sampleRequest sampleCatalog)
      (start (candidates sampleRuntime sampleRequest sampleCatalog) 8)
      sampleSchedule = Some p ∧
    length sampleSchedule ≤ 8 * index (shared p).
Proof.
  eexists. split; [vm_compute; reflexivity|].
  eapply (pool_schedule_bound
            (candidates sampleRuntime sampleRequest sampleCatalog) 8
            sampleSchedule).
  vm_compute; reflexivity.
Defined.

(** ** The pool at its start *)

Lemma spawn_workers timelineRaw concurrency : ∀ s,
  index s ≤ length timelineRaw →
  (spawn timelineRaw concurrency s).2 =
    (claim <$> take concurrency (drop (index s) timelineRaw)) ++
    replicate (concurrency - (length timelineRaw - index s)) Finished ∧
  index (spawn timelineRaw concurrency s).1 =
    (index s + concurrency) `min` length timelineRaw.
Proof.
  induction concurrency as [|n IH]; intros s Hle.
  - cbn. split; [done | lia].
  - cbn [spawn]. unfold worker.
    destruct (timelineRaw !! index s) as [current|] eqn:Hcur.
    + pose proof (lookup_lt_Some _ _ _ Hcur) as Hlt.
      match goal with |- context [spawn _ _ ?s1] =>
        destruct (IH s1) as [IHw IHi]; [simpl; lia|] end.
      destruct (spawn _ _ _) as [s2 ws]. cbn [fst snd index] in *.
      rewrite (drop_S _ _ _ Hcur). cbn [take fmap list_fmap app].
      rewrite IHw, IHi. split.
      * unfold claim at 2. f_equal. f_equal. f_equal. lia.
      * lia.
    + pose proof (lookup_ge_None_1 _ _ Hcur) as Hge.
      destruct (IH s Hle) as [IHw IHi].
      destruct (spawn _ _ _) as [s2 ws]. cbn [fst snd] in *.
      rewrite IHw, IHi.
      rewrite (drop_ge timelineRaw (index s)) by lia.
      rewrite !take_nil. cbn [fmap list_fmap app].
      replace (length timelineRaw - index s) with 0 by lia.
      rewrite !Nat.sub_0_r. split; [done | lia].
Qed.

Lemma inFlight_claims (l : list Tile) n :
  length (filter (fun w => in_flight w = true)
            ((claim <$> l) ++ replicate n Finished)) = length l.
Proof.
  induction l as [|t l IH]; cbn [fmap list_fmap app].
  - induction n as [|n IHn]; [done|]. cbn [replicate].
    rewrite filter_cons_False; [done|]. cbn. done.
  - rewrite filter_cons_True by done. cbn [length]. by rewrite IH.
Qed.

(** X4: the pool starts with its first [concurrency] workers (all of them
    when the tiles are that many) suspended at the first request of the
    tiles [0], [1], ... of the list in this order, and with the other
    workers already out of their loop; so the number of requests opened at
    once is the smaller of the pool size and the number of tiles, and
    nothing has been kept or reported yet. *)
Theorem pool_start timelineRaw concurrency :
  let p := start timelineRaw concurrency in
  workers p =
    (claim <$> take concurrency timelineRaw) ++
    replicate (concurrency - length timelineRaw) Finished ∧
  index (shared p) = concurrency `min` length timelineRaw ∧
  inFlight p = concurrency `min` length timelineRaw ∧
  uniqueItems (shared p) = [] ∧ errors (shared p) = [] ∧ completed p = [].
Proof.
  cbn zeta. unfold start.
  pose proof (spawn_workers timelineRaw concurrency
    {| index := 0; uniqueImageHashes := ∅; uniqueItems := []; errors := [] |})
    as [Hw Hi]; [simpl; lia|].
  pose proof (spawn_spec timelineRaw concurrency
    {| index := 0; uniqueImageHashes := ∅; uniqueItems := []; errors := [] |})
    as Hspec.
  destruct (spawn _ _ _) as [s ws]. cbn [fst snd index shared workers completed] in *.
  destruct Hspec as (_ & Hitems & Herrors & _); [lia|].
  rewrite drop_0, Nat.sub_0_r in Hw. subst ws.
  split_and!; try done.
  unfold inFlight. cbn [workers]. rewrite inFlight_claims, length_take. lia.
Qed.

(** ** What the pool has kept stays *)

Lemma settle_grows current buf s :
  index (settle current buf s) = index s ∧
  uniqueItems s `prefix_of` uniqueItems (settle current buf s) ∧
  errors s `prefix_of` errors (settle current buf s) ∧
  uniqueImageHashes s ⊆ uniqueImageHashes (settle current buf s).
Proof.
  unfold settle. destruct buf as [buf|]; [case_decide|]; cbn;
    split_and!; try done; try (by apply prefix_app_r); set_solver.
Qed.

Lemma worker_keeps timelineRaw s :
  index s ≤ index (worker timelineRaw s).1 ∧
  uniqueItems (worker timelineRaw s).1 = uniqueItems s ∧
  errors (worker timelineRaw s).1 = errors s ∧
  uniqueImageHashes (worker timelineRaw s).1 = uniqueImageHashes s.
Proof.
  unfold worker. destruct (timelineRaw !! index s); cbn; split_and!; try done; lia.
Qed.

Lemma step_grows timelineRaw p e p' :
  step timelineRaw p e = Some p' →
  uniqueItems (shared p) `prefix_of` uniqueItems (shared p') ∧
  errors (shared p) `prefix_of` errors (shared p') ∧
  uniqueImageHashes (shared p) ⊆ uniqueImageHashes (shared p') ∧
  index (shared p) ≤ index (shared p') ∧
  completed p `prefix_of` completed p'.
Proof.
  unfold step.
  destruct (workers p !! e.1) as [[|current received t]|]; try done.
  destruct (advance t received e.2) as [[t' received']|]; try done.
  intros [= <-].
  destruct t' as [buf|u k|resp k|ms k]; cbn [resume shared completed];
    try done.
  destruct (settle_grows current buf (shared p)) as (Hi & Hu & He & Hh).
  destruct (worker_keeps timelineRaw (settle current buf (shared p)))
    as (Wi & Wu & We & Wh).
  destruct (worker timelineRaw (settle current buf (shared p))) as [s next].
  cbn [fst shared completed] in *.
  rewrite Wu, We, Wh. split_and!; try done; [lia | by apply prefix_app_r].
Qed.

(** X5: the pool only adds to what it has: over any further signals the
    items kept so far stay where they are in [uniqueItems], the failures
    reported so far stay where they are in [errors], no hash leaves the set,
    and the cursor does not go back. *)
Theorem pool_only_grows timelineRaw schedule : ∀ p p',
  run timelineRaw p schedule = Some p' →
  uniqueItems (shared p) `prefix_of` uniqueItems (shared p') ∧
  errors (shared p) `prefix_of` errors (shared p') ∧
  uniqueImageHashes (shared p) ⊆ uniqueImageHashes (shared p') ∧
  index (shared p) ≤ index (shared p') ∧
  completed p `prefix_of` completed p'.
Proof.
  induction schedule as [|e schedule IH]; intros p p' Hrun; simpl in Hrun.
  - by inversion Hrun; subst.
  - destruct (step timelineRaw p e) as [p1|] eqn:Hstep; [|done].
    destruct (step_grows _ _ _ _ Hstep) as (S1 & S2 & S3 & S4 & S5).
    destruct (IH _ _ Hrun) as (I1 & I2 & I3 & I4 & I5).
    split_and!; [by etrans | by etrans | set_solver | lia | by etrans].
Qed.

Lemma pool_only_grows_witness :
  ∃ p p',
    run (candidates sampleRuntime sampleRequest sampleCatalog)
      (start (candidates sampleRuntime sampleRequest sampleCatalog) 8)
      (take 4 sampleSchedule) = Some p ∧
    run (candidates sampleRuntime sampleRequest sampleCatalog) p
      (drop 4 sampleSchedule) = Some p' ∧
    uniqueItems (shared p) `prefix_of` uniqueItems (shared p').
Proof.
  eexists _, _. split; [vm_compute; reflexivity|].
  split; [vm_compute; reflexivity|].
  eapply (pool_only_grows
            (candidates sampleRuntime sampleRequest sampleCatalog)
            (drop 4 sampleSchedule)).
  vm_compute; reflexivity.
Defined.

(** ** The pool of one worker *)

Lemma sequential_start timelineRaw : sequential timelineRaw (start timelineRaw 1).
Proof.
  unfold start. cbn [spawn].
  pose proof (worker_spec timelineRaw
    {| index := 0; uniqueImageHashes := ∅; uniqueItems := []; errors := [] |})
    as Hw.
  destruct (worker _ _) as [s w]. cbn [index] in Hw.
  destruct Hw as (_ & _ & _ & Hle & Htake & _ & Hfin & _); [lia|].
  exists w. cbn [shared workers completed]. split_and!; try done.
Qed.

Lemma sequential_step timelineRaw p e p' :
  sequential timelineRaw p →
  step timelineRaw p e = Some p' →
  sequential timelineRaw p'.
Proof.
  intros (w & Hws & Hle & Htake & Hfin). unfold step. rewrite Hws.
  destruct e as [[|i] sig]; cbn [fst snd]; [|done]. cbn [lookup list_lookup].
  destruct w as [|current received t]; [done|].
  destruct (advance t received sig) as [[t' received']|]; [|done].
  intros [= <-]. cbn [holding omap list_omap] in Htake.
  assert (sequential timelineRaw
            {| shared := shared p;
               workers := <[0 := Suspended current received' t']> (workers p);
               completed := completed p |}) as Hkeep.
  { exists (Suspended current received' t'). rewrite Hws.
    cbn [shared workers completed]. split_and!; done. }
  destruct t' as [buf|u k|resp k|ms k]; cbn [resume]; try exact Hkeep.
  destruct (settle_grows current buf (shared p)) as (Hi & _).
  pose proof (worker_spec timelineRaw (settle current buf (shared p))) as Hw.
  destruct (worker _ _) as [s next].
  destruct Hw as (_ & _ & _ & Hle' & Htake' & _ & Hfin' & _); [lia|].
  exists next. rewrite Hws. cbn [shared workers completed].
  split_and!; try done.
  rewrite Htake', Hi, <- Htake, map_app. cbn. by rewrite <- !app_assoc.
Qed.

Lemma sequential_run timelineRaw schedule : ∀ p p',
  sequential timelineRaw p →
  run timelineRaw p schedule = Some p' →
  sequential timelineRaw p'.
Proof.
  induction schedule as [|e schedule IH]; intros p p' Hp Hrun; simpl in Hrun.
  - by inversion Hrun; subst.
  - destruct (step timelineRaw p e) as [p1|] eqn:Hstep; [|done].
    eapply IH; [|done]. by eapply sequential_step.
Qed.

(** X6: with a pool of one worker the tiles are downloaded one after the
    other in the order of the list.  The downloads complete in that order;
    so the item kept for a content is the first tile of the list that has
    it, the items of the result that were released at the same time stand
    in the order of the list, and so do the entries of [errors].  The
    release timestamps of the tiles are epoch milliseconds that [Date] can
    hold, for which the comparator of the sort is consistent. *)
Theorem one_worker_in_order timelineRaw schedule items errs :
  Forall dated timelineRaw →
  dedupeTimelineByImage timelineRaw 1 schedule = Some (items, errs) →
  ∃ p,
    runPool timelineRaw 1 schedule = Some p ∧
    map tile (completed p) = timelineRaw ∧
    items =
      Array_sort chronological (keep_first (successes (completed p))).*1 ∧
    Sorted earlier items ∧
    (∀ k, filter (released_at k) items `sublist_of`
          filter (released_at k) timelineRaw) ∧
    errs = fetch_failed <$> failures (completed p) ∧
    failures (completed p) `sublist_of` timelineRaw.
Proof.
  intros Hdated. unfold dedupeTimelineByImage.
  destruct (runPool timelineRaw 1 schedule) as [p|] eqn:Hpool; [|done].
  intros [= <- <-]. exists p.
  destruct (runPool_invariant _ _ _ _ Hpool) as (Hinv & Hall & Hrun).
  destruct (sequential_run _ _ _ _ (sequential_start timelineRaw) Hrun)
    as (w & Hws & _ & Htake & Hfin).
  assert (w = Finished) as ->.
  { unfold all_finished in Hall. rewrite Hws in Hall. cbn in Hall.
    destruct w; [done|]. done. }
  cbn [holding omap list_omap] in Htake.
  rewrite app_nil_r, (Hfin eq_refl), firstn_all in Htake.
  rewrite (inv_items _ _ _ Hinv), (inv_errors _ _ _ Hinv).
  split_and!; try done.
  - apply Array_sort_chronological_Sorted.
    rewrite <- (inv_items _ _ _ Hinv). by eapply uniqueItems_dated.
  - intros k. rewrite Array_sort_chronological_stable.
    apply filter_sublist. rewrite <- Htake at 1. apply keep_first_sublist.
  - rewrite <- Htake at 1. apply failures_sublist.
Qed.

Lemma one_worker_in_order_witness :
  Forall dated (candidates sampleRuntime sampleRequest tiedOlderCatalog) ∧
  ∃ items errs p,
    dedupeTimelineByImage
      (candidates sampleRuntime sampleRequest tiedOlderCatalog) 1
      sequentialSchedule = Some (items, errs) ∧
    runPool (candidates sampleRuntime sampleRequest tiedOlderCatalog) 1
      sequentialSchedule = Some p ∧
    map tile (completed p) =
      candidates sampleRuntime sampleRequest tiedOlderCatalog ∧
    items =
      [ sampleTile 30 "2013-11-05" 1383609600000;
        sampleTile 10 "2014-02-20" 1392854400000;
        sampleTile 20 "2014-02-27" 1392854400000 ] ∧
    Sorted earlier items.
Proof.
  assert (Forall dated
            (candidates sampleRuntime sampleRequest tiedOlderCatalog))
    as Hdated.
  { by apply candidates_dated, datedCatalog_Items. }
  split; [exact Hdated|].
  destruct (one_worker_in_order
              (candidates sampleRuntime sampleRequest tiedOlderCatalog)
              sequentialSchedule
              [ sampleTile 30 "2013-11-05" 1383609600000;
                sampleTile 10 "2014-02-20" 1392854400000;
                sampleTile 20 "2014-02-27" 1392854400000 ] [] Hdated)
    as (p & Hp & Hlog & _ & Hsorted & _); [vm_compute; reflexivity|].
  eexists _, [], p.
  split; [vm_compute; reflexivity|]. split; [exact Hp|].
  split; [exact Hlog|]. split; [reflexivity | exact Hsorted].
Defined.

(** X7: a pool of no workers fetches nothing.  [Promise.all] of the empty
    array resolves at once, and the result is an empty list of items and an
    empty list of errors, whatever the candidate tiles. *)
Theorem no_worker_no_result timelineRaw schedule r :
  dedupeTimelineByImage timelineRaw 0 schedule = Some r ↔
  schedule = [] ∧ r = ([], []).
Proof.
  unfold dedupeTimelineByImage, runPool. split.
  - destruct schedule as [|e schedule]; cbn.
    + by intros [= <-].
    + unfold step. cbn. by rewrite lookup_nil.
  - by intros [-> ->].
Qed.

(** ** How many items are kept *)

(** X8: the number of items in the result is the number of distinct
    images among the tiles that were fetched, whatever the order in which
    the downloads completed and whatever the size of the pool; [errors] has
    one entry for every tile that was not fetched; and with at least one
    worker every tile of the list is one or the other. *)
Theorem dedupe_counts_distinct_images timelineRaw concurrency schedule
    items errs :
  dedupeTimelineByImage timelineRaw concurrency schedule = Some (items, errs) →
  ∃ p,
    runPool timelineRaw concurrency schedule = Some p ∧
    length items = length (remove_dups (successes (completed p)).*2) ∧
    length errs = length (failures (completed p)) ∧
    (0 < concurrency →
     length (successes (completed p)) + length errs = length timelineRaw).
Proof.
  unfold dedupeTimelineByImage.
  destruct (runPool timelineRaw concurrency schedule) as [p|] eqn:Hpool;
    [|done].
  intros [= <- <-]. exists p.
  destruct (runPool_invariant _ _ _ _ Hpool) as (Hinv & Hall & Hrun).
  rewrite (inv_items _ _ _ Hinv), (inv_errors _ _ _ Hinv).
  split_and!; [done | | by rewrite length_fmap |].
  - rewrite (Permutation_length (Array_sort_Permutation _ _)).
    rewrite length_fmap, <- (length_fmap snd).
    apply Permutation_length, NoDup_Permutation.
    + apply keep_first_from_NoDup.
    + apply NoDup_remove_dups.
    + intros b. rewrite elem_of_remove_dups. symmetry.
      apply keep_first_contents.
  - intros Hn. rewrite length_fmap.
    pose proof (runPool_all_settled _ _ _ _ Hn Hpool) as Hperm.
    apply Permutation_length in Hperm.
    pose proof (Permutation_length (successes_failures (completed p))) as Hsf.
    rewrite length_app, !length_fmap, ?length_map in Hsf.
    rewrite ?length_map in Hperm. lia.
Qed.

Lemma dedupe_counts_distinct_images_witness :
  ∃ items errs p,
    dedupeTimelineByImage
      (candidates sampleRuntime sampleRequest unchangedCatalog) 8
      unchangedSchedule = Some (items, errs) ∧
    runPool (candidates sampleRuntime sampleRequest unchangedCatalog) 8
      unchangedSchedule = Some p ∧
    length items = length (remove_dups (successes (completed p)).*2) ∧
    length items = 1 ∧ length (successes (completed p)) = 2.
Proof.
  destruct (dedupe_counts_distinct_images
              (candidates sampleRuntime sampleRequest unchangedCatalog) 8
              unchangedSchedule
              [ sampleTile 20 "2015-09-09" 1441756800000 ]
              [ fetch_failed (sampleTile 10 "2014-02-20" 1392854400000) ])
    as (p & Hp & Hcount & _); [vm_compute; reflexivity|].
  eexists _, _, p. split; [vm_compute; reflexivity|].
  split; [exact Hp|]. split; [exact Hcount|]. split; [reflexivity|].
  revert Hp. vm_compute. intros [= <-]. reflexivity.
Defined.

(** ** The requests behind an answer *)

Lemma fetchCalls_cons c log :
  fetchCalls (c :: log) =
  map (fun _ => CallFetch (tileUrl (tile c))) (answers c) ++ fetchCalls log.
Proof. done. Qed.

Lemma fetchCalls_length log :
  Forall completion_ok log →
  length log ≤ length (fetchCalls log) ≤ 3 * length log.
Proof.
  induction 1 as [|c log Hc _ IH]; [cbn; lia|].
  rewrite fetchCalls_cons, length_app, length_map. cbn [length].
  pose proof (completion_attempts c Hc). lia.
Qed.

Lemma elem_of_fetchCalls log call :
  Forall completion_ok log →
  call ∈ fetchCalls log ↔ ∃ c, c ∈ log ∧ call = CallFetch (tileUrl (tile c)).
Proof.
  induction 1 as [|c log Hc _ IH].
  - split; [by intros ?%elem_of_nil | by intros (c & ?%elem_of_nil & _)].
  - rewrite fetchCalls_cons, elem_of_app, IH. split.
    + intros [Hin | (c' & Hin & ->)].
      * apply list_elem_of_In, in_map_iff in Hin as (r & <- & _).
        exists c. split; [by left | done].
      * exists c'. split; [by right | done].
    + intros (c' & Hin & ->). apply elem_of_cons in Hin as [-> | Hin].
      * left. pose proof (completion_attempts c Hc) as [Hlen _].
        destruct (answers c) as [|r rs]; [cbn in Hlen; lia|]. by left.
      * right. by exists c'.
Qed.

Lemma GET_answered P request world body calls :
  GET P request world = Some (answered body, calls) →
  ∃ waybackItems p,
    rejects P request = false ∧
    (catalogQuery P request world).1 = Items waybackItems ∧
    runPool (candidates P request waybackItems) 8 (schedule world) = Some p ∧
    answered body = success P request p ∧
    calls = (catalogQuery P request world).2 :: fetchCalls (completed p).
Proof.
  intros [(_ & [=] & _) | [(_ & _ & [=] & _) | H]]%GET_cases. exact H.
Qed.

(** X9: what an answer 200 has cost.  The handler made the catalog query
    first and then only requests for the URLs of the candidate tiles: at
    least one and at most three for every tile, so between [n] and [3 n]
    requests for a catalog of [n] snapshots. *)
Theorem GET_call_budget P request world body calls :
  GET P request world = Some (answered body, calls) →
  ∃ waybackItems fetches,
    (catalogQuery P request world).1 = Items waybackItems ∧
    calls = (catalogQuery P request world).2 :: fetches ∧
    length waybackItems ≤ length fetches ≤ 3 * length waybackItems ∧
    ∀ call, call ∈ fetches ↔
      ∃ t, t ∈ candidates P request waybackItems ∧
           call = CallFetch (tileUrl t).
Proof.
  intros (waybackItems & p & _ & Hitems & Hpool & _ & ->)%GET_answered.
  exists waybackItems, (fetchCalls (completed p)).
  destruct (runPool_invariant _ _ _ _ Hpool) as (Hinv & _ & _).
  pose proof (inv_completed _ _ _ Hinv) as Hok.
  assert (0 < 8) as Hworkers by lia.
  pose proof (runPool_all_settled _ _ _ _ Hworkers Hpool) as Hperm.
  split_and!; try done.
  - pose proof (fetchCalls_length _ Hok) as [Hlo _].
    apply Permutation_length in Hperm.
    rewrite length_map in Hperm. unfold candidates in Hperm.
    rewrite length_map in Hperm. lia.
  - pose proof (fetchCalls_length _ Hok) as [_ Hhi].
    apply Permutation_length in Hperm.
    rewrite length_map in Hperm. unfold candidates in Hperm.
    rewrite length_map in Hperm. lia.
  - intros call. rewrite (elem_of_fetchCalls _ _ Hok). split.
    + intros (c & Hin & ->). exists (tile c). split; [|done].
      rewrite <- Hperm. apply list_elem_of_In, in_map, list_elem_of_In, Hin.
    + intros (t & Hin & ->). rewrite <- Hperm in Hin.
      apply list_elem_of_In, in_map_iff in Hin as (c & <- & Hin).
      exists c. split; [by apply list_elem_of_In | done].
Qed.

Lemma GET_call_budget_witness :
  ∃ body calls fetches,
    GET sampleRuntime sampleRequest (sampleWorld sampleCatalog sampleSchedule) =
      Some (answered body, calls) ∧
    calls = CallGetWaybackItems :: fetches ∧
    length sampleCatalog ≤ length fetches ≤ 3 * length sampleCatalog.
Proof.
  eexists _, _, _. split; [vm_compute; reflexivity|].
  split; [reflexivity|].
  edestruct (GET_call_budget sampleRuntime sampleRequest
               (sampleWorld sampleCatalog sampleSchedule))
    as (items & fetches & Hitems & Hcalls & Hlen & _);
    [vm_compute; reflexivity|].
  injection Hitems as <-. injection Hcalls as <-. exact Hlen.
Defined.

(** X10: an answer 200 holds nothing that the catalog did not list.  The
    items of the timeline together with the tiles reported in [errors] are
    among the candidate tiles, each candidate being used at most once; so
    [count] and the number of errors add up to at most the number of
    snapshots of the catalog. *)
Theorem GET_answer_from_catalog P request world body calls :
  GET P request world = Some (answered body, calls) →
  ∃ waybackItems unfetched,
    (catalogQuery P request world).1 = Items waybackItems ∧
    Body.errors body = fetch_failed <$> unfetched ∧
    Body.timeline body ++ unfetched ⊆+ candidates P request waybackItems ∧
    Body.count body + length (Body.errors body) ≤ length waybackItems.
Proof.
  intros (waybackItems & p & _ & Hitems & Hpool & Hbody & _)%GET_answered.
  exists waybackItems, (failures (completed p)).
  destruct (runPool_invariant _ _ _ _ Hpool) as (Hinv & _ & _).
  assert (0 < 8) as Hworkers by lia.
  pose proof (runPool_all_settled _ _ _ _ Hworkers Hpool) as Hperm.
  injection Hbody as ->. cbn [Body.errors Body.timeline Body.count].
  assert (Array_sort chronological (uniqueItems (shared p)) ++
            failures (completed p) ⊆+
          candidates P request waybackItems) as Hsub.
  { rewrite <- Hperm, <- successes_failures.
    apply submseteq_skips_r.
    rewrite (Array_sort_Permutation chronological _), (inv_items _ _ _ Hinv).
    apply sublist_submseteq, fmap_sublist, keep_first_from_sublist. }
  split_and!; [done | apply (inv_errors _ _ _ Hinv) | done |].
  apply submseteq_length in Hsub. rewrite length_app in Hsub.
  unfold candidates in Hsub. rewrite length_map in Hsub.
  rewrite (inv_errors _ _ _ Hinv), length_fmap. lia.
Qed.

Lemma GET_answer_from_catalog_witness :
  ∃ body calls,
    GET sampleRuntime sampleRequest
      (sampleWorld unchangedCatalog unchangedSchedule) =
      Some (answered body, calls) ∧
    Body.count body + length (Body.errors body) ≤ length unchangedCatalog.
Proof.
  eexists _, _. split; [vm_compute; reflexivity|].
  edestruct (GET_answer_from_catalog sampleRuntime sampleRequest
               (sampleWorld unchangedCatalog unchangedSchedule))
    as (items & unfetched & Hitems & _ & _ & Hlen);
    [vm_compute; reflexivity|].
  injection Hitems as <-. exact Hlen.
Defined.

(** X11: an empty catalog is no error.  The handler answers 200 with
    [count] 0, an empty timeline and no errors, having made the catalog
    query and no other request; and no download signal can be delivered. *)
Theorem GET_empty_catalog P request world :
  rejects P request = false →
  (catalogQuery P request world).1 = Items [] →
  (schedule world = [] →
   ∃ body,
     GET P request world =
       Some (answered body, [(catalogQuery P request world).2]) ∧
     Body.count body = 0 ∧ Body.timeline body = [] ∧ Body.errors body = []) ∧
  (∀ resp calls,
     GET P request world = Some (resp, calls) → schedule world = []).
Proof.
  intros Hrej Hitems. rewrite (GET_catalog_items _ _ _ _ Hrej Hitems).
  split.
  - intros ->. eexists. split; [reflexivity|]. done.
  - intros resp calls. destruct (schedule world) as [|e rest]; [done|].
    unfold runPool. cbn [candidates map run]. unfold step.
    cbn [start spawn worker lookup list_lookup index shared workers].
    destruct e as [i sig]. cbn [fst].
    do 8 (destruct i as [|i]; [done|]). done.
Qed.

Lemma GET_empty_catalog_witness :
  rejects sampleRuntime sampleRequest = false ∧
  (catalogQuery sampleRuntime sampleRequest (sampleWorld [] [])).1 = Items [] ∧
  ∃ body,
    GET sampleRuntime sampleRequest (sampleWorld [] []) =
      Some (answered body, [CallGetWaybackItems]) ∧
    Body.count body = 0 ∧ Body.timeline body = [] ∧ Body.errors body = [].
Proof.
  split; [reflexivity|]. split; [reflexivity|].
  apply (GET_empty_catalog sampleRuntime sampleRequest (sampleWorld [] []));
    reflexivity.
Defined.

(** X12: the answer is 400 exactly when the latitude or the longitude of
    the query reads as zero or as no number at all; text that [parseFloat]
    cannot read is reported like an absent parameter.  The answer 400 has
    the body "Missing latitude or longitude" and is given without any
    request. *)
Theorem GET_bad_request_iff P request world resp calls :
  GET P request world = Some (resp, calls) →
  (http_status resp = 400%Z ↔
   is_zero (queryLat P request) ∨ is_NaN (queryLat P request) ∨
   is_zero (queryLng P request) ∨ is_NaN (queryLng P request)) ∧
  (http_status resp = 400%Z →
   json resp = ErrorJson "Missing latitude or longitude" ∧ calls = []).
Proof.
  assert (rejects P request = true ↔
          is_zero (queryLat P request) ∨ is_NaN (queryLat P request) ∨
          is_zero (queryLng P request) ∨ is_NaN (queryLng P request)) as Hrej.
  { unfold rejects, falsy, is_zero, is_NaN.
    rewrite !orb_true_iff, !negb_true_iff. tauto. }
  intros [(Hr & -> & ->) | [(Hr & _ & -> & _) | (items & p & Hr & _ & _ & -> & _)]]%GET_cases.
  - split; [|done]. split; [intros _; by apply Hrej | done].
  - split; [|done]. split; [done|].
    intros H%Hrej. by rewrite H in Hr.
  - split; [|done]. split; [done|].
    intros H%Hrej. by rewrite H in Hr.
Qed.

Lemma GET_bad_request_iff_witness :
  ∃ resp calls,
    GET sampleRuntime [("lat", "north"); ("lng", "7.75")]
      (sampleWorld sampleCatalog sampleSchedule) = Some (resp, calls) ∧
    is_NaN (queryLat sampleRuntime [("lat", "north"); ("lng", "7.75")]) ∧
    http_status resp = 400%Z.
Proof.
  eexists _, _. split; [vm_compute; reflexivity|].
  assert (is_NaN (queryLat sampleRuntime [("lat", "north"); ("lng", "7.75")]))
    as Hnan by reflexivity.
  split; [exact Hnan|].
  apply (GET_bad_request_iff sampleRuntime [("lat", "north"); ("lng", "7.75")]
           (sampleWorld sampleCatalog sampleSchedule) _ _ eq_refl).
  right. left. exact Hnan.
Defined.

(** ** Templates of the usual shape, and templates without placeholders *)

Section template_shapes.
Import JsString.
#[local] Arguments Ascii.eqb : simpl never.

Lemma all_chars_app P s t :
  all_chars P (s +:+ t) = all_chars P s && all_chars P t.
Proof.
  induction s as [|c s IH]; [done|]. rewrite app_cons. cbn [all_chars].
  by rewrite IH, andb_assoc.
Qed.

Lemma brace_free_app s t :
  brace_free s = true → brace_free t = true → brace_free (s +:+ t) = true.
Proof. unfold brace_free. rewrite all_chars_app. by intros -> ->. Qed.

Lemma replace_absent pat rep s :
  occurrences pat s = 0 → replace pat rep s = s.
Proof.
  induction s as [|c s IH]; rewrite occurrences_unfold, replace_unfold;
    destruct (starts_with pat _); try done.
  intros H. by rewrite IH.
Qed.

(* The first placeholder after plain text is the one that is replaced. *)
Lemma replace_after_plain u r y t :
  brace_free y = true →
  replace (String "{" u) r (y +:+ String "{" u +:+ t) = y +:+ r +:+ t.
Proof. intros Hy. by rewrite replace_past_plain, replace_hit. Qed.

Lemma resolveTemplate_in_order pre m1 m2 post level row col :
  brace_free pre = true → brace_free m1 = true → brace_free m2 = true →
  brace_free level = true → brace_free row = true →
  resolveTemplate
    (pre +:+ "{level}" +:+ m1 +:+ "{row}" +:+ m2 +:+ "{col}" +:+ post)
    level row col =
  pre +:+ level +:+ m1 +:+ row +:+ m2 +:+ col +:+ post.
Proof.
  intros Hpre Hm1 Hm2 Hlevel Hrow. unfold resolveTemplate.
  rewrite (replace_after_plain "level}" level pre) by done.
  rewrite <- (string_app_assoc level m1), <- (string_app_assoc pre).
  rewrite (replace_after_plain "row}" row (pre +:+ level +:+ m1))
    by auto using brace_free_app.
  rewrite <- (string_app_assoc row m2),
    <- (string_app_assoc (pre +:+ level +:+ m1)).
  rewrite (replace_after_plain "col}" col ((pre +:+ level +:+ m1) +:+ row +:+ m2))
    by auto using brace_free_app.
  by rewrite !string_app_assoc.
Qed.

Lemma resolveTemplate_absent itemURL level row col :
  (∀ p, p ∈ placeholders → occurrences p itemURL = 0) →
  resolveTemplate itemURL level row col = itemURL.
Proof.
  intros H. unfold resolveTemplate.
  rewrite (replace_absent "{level}") by (apply H; set_solver).
  rewrite (replace_absent "{row}") by (apply H; set_solver).
  apply replace_absent, H. set_solver.
Qed.

End template_shapes.

(** X13: for a template of the usual shape, where [{level}], [{row}] and
    [{col}] come in this order and no other opening brace stands before
    [{col}], and for a zoom level and a row that print without a brace, the
    tile URL is the template with the zoom level, the row and the column of
    the tile in the place of the three placeholders, whatever follows
    them. *)
Theorem materialize_usual_template P tileCoords item pre m1 m2 post :
  WaybackItem.itemURL item =
    pre +:+ "{level}" +:+ m1 +:+ "{row}" +:+ m2 +:+ "{col}" +:+ post →
  JsString.brace_free pre = true →
  JsString.brace_free m1 = true →
  JsString.brace_free m2 = true →
  JsString.brace_free (Number_toString P (TileCoords.z tileCoords)) = true →
  JsString.brace_free (Number_toString P (TileCoords.y tileCoords)) = true →
  tileUrl (materialize P tileCoords item) =
    pre +:+ Number_toString P (TileCoords.z tileCoords) +:+
    m1 +:+ Number_toString P (TileCoords.y tileCoords) +:+
    m2 +:+ Number_toString P (TileCoords.x tileCoords) +:+ post.
Proof.
  intros Hurl Hpre Hm1 Hm2 Hz Hy. cbn [materialize tileUrl]. rewrite Hurl.
  by apply resolveTemplate_in_order.
Qed.

Lemma materialize_usual_template_witness :
  WaybackItem.itemURL (snapshot 10 "2016-06-01" 1464739200000) =
    "https://wayback.example/tile/2016-06-01/" +:+ "{level}" +:+ "/" +:+
    "{row}" +:+ "/" +:+ "{col}" +:+ "" ∧
  tileUrl (materialize sampleRuntime sampleCoords
             (snapshot 10 "2016-06-01" 1464739200000)) =
  "https://wayback.example/tile/2016-06-01/15/11591/17089".
Proof.
  split; [reflexivity|].
  apply (materialize_usual_template sampleRuntime sampleCoords
           (snapshot 10 "2016-06-01" 1464739200000)
           "https://wayback.example/tile/2016-06-01/" "/" "/" "");
    reflexivity.
Defined.

(** X14: a template in which none of the three placeholders occurs is the
    tile URL as it stands: the materializer does not complain, and every
    tile coordinate gets the same URL. *)
Theorem materialize_without_placeholders P tileCoords item :
  (∀ p, p ∈ placeholders →
     JsString.occurrences p (WaybackItem.itemURL item) = 0) →
  tileUrl (materialize P tileCoords item) = WaybackItem.itemURL item.
Proof. intros H. cbn [materialize tileUrl]. by apply resolveTemplate_absent. Qed.

Lemma materialize_without_placeholders_witness :
  (∀ p, p ∈ placeholders →
     JsString.occurrences p "https://wayback.example/{z}/{y}/{x}.png" = 0) ∧
  tileUrl (materialize sampleRuntime sampleCoords
    {| WaybackItem.releaseNum := 1;
       WaybackItem.releaseDateLabel := "";
       WaybackItem.releaseDatetime := 0;
       WaybackItem.itemTitle := "";
       WaybackItem.itemURL := "https://wayback.example/{z}/{y}/{x}.png";
       WaybackItem.layerIdentifier := "" |}) =
  "https://wayback.example/{z}/{y}/{x}.png".
Proof.
  assert (∀ p, p ∈ placeholders →
     JsString.occurrences p "https://wayback.example/{z}/{y}/{x}.png" = 0) as H.
  { intros p Hp. unfold placeholders in Hp.
    repeat (apply elem_of_cons in Hp as [-> | Hp]; [reflexivity|]).
    by apply elem_of_nil in Hp. }
  split; [exact H|].
  apply (materialize_without_placeholders sampleRuntime sampleCoords
    {| WaybackItem.releaseNum := 1;
       WaybackItem.releaseDateLabel := "";
       WaybackItem.releaseDatetime := 0;
       WaybackItem.itemTitle := "";
       WaybackItem.itemURL := "https://wayback.example/{z}/{y}/{x}.png";
       WaybackItem.layerIdentifier := "" |} H).
Defined.

(** ** Stepping through the images *)

Section navigation.
Variable timeline : list Tile.

#[local] Abbreviation len := (Z.of_nat (length timeline)).

Lemma goToNext_mod i :
  (0 ≤ i < len)%Z → goToNext timeline i = ((i + 1) mod len)%Z.
Proof.
  intros Hi. unfold goToNext.
  destruct (Z.ltb_spec i (len - 1)) as [Hlt | Hge].
  - by rewrite Z.mod_small by lia.
  - replace (i + 1)%Z with len by lia. by rewrite Z_mod_same_full.
Qed.

Lemma goToPrevious_mod i :
  (0 ≤ i < len)%Z → goToPrevious timeline i = ((i - 1) mod len)%Z.
Proof.
  intros Hi. unfold goToPrevious. rewrite Z.gtb_ltb.
  destruct (Z.ltb_spec 0 i) as [Hlt | Hge].
  - by rewrite Z.mod_small by lia.
  - apply (Z.mod_unique_pos _ _ (-1)); lia.
Qed.

Lemma currentImage_in_range i :
  (0 ≤ i < len)%Z → is_Some (currentImage timeline i).
Proof.
  intros Hi. unfold currentImage.
  destruct (Z.ltb_spec i 0) as [Hlt | Hge]; [lia|].
  apply lookup_lt_is_Some. lia.
Qed.

End navigation.

(** X15: in a viewer that shows an image, the two arrows keep the index
    inside the timeline, so there is always an image to show; they wrap
    around at the ends, and each undoes the other. *)
Theorem navigation_stays_in_range timeline i :
  (0 ≤ i < Z.of_nat (length timeline))%Z →
  (0 ≤ goToNext timeline i < Z.of_nat (length timeline))%Z ∧
  (0 ≤ goToPrevious timeline i < Z.of_nat (length timeline))%Z ∧
  is_Some (currentImage timeline (goToNext timeline i)) ∧
  is_Some (currentImage timeline (goToPrevious timeline i)) ∧
  goToPrevious timeline (goToNext timeline i) = i ∧
  goToNext timeline (goToPrevious timeline i) = i.
Proof.
  intros Hi.
  assert ((0 ≤ goToNext timeline i < Z.of_nat (length timeline))%Z) as Hn.
  { unfold goToNext. case_match; lia. }
  assert ((0 ≤ goToPrevious timeline i < Z.of_nat (length timeline))%Z) as Hp.
  { unfold goToPrevious. case_match; lia. }
  split; [exact Hn|]. split; [exact Hp|].
  split; [by apply currentImage_in_range|].
  split; [by apply currentImage_in_range|].
  split; unfold goToPrevious, goToNext; rewrite !Z.gtb_ltb;
    [destruct (Z.ltb_spec i (Z.of_nat (length timeline) - 1))
    |destruct (Z.ltb_spec 0 i)];
    repeat match goal with
           | |- context [(?a <? ?b)%Z] => destruct (Z.ltb_spec a b)
           end; lia.
Qed.

Lemma navigation_stays_in_range_witness :
  (0 ≤ 1 < Z.of_nat (length (candidates sampleRuntime sampleRequest tiedCatalog)))%Z ∧
  goToNext (candidates sampleRuntime sampleRequest tiedCatalog) 1%Z = 0%Z ∧
  goToPrevious (candidates sampleRuntime sampleRequest tiedCatalog)
    (goToNext (candidates sampleRuntime sampleRequest tiedCatalog) 1%Z) = 1%Z.
Proof.
  assert ((0 ≤ 1 < Z.of_nat
             (length (candidates sampleRuntime sampleRequest tiedCatalog)))%Z)
    as H by (cbn; lia).
  split; [exact H|]. split; [reflexivity|].
  apply (navigation_stays_in_range
           (candidates sampleRuntime sampleRequest tiedCatalog) 1%Z H).
Defined.

(** X16: pressing the forward arrow [k] times moves the index [k] places
    forward modulo the length of the timeline, and the backward arrow [k]
    places back; as many presses as there are images lead back to the image
    one started from. *)
Theorem navigation_cycles timeline i k :
  (0 ≤ i < Z.of_nat (length timeline))%Z →
  Nat.iter k (goToNext timeline) i =
    ((i + Z.of_nat k) mod Z.of_nat (length timeline))%Z ∧
  Nat.iter k (goToPrevious timeline) i =
    ((i - Z.of_nat k) mod Z.of_nat (length timeline))%Z ∧
  Nat.iter (length timeline) (goToNext timeline) i = i ∧
  Nat.iter (length timeline) (goToPrevious timeline) i = i.
Proof.
  intros Hi.
  assert (∀ k, Nat.iter k (goToNext timeline) i =
               ((i + Z.of_nat k) mod Z.of_nat (length timeline))%Z) as Hnext.
  { clear k. induction k as [|k IH].
    - cbn. rewrite Z.add_0_r, Z.mod_small; done.
    - rewrite Nat.iter_succ, IH.
      rewrite goToNext_mod by (apply Z.mod_pos_bound; lia).
      rewrite Z.add_mod_idemp_l by lia. f_equal. lia. }
  assert (∀ k, Nat.iter k (goToPrevious timeline) i =
               ((i - Z.of_nat k) mod Z.of_nat (length timeline))%Z) as Hprev.
  { clear k. induction k as [|k IH].
    - cbn. rewrite Z.sub_0_r, Z.mod_small; done.
    - rewrite Nat.iter_succ, IH.
      rewrite goToPrevious_mod by (apply Z.mod_pos_bound; lia).
      rewrite Zminus_mod_idemp_l. f_equal. lia. }
  split_and!; [apply Hnext | apply Hprev | |].
  - rewrite Hnext.
    rewrite <- (Z.mul_1_l (Z.of_nat (length timeline))) at 1.
    rewrite Z.mod_add by lia. by apply Z.mod_small.
  - rewrite Hprev.
    replace (i - Z.of_nat (length timeline))%Z
      with (i + (-1) * Z.of_nat (length timeline))%Z by lia.
    rewrite Z.mod_add by lia. by apply Z.mod_small.
Qed.

Lemma navigation_cycles_witness :
  (0 ≤ 1 < Z.of_nat (length (candidates sampleRuntime sampleRequest sampleCatalog)))%Z ∧
  Nat.iter 5 (goToNext (candidates sampleRuntime sampleRequest sampleCatalog))
    1%Z = 0%Z.
Proof.
  assert ((0 ≤ 1 < Z.of_nat
             (length (candidates sampleRuntime sampleRequest sampleCatalog)))%Z)
    as H by (cbn; lia).
  split; [exact H|].
  destruct (navigation_cycles
              (candidates sampleRuntime sampleRequest sampleCatalog) 1%Z 5 H)
    as (Hnext & _).
  rewrite Hnext. reflexivity.
Defined.

(** ** The viewer served by the route *)

Lemma fetchCalls_are_fetches log call :
  call ∈ fetchCalls log → ∃ target, call = CallFetch target.
Proof.
  induction log as [|c log IH]; [by intros ?%elem_of_nil|].
  rewrite fetchCalls_cons, elem_of_app. intros [Hin | Hin]; [|by apply IH].
  apply list_elem_of_In, in_map_iff in Hin as (r & <- & _). eauto.
Qed.

Lemma waybackQuery_mode P latitude longitude world :
  catalogQuery P (waybackQuery P latitude longitude) world =
  (getWaybackItems world, CallGetWaybackItems).
Proof. reflexivity. Qed.

Lemma waybackQuery_zoom P latitude longitude :
  queryZoom P (waybackQuery P latitude longitude) = parseInt P "18".
Proof. reflexivity. Qed.

Lemma Sorted_earlier_head first timeline t :
  Sorted earlier (first :: timeline) → t ∈ first :: timeline → earlier first t.
Proof.
  intros Hsorted Hin.
  apply Sorted_StronglySorted in Hsorted;
    [|intros a b c; unfold earlier; lia].
  apply StronglySorted_inv in Hsorted as [_ Hall].
  apply elem_of_cons in Hin as [-> | Hin]; [unfold earlier; lia|].
  rewrite Forall_forall in Hall. by apply Hall.
Qed.

(** X17: the viewer cannot show a place on the equator or on the prime
    meridian.  A coordinate that prints as [0] makes the route answer 400,
    whatever the catalog holds, and the viewer ends with the error "Failed
    to fetch satellite imagery", its timeline and index left as they
    were. *)
Theorem viewer_fails_on_zero_coordinate P world latitude longitude st :
  is_zero (parseFloat P "0") →
  Number_toString P latitude = "0" ∨ Number_toString P longitude = "0" →
  fetchTimeline P (route P world) latitude longitude st = loadFailed st.
Proof.
  intros Hzero Hprinted.
  assert (GET P (waybackQuery P latitude longitude) world =
          Some (badRequest, [])) as HGET.
  { apply GET_rejects. unfold rejects, queryLat, queryLng, waybackQuery.
    cbn [searchParams_get find fst snd String.eqb Ascii.eqb Bool.eqb andb].
    unfold is_zero in Hzero.
    destruct Hprinted as [-> | ->]; cbn [or_else]; unfold falsy;
      rewrite Hzero; cbn [orb]; [done|].
    by rewrite orb_true_r. }
  unfold fetchTimeline, route. by rewrite HGET.
Qed.

Lemma viewer_fails_on_zero_coordinate_witness :
  is_zero (parseFloat viewerRuntime "0") ∧
  Number_toString viewerRuntime 0 = "0" ∧
  fetchTimeline viewerRuntime
    (route viewerRuntime (sampleWorld sampleCatalog sampleSchedule))
    0 7.75 initialViewer =
  loadFailed initialViewer.
Proof.
  split; [reflexivity|]. split; [reflexivity|].
  apply (viewer_fails_on_zero_coordinate viewerRuntime
           (sampleWorld sampleCatalog sampleSchedule) 0 7.75 initialViewer);
    [reflexivity | left; reflexivity].
Defined.

(** X18: a load that ends without an error leaves the viewer with the
    timeline of an answer 200 of the route, in ascending order of release,
    and with the index at 0: the image shown first is the oldest one, none
    of the timeline was released before it.  The release timestamps of the
    catalog are epoch milliseconds that [Date] can hold. *)
Theorem viewer_shows_oldest_first P world latitude longitude st :
  let st' := fetchTimeline P (route P world) latitude longitude st in
  datedCatalog (getWaybackItems world) →
  Viewer.loading st' = false →
  Viewer.error st' = None →
  ∃ body calls,
    GET P (waybackQuery P latitude longitude) world =
      Some (answered body, calls) ∧
    Viewer.timeline st' = Some (Body.timeline body) ∧
    Viewer.currentIndex st' = 0%Z ∧
    Sorted earlier (Body.timeline body) ∧
    ∀ first t,
      currentImage (Body.timeline body) (Viewer.currentIndex st') = Some first →
      t ∈ Body.timeline body → earlier first t.
Proof.
  cbn zeta. intros Hdated. unfold fetchTimeline, route.
  destruct (GET P (waybackQuery P latitude longitude) world)
    as [[resp calls]|] eqn:HGET; [|done].
  destruct (GET_cases _ _ _ _ _ HGET)
    as [(_ & -> & _) | [(_ & _ & -> & _) |
        (items & p & _ & Hcat & Hrun & -> & _)]];
    [done | done |].
  rewrite waybackQuery_mode in Hcat. cbn [fst] in Hcat. rewrite Hcat in Hdated.
  pose proof Hrun as (Hinv & _ & _)%runPool_invariant.
  cbn. intros _ _.
  eexists _, calls. split; [reflexivity|]. cbn.
  assert (Sorted earlier (Array_sort chronological (uniqueItems (shared p))))
    as Hsorted.
  { apply Array_sort_chronological_Sorted.
    eapply uniqueItems_dated; [done|]. by apply candidates_dated. }
  split_and!; try done.
  intros first t Hfirst Hin.
  destruct (Array_sort chronological (uniqueItems (shared p)))
    as [|a l]; [done|].
  injection Hfirst as ->. by eapply Sorted_earlier_head.
Qed.

Lemma viewer_shows_oldest_first_witness :
  datedCatalog (getWaybackItems (sampleWorld sampleCatalog sampleSchedule)) ∧
  Viewer.loading
    (fetchTimeline viewerRuntime
       (route viewerRuntime (sampleWorld sampleCatalog sampleSchedule))
       46.5 7.75 initialViewer) = false ∧
  Viewer.error
    (fetchTimeline viewerRuntime
       (route viewerRuntime (sampleWorld sampleCatalog sampleSchedule))
       46.5 7.75 initialViewer) = None ∧
  Viewer.timeline
    (fetchTimeline viewerRuntime
       (route viewerRuntime (sampleWorld sampleCatalog sampleSchedule))
       46.5 7.75 initialViewer) =
  Some [ viewerTile 20 "2014-02-20" 1392854400000;
         viewerTile 30 "2015-09-09" 1441756800000;
         viewerTile 10 "2016-06-01" 1464739200000 ] ∧
  ∃ body calls,
    GET viewerRuntime (waybackQuery viewerRuntime 46.5 7.75)
      (sampleWorld sampleCatalog sampleSchedule) = Some (answered body, calls) ∧
    Sorted earlier (Body.timeline body).
Proof.
  assert (datedCatalog
            (getWaybackItems (sampleWorld sampleCatalog sampleSchedule)))
    as Hdated.
  { by apply (datedCatalog_Items sampleCatalog). }
  split; [exact Hdated|].
  split; [reflexivity|]. split; [reflexivity|].
  split; [vm_compute; reflexivity|].
  destruct (viewer_shows_oldest_first viewerRuntime
              (sampleWorld sampleCatalog sampleSchedule) 46.5 7.75
              initialViewer Hdated eq_refl eq_refl)
    as (body & calls & HGET & _ & _ & Hsorted & _).
  exists body, calls. split; [exact HGET | exact Hsorted].
Defined.

(** X19: whatever the place, the request of the viewer asks for mode [all]
    at zoom 18.  The route then queries the whole catalog and never the
    catalog of local changes, the default zoom 15 is not used, and every
    other request made for the answer is a tile request. *)
Theorem viewer_asks_whole_catalog P world latitude longitude resp calls :
  GET P (waybackQuery P latitude longitude) world = Some (resp, calls) →
  (∀ lat lng zoom, CallGetWaybackItemsWithLocalChanges lat lng zoom ∉ calls) ∧
  (http_status resp ≠ 400%Z →
   ∃ fetches, calls = CallGetWaybackItems :: fetches ∧
     ∀ call, call ∈ fetches → ∃ target, call = CallFetch target) ∧
  (∀ body, json resp = TimelineJson body →
     Body.zoom body = parseInt P "18" ∧
     Body.tileCoords body =
       latLngToTile P (queryLat P (waybackQuery P latitude longitude))
         (queryLng P (waybackQuery P latitude longitude)) (parseInt P "18")).
Proof.
  intros HGET.
  destruct (GET_cases _ _ _ _ _ HGET)
    as [(_ & -> & ->) | [(_ & _ & -> & ->) | (items & p & _ & _ & _ & -> & ->)]];
    rewrite ?waybackQuery_mode; cbn [fst snd].
  - split_and!; [by intros ??? ?%elem_of_nil | done | done].
  - split_and!.
    + intros ??? Hin. apply elem_of_cons in Hin as [[=] | ?%elem_of_nil]; done.
    + intros _. exists []. split; [done|]. by intros ? ?%elem_of_nil.
    + done.
  - split_and!.
    + intros ??? Hin. apply elem_of_cons in Hin as [[=] | Hin].
      by apply fetchCalls_are_fetches in Hin as (? & [=]).
    + intros _. eexists. split; [done|]. apply fetchCalls_are_fetches.
    + intros body [= <-]. done.
Qed.

Lemma viewer_asks_whole_catalog_witness :
  ∃ resp calls fetches,
    GET viewerRuntime (waybackQuery viewerRuntime 46.5 7.75)
      (sampleWorld sampleCatalog sampleSchedule) = Some (resp, calls) ∧
    http_status resp ≠ 400%Z ∧
    calls = CallGetWaybackItems :: fetches ∧
    ∀ body, json resp = TimelineJson body →
      Body.zoom body = 18%float ∧ Body.tileCoords body = viewerCoords.
Proof.
  eexists _, _, _. split; [vm_compute; reflexivity|].
  split; [vm_compute; discriminate|]. split; [reflexivity|].
  intros body Hbody.
  edestruct (viewer_asks_whole_catalog viewerRuntime
               (sampleWorld sampleCatalog sampleSchedule) 46.5 7.75)
    as (_ & _ & Hzoom); [vm_compute; reflexivity|].
  destruct (Hzoom body Hbody) as [-> ->]. split; reflexivity.
Defined.

(** ** Sorting numbers *)

Lemma insert_compareNumbers_Forall (P : nat → Prop) a l :
  P a → Forall P l → Forall P (insert compareNumbers a l).
Proof.
  intros Ha. induction 1 as [|b l Hb Hl IH]; cbn [insert].
  - by repeat constructor.
  - case_match; repeat constructor; done.
Qed.

Lemma insert_compareNumbers_sorted a l :
  StronglySorted le l → StronglySorted le (insert compareNumbers a l).
Proof.
  induction 1 as [|b l Hl IH Hb]; cbn [insert].
  - by repeat constructor.
  - change (SortCompare compareNumbers a b) with (Z.of_nat a - Z.of_nat b)%Z.
    destruct (Z.leb_spec (Z.of_nat a - Z.of_nat b) 0) as [Hle | Hgt].
    + constructor; [by constructor|]. constructor; [lia|].
      eapply Forall_impl; [exact Hb|]. intros; simpl in *; lia.
    + constructor; [done|].
      apply insert_compareNumbers_Forall; [lia | done].
Qed.

Lemma Array_sort_compareNumbers_sorted l :
  StronglySorted le (Array_sort compareNumbers l).
Proof.
  induction l as [|a l IH]; cbn [Array_sort]; [constructor|].
  by apply insert_compareNumbers_sorted.
Qed.

Lemma StronglySorted_seq j n : StronglySorted le (seq j n).
Proof.
  revert j. induction n as [|n IH]; intros j; cbn [seq]; constructor.
  - apply IH.
  - apply Forall_forall. intros k Hk%elem_of_seq. lia.
Qed.

(* A list of numbers in ascending order without repetition is determined
   by its elements. *)
Lemma ascending_unique (l1 l2 : list nat) :
  StronglySorted le l1 → StronglySorted le l2 →
  NoDup l1 → NoDup l2 →
  (∀ x, x ∈ l1 ↔ x ∈ l2) →
  l1 = l2.
Proof.
  intros H1. revert l2.
  induction H1 as [|a l1 Hl1 IH Ha]; intros l2 H2 N1 N2 Hsame.
  - destruct l2 as [|b l2]; [done|].
    assert (b ∈ ([] : list nat)) as ?%elem_of_nil by (apply Hsame; by left).
    done.
  - destruct H2 as [|b l2 Hl2 Hb].
    { assert (a ∈ ([] : list nat)) as ?%elem_of_nil by (apply Hsame; by left).
      done. }
    apply NoDup_cons in N1 as [Na N1]. apply NoDup_cons in N2 as [Nb N2].
    rewrite Forall_forall in Ha, Hb.
    assert (a = b) as <-.
    { assert (a ∈ b :: l2) as Hin1 by (apply Hsame; by left).
      assert (b ∈ a :: l1) as Hin2 by (apply Hsame; by left).
      apply elem_of_cons in Hin1 as [? | Hin1]; [done|].
      apply elem_of_cons in Hin2 as [? | Hin2]; [done|].
      specialize (Ha _ Hin2). specialize (Hb _ Hin1). lia. }
    f_equal. apply IH; try done.
    intros x. split; intros Hx.
    + assert (x ∈ a :: l2) as Hin by (apply Hsame; by right).
      apply elem_of_cons in Hin as [-> | Hin]; done.
    + assert (x ∈ a :: l1) as Hin by (apply Hsame; by right).
      apply elem_of_cons in Hin as [-> | Hin]; done.
Qed.

Lemma Array_sort_ascending (l : list nat) n :
  NoDup l → (∀ i, i ∈ l ↔ i < n) →
  Array_sort compareNumbers l = seq 0 n.
Proof.
  intros Hl Hin. apply ascending_unique.
  - apply Array_sort_compareNumbers_sorted.
  - apply StronglySorted_seq.
  - by rewrite (Array_sort_Permutation compareNumbers l).
  - apply NoDup_seq.
  - intros i. rewrite (Array_sort_Permutation compareNumbers l), Hin, elem_of_seq.
    lia.
Qed.

(** ** The keys of the detections *)

Lemma Object_keys_Permutation {A} (m : gmap nat A) :
  Object_keys m ≡ₚ (map_to_list m).*1.
Proof. apply Array_sort_Permutation. Qed.

Lemma elem_of_Object_keys {A} (m : gmap nat A) i :
  i ∈ Object_keys m ↔ is_Some (m !! i).
Proof.
  rewrite Object_keys_Permutation, list_elem_of_fmap. split.
  - intros ([j x] & -> & Hin%elem_of_map_to_list). by exists x.
  - intros [x Hx]. exists (i, x). split; [done|]. by apply elem_of_map_to_list.
Qed.

Lemma NoDup_Object_keys {A} (m : gmap nat A) : NoDup (Object_keys m).
Proof. rewrite Object_keys_Permutation. apply NoDup_fst_map_to_list. Qed.

(* The keys of an object that has an entry for every index below [n] and
   for no other. *)
Lemma Object_keys_full {A} (m : gmap nat A) n :
  (∀ i, is_Some (m !! i) ↔ i < n) → Object_keys m = seq 0 n.
Proof.
  intros Hm. unfold Object_keys. apply Array_sort_ascending.
  - apply NoDup_fst_map_to_list.
  - intros i. rewrite <- Hm, <- elem_of_Object_keys.
    by rewrite Object_keys_Permutation.
Qed.

(* An object with entries below [n] only, and none at [i], has fewer than
   [n] keys. *)
Lemma Object_keys_short {A} (m : gmap nat A) n i :
  (∀ j, is_Some (m !! j) → j < n) → i < n → m !! i = None →
  length (Object_keys m) < n.
Proof.
  intros Hm Hi Hnone.
  assert (Object_keys m ⊆+ seq 0 i ++ seq (S i) (n - S i)) as Hsub.
  { apply NoDup_submseteq; [apply NoDup_Object_keys|].
    intros j Hj%elem_of_Object_keys.
    pose proof (Hm j Hj) as Hlt.
    assert (j ≠ i) as Hne by (intros ->; rewrite Hnone in Hj; by destruct Hj).
    rewrite elem_of_app, !elem_of_seq. lia. }
  apply submseteq_length in Hsub.
  rewrite length_app, !length_seq in Hsub. lia.
Qed.

(** ** The autoplay *)

Lemma detectionLoop_spec replies remaining : ∀ i st,
  let st' := detectionLoop i remaining replies st in
  (∀ j, Viewer.detections st' !! j =
        match (if decide (i ≤ j) then remaining !! (j - i) else None) with
        | Some t =>
            match detected t (replies j) with
            | Some d => Some d
            | None => Viewer.detections st !! j
            end
        | None => Viewer.detections st !! j
        end) ∧
  Viewer.autoplayDone st' = Viewer.autoplayDone st ∧
  Viewer.analysisSent st' = Viewer.analysisSent st ∧
  (remaining ≠ [] →
   Viewer.currentIndex st' = (Z.of_nat (i + length remaining) - 1)%Z).
Proof.
  induction remaining as [|t rest IH]; intros i st; cbn zeta.
  - cbn [detectionLoop]. split_and!; try done.
    intros j. case_decide; [|done]. by rewrite lookup_nil.
  - cbn [detectionLoop].
    match goal with |- context [detectionLoop _ _ _ ?st1] =>
      destruct (IH (S i) st1) as (Hd & Ha & Hs & Hc) end.
    cbn zeta in *. cbn [Viewer.detections Viewer.autoplayDone
      Viewer.analysisSent Viewer.currentIndex] in *.
    split_and!; try done.
    + intros j. rewrite Hd.
      assert (j ≠ i →
              (match detected t (replies i) with
               | Some d => <[i:=d]> (Viewer.detections st)
               | None => Viewer.detections st
               end) !! j = Viewer.detections st !! j) as Hother.
      { intros Hji. destruct (detected t (replies i)); [|done].
        apply lookup_insert_ne. lia. }
      destruct (decide (i ≤ j)) as [Hij | Hij].
      * destruct (decide (S i ≤ j)) as [HSij | HSij].
        -- replace (j - i) with (S (j - S i)) by lia. cbn [lookup list_lookup].
           rewrite Hother by lia. done.
        -- assert (j = i) as -> by lia. rewrite Nat.sub_diag.
           cbn [lookup list_lookup].
           destruct (detected t (replies i)); [|done].
           by rewrite lookup_insert_eq.
      * rewrite decide_False by lia. apply Hother. lia.
    + intros _. destruct rest as [|t' rest'].
      * cbn [detectionLoop Viewer.currentIndex length]. lia.
      * rewrite Hc by done. cbn [length]. lia.
Qed.

Lemma runDetectionsSequentially_spec timeline replies st :
  timeline ≠ [] → Viewer.autoplayDone st = false →
  let st' := runDetectionsSequentially timeline replies st in
  (∀ j, Viewer.detections st' !! j =
        match timeline !! j with
        | Some t => detected t (replies j)
        | None => None
        end) ∧
  Viewer.autoplayDone st' = true ∧
  Viewer.analysisSent st' = false ∧
  Viewer.currentIndex st' = (Z.of_nat (length timeline) - 1)%Z.
Proof.
  intros Hne Hdone. cbn zeta. unfold runDetectionsSequentially. rewrite Hdone.
  destruct timeline as [|t0 rest0] eqn:Htl; [done|].
  rewrite <- Htl in *. assert ((length timeline =? 0) = false) as ->.
  { apply Nat.eqb_neq. rewrite Htl. done. }
  cbn [orb].
  match goal with |- context [detectionLoop 0 timeline replies ?st0] =>
    destruct (detectionLoop_spec replies timeline 0 st0) as (Hd & Ha & Hs & Hc)
  end.
  cbn zeta in *. cbn [Viewer.detections Viewer.autoplayDone
    Viewer.analysisSent Viewer.currentIndex] in *.
  split_and!; try done.
  - intros j. rewrite Hd, decide_True, Nat.sub_0_r by lia.
    destruct (timeline !! j); [|done].
    destruct (detected _ _); [done|]. apply lookup_empty.
  - rewrite Hc by (rewrite Htl; done). f_equal.
Qed.

Lemma omap_seq {A} (f : nat → option A) (g : nat → A) n : ∀ j,
  (∀ i, j ≤ i < j + n → f i = Some (g i)) →
  omap f (seq j n) = g <$> seq j n.
Proof.
  induction n as [|n IH]; intros j Hf; [done|].
  cbn [seq omap list_omap fmap list_fmap].
  rewrite (Hf j) by lia. f_equal. apply IH. intros i Hi. apply Hf. lia.
Qed.

(** X20: the analysis of a viewer that shows its timeline for the first
    time.  When the detection answers for every image, the callback gets one
    point for every image of the timeline, in the order of the timeline,
    with the release date of the image and the number of boxes found in it;
    the autoplay has then stopped at the last image. *)
Theorem analysis_has_a_point_per_image timeline replies st :
  timeline ≠ [] →
  Viewer.autoplayDone st = false →
  (∀ i t, timeline !! i = Some t → is_Some (detected t (replies i))) →
  ∃ points,
    analysisOf timeline replies st = Some points ∧
    length points = length timeline ∧
    (∀ i t, timeline !! i = Some t → points !! i = pointOf t (replies i)) ∧
    Viewer.currentIndex (runDetectionsSequentially timeline replies st) =
      (Z.of_nat (length timeline) - 1)%Z.
Proof.
  intros Hne Hdone Hall.
  destruct (runDetectionsSequentially_spec timeline replies st Hne Hdone)
    as (Hd & Ha & Hs & Hc). cbn zeta in *.
  unfold analysisOf, sendAnalysis. rewrite Ha, Hs. cbn [negb orb].
  set (st' := runDetectionsSequentially timeline replies st) in *.
  assert (∀ i, is_Some (Viewer.detections st' !! i) ↔ i < length timeline)
    as Hkeys.
  { intros i. rewrite Hd. split.
    - destruct (timeline !! i) eqn:Hi; [|by intros []].
      intros _. by eapply lookup_lt_Some.
    - intros [t Ht]%lookup_lt_is_Some. rewrite Ht. by eapply Hall. }
  rewrite (Object_keys_full _ _ Hkeys), length_seq, Nat.eqb_refl. cbn [negb snd].
  rewrite (Array_sort_ascending (seq 0 (length timeline)) (length timeline))
    by (apply NoDup_seq || (intros i; rewrite elem_of_seq; lia)).
  set (point := fun i =>
         match timeline !! i with
         | Some t =>
             match pointOf t (replies i) with
             | Some pt => pt
             | None => {| Point.date := ""; Point.count := 0 |}
             end
         | None => {| Point.date := ""; Point.count := 0 |}
         end).
  eexists. split; [reflexivity|].
  rewrite (omap_seq _ point).
  - split_and!; [by rewrite length_fmap, length_seq | | done].
    intros i t Hi. pose proof (lookup_lt_Some _ _ _ Hi) as Hlt.
    rewrite list_lookup_fmap, lookup_seq_lt by done. cbn.
    unfold point. rewrite Hi. unfold pointOf.
    destruct (Hall i t Hi) as [d ->]. done.
  - intros i Hi. rewrite Hd. unfold point.
    destruct (timeline !! i) as [t|] eqn:Ht;
      [|apply lookup_ge_None in Ht; lia].
    unfold pointOf. destruct (Hall i t Ht) as [d Hdet]. rewrite Hdet.
    f_equal. f_equal. unfold detected in Hdet.
    destruct (replies i) as [|[data|]]; try done.
    destruct (truthy _); [done|]. by injection Hdet as <-.
Qed.

Lemma analysis_has_a_point_per_image_witness :
  sampleTimeline ≠ [] ∧
  Viewer.autoplayDone initialViewer = false ∧
  analysisOf sampleTimeline sampleDetections initialViewer =
    Some [ {| Point.date := "2014-02-20"; Point.count := 0 |};
           {| Point.date := "2015-09-09"; Point.count := 1 |};
           {| Point.date := "2016-06-01"; Point.count := 0 |} ].
Proof.
  split; [discriminate|]. split; [reflexivity|].
  destruct (analysis_has_a_point_per_image sampleTimeline sampleDetections
              initialViewer) as (points & Hpoints & Hlen & Hpoint & _).
  - discriminate.
  - reflexivity.
  - intros [|[|[|i]]] t Ht; cbn in Ht; try done;
      injection Ht as <-; by eexists.
  - rewrite Hpoints. f_equal.
    destruct points as [|p0 [|p1 [|p2 [|p3 points]]]]; try done.
    pose proof (Hpoint 0 _ eq_refl) as H0.
    pose proof (Hpoint 1 _ eq_refl) as H1.
    pose proof (Hpoint 2 _ eq_refl) as H2.
    cbn in H0, H1, H2. by injection H0 as ->; injection H1 as ->;
      injection H2 as ->.
Defined.

(** X21: one detection that fails holds back the analysis of the timeline
    that was played.  When the request for an image of the timeline throws,
    or its answer is [null] or reports an error, the first autoplay still
    runs to its end, but the effect that follows it does not call the
    callback, not even with the points of the other images: fewer
    detections are stored than the timeline has images.  The effect leaves
    the state as it is, so it sends nothing however often it runs again
    while the timeline and the detections stay the same. *)
Theorem analysis_held_back_by_one_failure timeline replies st i t :
  Viewer.autoplayDone st = false →
  timeline !! i = Some t →
  detected t (replies i) = None →
  let played := runDetectionsSequentially timeline replies st in
  analysisOf timeline replies st = None ∧
  Viewer.autoplayDone played = true ∧
  Viewer.analysisSent played = false ∧
  length (Object_keys (Viewer.detections played)) < length timeline ∧
  sendAnalysis timeline true played = (played, None).
Proof.
  intros Hdone Hi Hnone.
  assert (timeline ≠ []) as Hne by (intros ->; done).
  destruct (runDetectionsSequentially_spec timeline replies st Hne Hdone)
    as (Hd & Ha & Hs & Hc). cbn zeta in *.
  set (st' := runDetectionsSequentially timeline replies st) in *.
  assert (length (Object_keys (Viewer.detections st')) < length timeline)
    as Hshort.
  { apply (Object_keys_short _ _ i).
    - intros j. rewrite Hd. destruct (timeline !! j) eqn:Hj; [|by intros []].
      intros _. by eapply lookup_lt_Some.
    - by eapply lookup_lt_Some.
    - by rewrite Hd, Hi. }
  assert (sendAnalysis timeline true st' = (st', None)) as Hsend.
  { unfold sendAnalysis. rewrite Ha, Hs. cbn [negb orb].
    apply Nat.lt_neq, Nat.eqb_neq in Hshort. by rewrite Hshort. }
  split_and!; try done.
  unfold analysisOf. fold st'. by rewrite Hsend.
Qed.

Lemma analysis_held_back_by_one_failure_witness :
  Viewer.autoplayDone initialViewer = false ∧
  sampleTimeline !! 1 = Some (sampleTile 30 "2015-09-09" 1441756800000) ∧
  detected (sampleTile 30 "2015-09-09" 1441756800000) (brokenDetections 1) =
    None ∧
  Object_keys
    (Viewer.detections
       (runDetectionsSequentially sampleTimeline brokenDetections
          initialViewer)) = [0; 2] ∧
  Viewer.autoplayDone
    (runDetectionsSequentially sampleTimeline brokenDetections
       initialViewer) = true ∧
  Viewer.currentIndex
    (runDetectionsSequentially sampleTimeline brokenDetections
       initialViewer) = 2%Z ∧
  analysisOf sampleTimeline brokenDetections initialViewer = None.
Proof.
  split; [reflexivity|]. split; [reflexivity|]. split; [reflexivity|].
  split; [vm_compute; reflexivity|]. split; [vm_compute; reflexivity|].
  split; [vm_compute; reflexivity|].
  apply (analysis_held_back_by_one_failure sampleTimeline brokenDetections
           initialViewer 1 (sampleTile 30 "2015-09-09" 1441756800000));
    reflexivity.
Defined.

(** ** The markers of the globe *)

Lemma addMarker_ids marker prev :
  GlobeMarker.id <$> addMarker marker prev =
  filter (fun k => k ≠ GlobeMarker.id marker) (GlobeMarker.id <$> prev) ++
  [GlobeMarker.id marker].
Proof.
  unfold addMarker. rewrite fmap_app. f_equal.
  induction prev as [|m prev IH]; [done|].
  rewrite fmap_cons, !filter_cons. cbn beta.
  case_decide; [rewrite fmap_cons|]; by rewrite IH.
Qed.

Lemma addMarker_NoDup marker prev :
  NoDup (GlobeMarker.id <$> prev) →
  NoDup (GlobeMarker.id <$> addMarker marker prev).
Proof.
  intros Hprev. rewrite addMarker_ids. apply NoDup_app. split_and!.
  - by apply NoDup_filter.
  - intros k [Hk _]%list_elem_of_filter Hin%list_elem_of_singleton. done.
  - apply NoDup_singleton.
Qed.

(** X22: the globe never holds two markers with the same id: whatever
    markers are added and whenever the list is cleared, the ids of the
    markers in the list are pairwise different. *)
Theorem markers_have_unique_ids actions :
  NoDup (GlobeMarker.id <$> markersAfter actions).
Proof.
  unfold markersAfter.
  assert (NoDup (GlobeMarker.id <$> ([] : list GlobeMarker.t))) as Hnil
    by constructor.
  revert Hnil. generalize ([] : list GlobeMarker.t).
  induction actions as [|a actions IH]; intros prev Hprev; [done|].
  cbn [fold_left]. apply IH. destruct a as [marker|]; cbn [setMarkers].
  - by apply addMarker_NoDup.
  - constructor.
Qed.

Lemma filter_id_removed k (prev : list GlobeMarker.t) :
  filter (has_id k) (filter (fun m => GlobeMarker.id m ≠ k) prev) = [].
Proof.
  induction prev as [|m prev IH]; [done|].
  rewrite filter_cons. case_decide as Hm; [|done].
  rewrite filter_cons. unfold has_id at 1. by case_decide.
Qed.

Lemma filter_id_kept k k' (prev : list GlobeMarker.t) :
  k ≠ k' →
  filter (has_id k) (filter (fun m => GlobeMarker.id m ≠ k') prev) =
  filter (has_id k) prev.
Proof.
  intros Hk. induction prev as [|m prev IH]; [done|].
  rewrite !filter_cons. unfold has_id at 2.
  case_decide as Hm; case_decide as Hm'; try congruence.
  - rewrite filter_cons. unfold has_id at 1.
    case_decide; [by rewrite IH | done].
  - rewrite filter_cons. unfold has_id at 1. by case_decide.
Qed.

Lemma filter_id_twice k (prev : list GlobeMarker.t) :
  filter (fun m => GlobeMarker.id m ≠ k)
    (filter (fun m => GlobeMarker.id m ≠ k) prev) =
  filter (fun m => GlobeMarker.id m ≠ k) prev.
Proof.
  induction prev as [|m prev IH]; [done|].
  rewrite filter_cons. case_decide as Hm; [|done].
  rewrite filter_cons. case_decide; [by rewrite IH | done].
Qed.

(** X23: adding a marker replaces the marker of the same id, if there is
    one, and touches no other: the new marker is the last of the list and
    the only one of its id, the other markers are the same as before and in
    the same order, and adding the marker once more changes nothing. *)
Theorem addMarker_replaces marker prev :
  last (addMarker marker prev) = Some marker ∧
  filter (has_id (GlobeMarker.id marker)) (addMarker marker prev) = [marker] ∧
  (∀ k, k ≠ GlobeMarker.id marker →
     filter (has_id k) (addMarker marker prev) = filter (has_id k) prev) ∧
  addMarker marker (addMarker marker prev) = addMarker marker prev.
Proof.
  unfold addMarker. split_and!.
  - apply last_snoc.
  - rewrite filter_app, filter_id_removed.
    rewrite filter_cons_True by done. done.
  - intros k Hk. rewrite filter_app, (filter_id_kept _ _ _ Hk).
    rewrite filter_cons_False by (unfold has_id; congruence).
    by rewrite filter_nil, app_nil_r.
  - f_equal. rewrite filter_app, filter_id_twice.
    rewrite filter_cons_False by (intros H; by apply H).
    by rewrite filter_nil, app_nil_r.
Qed.

(** ** The location named in a chat message *)

Section location_guess.
Import JsString.
#[local] Arguments Ascii.eqb : simpl never.

Lemma lacks_cons c0 c s :
  lacks c0 (String c s) = negb (Ascii.eqb c c0) && lacks c0 s.
Proof. done. Qed.

(* The span ends where the first closing parenthesis stands. *)
Lemma span_unclosed_spec s :
  let '(run, rest) := span_unclosed s in
  s = run +:+ rest ∧ lacks ")" run = true ∧
  (rest = EmptyString ∨ ∃ rest', rest = String ")" rest').
Proof.
  induction s as [|c s IH]; cbn [span_unclosed].
  - split_and!; [done | done | by left].
  - destruct (Ascii.eqb c ")") eqn:Hc.
    + apply Ascii.eqb_eq in Hc as ->. split_and!; [done | done | right; eauto].
    + destruct (span_unclosed s) as [run rest].
      destruct IH as (-> & Hrun & Hrest).
      split_and!; [done | | done]. by rewrite lacks_cons, Hc, Hrun.
Qed.

Lemma span_unclosed_app name post :
  lacks ")" name = true →
  span_unclosed (name +:+ String ")" post) = (name, String ")" post).
Proof.
  induction name as [|c name IH]; [done|].
  rewrite lacks_cons. intros [Hc Hname]%andb_prop.
  rewrite app_cons. cbn [span_unclosed].
  apply negb_true_iff in Hc. by rewrite Hc, IH.
Qed.

Lemma span_unclosed_lacks s :
  lacks ")" s = true → span_unclosed s = (s, EmptyString).
Proof.
  induction s as [|c s IH]; [done|].
  rewrite lacks_cons. intros [Hc Hs]%andb_prop.
  cbn [span_unclosed]. apply negb_true_iff in Hc. by rewrite Hc, IH.
Qed.

Lemma match_parenthesized_spec text g :
  match_parenthesized text = Some g →
  g ≠ EmptyString ∧ lacks ")" g = true ∧
  ∃ pre post, text = pre +:+ "(" +:+ g +:+ ")" +:+ post.
Proof.
  induction text as [|c text IH]; [done|]. cbn [match_parenthesized].
  assert (match_parenthesized text = Some g →
          g ≠ EmptyString ∧ lacks ")" g = true ∧
          ∃ pre post, String c text = pre +:+ "(" +:+ g +:+ ")" +:+ post)
    as Hlater.
  { intros (Hg & Hlacks & pre & post & ->)%IH. split_and!; [done | done |].
    by exists (String c pre), post. }
  destruct (Ascii.eqb c "(") eqn:Hc; [|done].
  apply Ascii.eqb_eq in Hc as ->.
  pose proof (span_unclosed_spec text) as Hspan.
  destruct (span_unclosed text) as [[|a run] [|b rest]]; try done.
  destruct Hspan as (-> & Hrun & [? | (rest' & [= -> ->])]); [done|].
  intros [= <-]. split_and!; [done | done |].
  by exists EmptyString, rest'.
Qed.

Lemma match_parenthesized_unclosed text :
  lacks ")" text = true → match_parenthesized text = None.
Proof.
  induction text as [|c text IH]; [done|].
  rewrite lacks_cons. intros [_ Htext]%andb_prop.
  cbn [match_parenthesized]. rewrite (span_unclosed_lacks _ Htext), (IH Htext).
  destruct (Ascii.eqb c "("); [|done]. by destruct text.
Qed.

Lemma match_parenthesized_unopened text :
  lacks "(" text = true → match_parenthesized text = None.
Proof.
  induction text as [|c text IH]; [done|].
  rewrite lacks_cons. intros [Hc Htext]%andb_prop.
  cbn [match_parenthesized]. apply negb_true_iff in Hc. by rewrite Hc, IH.
Qed.

Lemma match_parenthesized_first pre name post :
  lacks "(" pre = true → lacks ")" name = true → name ≠ EmptyString →
  match_parenthesized (pre +:+ "(" +:+ name +:+ ")" +:+ post) = Some name.
Proof.
  intros Hpre Hname Hne. induction pre as [|c pre IH].
  - rewrite app_empty, app_cons, app_empty. cbn [match_parenthesized].
    rewrite Ascii.eqb_refl, app_cons, app_empty, (span_unclosed_app _ _ Hname).
    by destruct name.
  - rewrite lacks_cons in Hpre. apply andb_prop in Hpre as [Hc Hpre].
    rewrite app_cons. cbn [match_parenthesized].
    apply negb_true_iff in Hc. rewrite Hc. by apply IH.
Qed.

Lemma extractLocationGuess_cases text :
  (match_parenthesized text = None ∧ extractLocationGuess text = text) ∨
  (∃ g, match_parenthesized text = Some g ∧ extractLocationGuess text = g ∧
        g ≠ EmptyString).
Proof.
  unfold extractLocationGuess.
  destruct (match_parenthesized text) as [g|] eqn:Hm; [|by left].
  right. exists g. destruct (match_parenthesized_spec _ _ Hm) as (Hg & _).
  by destruct g.
Qed.

End location_guess.

(** X24: a message that names a place in parentheses yields that name: the
    guess is the text between the first opening parenthesis and the closing
    parenthesis that follows it, whatever stands before and after. *)
Theorem extractLocationGuess_parenthesized pre name post :
  lacks "(" pre = true →
  lacks ")" name = true →
  name ≠ EmptyString →
  extractLocationGuess (pre +:+ "(" +:+ name +:+ ")" +:+ post) = name.
Proof.
  intros Hpre Hname Hne. unfold extractLocationGuess.
  rewrite (match_parenthesized_first _ _ _ Hpre Hname Hne). by destruct name.
Qed.

Lemma extractLocationGuess_parenthesized_witness :
  lacks "(" "satellite images of the fair ground " = true ∧
  lacks ")" "Theresienwiese, Munich" = true ∧
  extractLocationGuess
    "satellite images of the fair ground (Theresienwiese, Munich) please" =
  "Theresienwiese, Munich".
Proof.
  split; [reflexivity|]. split; [reflexivity|].
  apply (extractLocationGuess_parenthesized
           "satellite images of the fair ground " "Theresienwiese, Munich"
           " please"); [reflexivity | reflexivity | discriminate].
Defined.

(** X25: the guess is either the whole message or a part of it that stood
    in parentheses.  A message without a closing or without an opening
    parenthesis is its own guess; a guess that differs from the message is
    not empty, has no closing parenthesis and stands in the message between
    parentheses; and guessing again from the guess changes nothing. *)
Theorem extractLocationGuess_idempotent text :
  extractLocationGuess (extractLocationGuess text) = extractLocationGuess text ∧
  (lacks ")" text = true ∨ lacks "(" text = true →
   extractLocationGuess text = text) ∧
  (extractLocationGuess text ≠ text →
   extractLocationGuess text ≠ EmptyString ∧
   lacks ")" (extractLocationGuess text) = true ∧
   ∃ pre post,
     text = pre +:+ "(" +:+ extractLocationGuess text +:+ ")" +:+ post).
Proof.
  destruct (extractLocationGuess_cases text)
    as [[Hnone ->] | (g & Hsome & -> & Hg)].
  - split_and!; [by unfold extractLocationGuess; rewrite Hnone | done | done].
  - destruct (match_parenthesized_spec _ _ Hsome) as (_ & Hlacks & Hshape).
    split_and!.
    + unfold extractLocationGuess.
      by rewrite (match_parenthesized_unclosed _ Hlacks).
    + intros [H | H].
      * by rewrite (match_parenthesized_unclosed _ H) in Hsome.
      * by rewrite (match_parenthesized_unopened _ H) in Hsome.
    + done.
Qed.

Lemma extractLocationGuess_idempotent_witness :
  lacks "(" "wayback imagery of Davos" = true ∧
  extractLocationGuess "wayback imagery of Davos" = "wayback imagery of Davos".
Proof.
  split; [reflexivity|].
  apply (extractLocationGuess_idempotent "wayback imagery of Davos").
  right. reflexivity.
Defined.
